(** * Trading-simulation dashboard: the simulation engine of
      [src/app/api/simulate/route.ts]

    A shallow embedding of the route handler [POST] and of its helpers
    ([seededRandom], [seededNormalRandom], [generateMultivariateNormal],
    [calculateRealizedVolatilityFromLogPrices], [samplePath]), of the
    helpers the handler leaves unused ([createPseudoRandom],
    [generateNormalRandom], [generateCorrelatedRandoms],
    [calculateRealizedVolatility]) and of the functions of the Python engine
    of [src/lib/python-simulation.ts] that draw no random number
    ([calculate_realized_volatility], [calculate_effective_trends],
    [downsample_prices]), followed by the properties of the engine.

    Numbers.  A JavaScript number is modelled by [num]: [NaN], the two
    infinities, or a finite value carried as a real.  The special values
    follow ECMAScript ([Math.log] of a negative number is [NaN],
    [Math.max] propagates [NaN], comparisons with [NaN] are false, ...);
    rounding, overflow and the sign of zero are idealised away: a finite
    result is the exact real result.  The properties below that depend on
    it carry magnitude hypotheses, or conclude with inequalities that
    rounding and overflow preserve.  The seed and the generator state are
    integers ([Z]); the remainder [%] is the truncated one ([Z.rem]).  The
    generator step is taken on exact integers ([lcg]); the code takes it on
    doubles ([lcgDouble]), and the two agree while the integers stay below
    2^53: from every state in (-233280, 233280), so from every state that
    a call leaves, and from the seed itself when [seed * 9301 + 49297] is
    below 2^53 ([exactStep]; beyond, the first step is rounded, and from
    about 1.9e304 it overflows and the state is [NaN]).  Properties whose
    conclusion depends on the first step carry that bound.  Two
    more consequences of computing with reals: the test [u === 0] of the
    resampling loops is the exact one, so a Box-Muller value whose cosine
    is taken at a quarter turn is 0 here (the generator states 58320 and
    174960) where the floating-point cosine is a tiny nonzero number; and
    the index [Math.floor(i * step)] of [samplePath] is computed on exact
    rationals, where the code's rounded product can fall just below an
    integer that the exact product reaches.  The positions of the double
    computation are given beside it, on integer significands
    ([sampleIndexDouble], [samplePathDouble]), and the Python downsampler
    is modelled on them only ([arange_length], [rounded_index]).

    Effects.  The handler's local variable [seedState] and the ambient
    [Math.random] source live in an explicit state, threaded by a small state
    monad with three outcomes: a value, a thrown exception, or fuel
    exhaustion (the [while] loops are run with fuel). *)

From Stdlib Require Import Reals Lra Lia ZArith List Bool QArith Qround.
Import ListNotations.

Set Implicit Arguments.

(* ================================================================== *)
(** * JavaScript numbers *)
(* ================================================================== *)

Local Open Scope R_scope.

Inductive num : Type :=
| NaN
| PInf
| NInf
| Fin (r : R).

Definition Rltb (x y : R) : bool := if Rlt_dec x y then true else false.
Definition Reqb (x y : R) : bool := if Req_dec_T x y then true else false.

(** The sign-directed infinity: the infinity of the sign of [r]
    ([r] nonzero). *)
Definition inf_of_sign (r : R) : num := if Rltb r 0 then NInf else PInf.
Definition flip (x : num) : num :=
  match x with
  | NaN => NaN
  | PInf => NInf
  | NInf => PInf
  | Fin r => Fin (- r)
  end.

Definition nadd (x y : num) : num :=
  match x, y with
  | NaN, _ | _, NaN => NaN
  | PInf, NInf | NInf, PInf => NaN
  | PInf, _ | _, PInf => PInf
  | NInf, _ | _, NInf => NInf
  | Fin a, Fin b => Fin (a + b)
  end.

Definition nsub (x y : num) : num := nadd x (flip y).

Definition nmul (x y : num) : num :=
  match x, y with
  | NaN, _ | _, NaN => NaN
  | Fin a, Fin b => Fin (a * b)
  | PInf, PInf | NInf, NInf => PInf
  | PInf, NInf | NInf, PInf => NInf
  | PInf, Fin r | Fin r, PInf => if Reqb r 0 then NaN else inf_of_sign r
  | NInf, Fin r | Fin r, NInf => if Reqb r 0 then NaN else flip (inf_of_sign r)
  end.

Definition ndiv (x y : num) : num :=
  match x, y with
  | NaN, _ | _, NaN => NaN
  | (PInf | NInf), (PInf | NInf) => NaN
  | PInf, Fin r => inf_of_sign r
  | NInf, Fin r => flip (inf_of_sign r)
  | Fin _, (PInf | NInf) => Fin 0
  | Fin a, Fin b =>
      if Reqb b 0 then (if Reqb a 0 then NaN else inf_of_sign a)
      else Fin (a / b)
  end.

(** [Math.sqrt], [Math.log], [Math.exp], [Math.cos], [Math.abs],
    [Math.floor]. *)
Definition nsqrt (x : num) : num :=
  match x with
  | NaN | NInf => NaN
  | PInf => PInf
  | Fin r => if Rltb r 0 then NaN else Fin (sqrt r)
  end.

Definition nlog (x : num) : num :=
  match x with
  | NaN | NInf => NaN
  | PInf => PInf
  | Fin r => if Rltb r 0 then NaN else if Reqb r 0 then NInf else Fin (ln r)
  end.

Definition nexp (x : num) : num :=
  match x with
  | NaN => NaN
  | PInf => PInf
  | NInf => Fin 0
  | Fin r => Fin (exp r)
  end.

Definition ncos (x : num) : num :=
  match x with
  | Fin r => Fin (cos r)
  | _ => NaN
  end.

Definition nabs (x : num) : num :=
  match x with
  | NaN => NaN
  | PInf | NInf => PInf
  | Fin r => Fin (Rabs r)
  end.

Definition nfloor (x : num) : num :=
  match x with
  | Fin r => Fin (IZR (Zfloor r))
  | _ => x
  end.

(** [Math.max] and [Math.min]: [NaN] as soon as one argument is [NaN]. *)
Definition nmax (x y : num) : num :=
  match x, y with
  | NaN, _ | _, NaN => NaN
  | PInf, _ | _, PInf => PInf
  | NInf, z | z, NInf => z
  | Fin a, Fin b => Fin (Rmax a b)
  end.

Definition nmin (x y : num) : num :=
  match x, y with
  | NaN, _ | _, NaN => NaN
  | NInf, _ | _, NInf => NInf
  | PInf, z | z, PInf => z
  | Fin a, Fin b => Fin (Rmin a b)
  end.

(** The comparisons [x < y], [x >= y] and [x === y]: false on [NaN]. *)
Definition nlt (x y : num) : bool :=
  match x, y with
  | NaN, _ | _, NaN => false
  | _, NInf => false
  | PInf, _ => false
  | NInf, _ => true
  | Fin _, PInf => true
  | Fin a, Fin b => Rltb a b
  end.

Definition nge (x y : num) : bool :=
  match x, y with
  | NaN, _ | _, NaN => false
  | _, _ => negb (nlt x y)
  end.

Definition neq (x y : num) : bool :=
  match x, y with
  | PInf, PInf | NInf, NInf => true
  | Fin a, Fin b => Reqb a b
  | _, _ => false
  end.

(** [Math.pow(base, exponent)] and the operator [**], after ECMAScript's
    Number::exponentiate. *)
Definition is_integer (r : R) : bool := Reqb (IZR (Zfloor r)) r.
Definition is_odd_integer (r : R) : bool := is_integer r && Z.odd (Zfloor r).

Definition npow (base exponent : num) : num :=
  match exponent with
  | NaN => NaN
  | Fin e =>
      if Reqb e 0 then Fin 1
      else match base with
           | NaN => NaN
           | PInf => if Rltb 0 e then PInf else Fin 0
           | NInf => if Rltb 0 e
                     then (if is_odd_integer e then NInf else PInf)
                     else Fin 0
           | Fin b =>
               if Reqb b 0 then (if Rltb 0 e then Fin 0 else PInf)
               else if Rltb 0 b then Fin (Rpower b e)
               else if is_integer e then Fin (powerRZ b (Zfloor e))
               else NaN
           end
  | PInf =>
      match base with
      | NaN => NaN
      | PInf | NInf => PInf
      | Fin b => if Rltb 1 (Rabs b) then PInf
                 else if Reqb (Rabs b) 1 then NaN else Fin 0
      end
  | NInf =>
      match base with
      | NaN => NaN
      | PInf | NInf => Fin 0
      | Fin b => if Rltb 1 (Rabs b) then Fin 0
                 else if Reqb (Rabs b) 1 then NaN else PInf
      end
  end.

Definition is_finite (x : num) : Prop :=
  match x with Fin _ => True | _ => False end.

(** Numbers built from the integers of the program (loop counters, array
    lengths). *)
Definition of_Z (z : Z) : num := Fin (IZR z).
Definition of_nat (n : nat) : num := Fin (INR n).

(* ================================================================== *)
(** * The state monad of the handler *)
(* ================================================================== *)

Inductive outcome (S A : Type) : Type :=
| Ok (a : A) (s : S)
| Throw (s : S)
| Timeout.
Arguments Ok {S A} a s.
Arguments Throw {S A} s.
Arguments Timeout {S A}.

Definition M (S A : Type) : Type := S -> outcome S A.

Definition ret {S A : Type} (a : A) : M S A := fun s => Ok a s.

Definition bind {S A B : Type} (m : M S A) (k : A -> M S B) : M S B :=
  fun s =>
    match m s with
    | Ok a s' => k a s'
    | Throw s' => Throw s'
    | Timeout => Timeout
    end.

Definition throw {S A : Type} : M S A := fun s => Throw s.
Definition timeout {S A : Type} : M S A := fun _ => Timeout.

Declare Scope monad_scope.
Delimit Scope monad_scope with monad.
Notation "x <- m ;; k" := (bind m (fun x => k))
  (at level 61, m at next level, right associativity) : monad_scope.
Notation "' pat <- m ;; k" := (bind m (fun x => match x with pat => k end))
  (at level 61, pat pattern, m at next level, right associativity) : monad_scope.
Local Open Scope monad_scope.

(** [for (x of xs) acc = body(acc, x)], threading the state. *)
Fixpoint foldM {S A B : Type} (body : B -> A -> M S B) (xs : list A) (acc : B)
  : M S B :=
  match xs with
  | [] => ret acc
  | x :: xs' => acc' <- body acc x ;; foldM body xs' acc'
  end.

(** [while (u === 0) u = gen()]: at most [fuel] draws. *)
Fixpoint whileZero {S : Type} (fuel : nat) (gen : M S num) (u : num) : M S num :=
  if neq u (Fin 0) then
    match fuel with
    | O => timeout
    | Datatypes.S fuel' => u' <- gen ;; whileZero fuel' gen u'
    end
  else ret u.

(** The Box-Muller expression
    [Math.sqrt(-2.0 * Math.log(u)) * Math.cos(2.0 * Math.PI * v)]. *)
Definition boxMuller (u v : num) : num :=
  nmul (nsqrt (nmul (Fin (-2)) (nlog u)))
       (ncos (nmul (nmul (Fin 2) (Fin PI)) v)).

(* ================================================================== *)
(** * The random engine *)
(* ================================================================== *)

(** The ambient entropy source behind [Math.random]: a stream of draws and
    the position reached in it. *)
Record World : Type := {
  mathRandomDraws : nat -> R;
  mathRandomPos : nat
}.

Definition mathRandom : M World num :=
  fun w => Ok (Fin (mathRandomDraws w (mathRandomPos w)))
              {| mathRandomDraws := mathRandomDraws w;
                 mathRandomPos := Datatypes.S (mathRandomPos w) |}.

(** The state of one invocation of the handler: its local [seedState] and
    the world around it. *)
Record PostState : Type := {
  seedState : Z;
  world : World
}.

(** The step [(seedState * 9301 + 49297) % 233280] on exact integers.  It
    is the step of the code wherever the product and the sum are doubles,
    that is below 2^53 in magnitude (lemma [lcgDouble_exact]): at every
    state the generator reaches after its first call, and at the seed
    itself when it satisfies [exactStep]. *)
Definition lcg (s : Z) : Z := Z.rem (s * 9301 + 49297) 233280.

(** The same step as the code computes it, in double arithmetic, on a state
    that is an integer.  [roundToDouble z] is the double nearest to the
    integer [z] (53 significant bits, ties to even), [None] when that is an
    infinity; the remainder [%] of two doubles is exact, and
    [Infinity % 233280] is [NaN], the [None] of [lcgDouble]. *)
Definition roundToDouble (z : Z) : option Z :=
  let a := Z.abs z in
  if (a <? 2 ^ 53)%Z then Some z
  else
    let e := (Z.log2 a - 52)%Z in
    let q := (a / 2 ^ e)%Z in
    let r := (a mod 2 ^ e)%Z in
    let half := (2 ^ (e - 1))%Z in
    let q' := if (r <? half)%Z then q
              else if (half <? r)%Z then (q + 1)%Z
              else if Z.even q then q else (q + 1)%Z in
    let m := (q' * 2 ^ e)%Z in
    if (2 ^ 1024 <=? m)%Z then None else Some (Z.sgn z * m)%Z.

Definition lcgDouble (s : Z) : option Z :=
  match roundToDouble (s * 9301) with
  | None => None
  | Some product =>
      match roundToDouble (product + 49297) with
      | None => None
      | Some sum => Some (Z.rem sum 233280)
      end
  end.

(** The states at which the step is exact: the product and the sum are
    below 2^53 in magnitude.  For a nonnegative state this is
    [s <= 968411918577]. *)
Definition exactStep (s : Z) : Prop :=
  (- 2 ^ 53 < s * 9301 /\ s * 9301 + 49297 < 2 ^ 53)%Z.

Definition seededRandom : M PostState num :=
  fun st =>
    let st' := {| seedState := lcg (seedState st); world := world st |} in
    Ok (ndiv (of_Z (seedState st')) (Fin 233280)) st'.

Definition seededNormalRandom (fuel : nat) : M PostState num :=
  u <- whileZero fuel seededRandom (Fin 0) ;;
  v <- whileZero fuel seededRandom (Fin 0) ;;
  ret (boxMuller u v).

(** [createPseudoRandom(seed)]: the closure's state is its captured [seed]. *)
Definition createPseudoRandom : M Z num :=
  fun seed => let seed' := lcg seed in Ok (ndiv (of_Z seed') (Fin 233280)) seed'.

(** [generateNormalRandom], the unseeded variant on [Math.random]. *)
Definition generateNormalRandom (fuel : nat) : M World num :=
  u <- whileZero fuel mathRandom (Fin 0) ;;
  v <- whileZero fuel mathRandom (Fin 0) ;;
  ret (boxMuller u v).

(* ================================================================== *)
(** * Arrays *)
(* ================================================================== *)

(** [a[i] = x] on an array: in range it replaces, out of range it extends
    the array, the holes reading as [undefined] (here [hole]). *)
Fixpoint setAt {A : Type} (hole : A) (i : nat) (x : A) (a : list A) : list A :=
  match a, i with
  | [], O => [x]
  | [], Datatypes.S i' => hole :: setAt hole i' x []
  | _ :: a', O => x :: a'
  | y :: a', Datatypes.S i' => y :: setAt hole i' x a'
  end.

(** [L[i][j] = x]: a TypeError when [L[i]] is [undefined]. *)
Definition setEntry {S : Type} (i j : nat) (x : num) (L : list (list num))
  : M S (list (list num)) :=
  match nth_error L i with
  | None => throw
  | Some row => ret (setAt [] i (setAt NaN j x row) L)
  end.

(** Reading [L[i][j]] and [z[j]] in an arithmetic expression: [undefined]
    becomes [NaN]. *)
Definition entry (L : list (list num)) (i j : nat) : num :=
  nth j (nth i L []) NaN.

(* ================================================================== *)
(** * The correlated-vector generator *)
(* ================================================================== *)

Section GenerateMultivariateNormal.
Context {S : Type}.
Variable fuel : nat.
Variable n : nat.
Variables mean variance covariance : num.
Variable randomGenerator : M S num.

(** The covariance matrix the function builds first; nothing reads it. *)
Definition covMatrix : list (list num) :=
  map (fun i => map (fun j => if Nat.eqb i j then variance else covariance)
                    (seq 0 n))
      (seq 0 n).

(** The factor [L], filled in place. *)
Definition choleskyFactor : M S (list (list num)) :=
  let L := repeat (repeat (Fin 0) n) n in
  let sqrtVar := nsqrt variance in
  let sqrtCov := nsqrt (nmax (Fin 0) covariance) in
  L <- setEntry 0 0 sqrtVar L ;;
  foldM (fun L i =>
           L <- setEntry i 0 sqrtCov L ;;
           setEntry i i (nsqrt (nmax (Fin 0) (nsub variance covariance))) L)
        (seq 1 (n - 1)) L.

(** The loop that fills [z] with Box-Muller variates. *)
Definition drawNormals : M S (list num) :=
  foldM (fun z (_ : nat) =>
           u <- whileZero fuel randomGenerator (Fin 0) ;;
           v <- whileZero fuel randomGenerator (Fin 0) ;;
           ret (z ++ [boxMuller u v]))
        (seq 0 n) [].

(** [sum] after the inner loop [for (j = 0; j <= i; j++)]. *)
Definition rowSum (L : list (list num)) (z : list num) (i : nat) : num :=
  fold_left (fun sum j => nadd sum (nmul (entry L i j) (nth j z NaN)))
            (seq 0 (i + 1)) (Fin 0).

Definition transform (L : list (list num)) (z : list num) : list num :=
  fold_left (fun result i => result ++ [nadd mean (rowSum L z i)])
            (seq 0 n) [].

Definition generateMultivariateNormal : M S (list num) :=
  L <- choleskyFactor ;;
  z <- drawNormals ;;
  ret (transform L z).
End GenerateMultivariateNormal.

(* ================================================================== *)
(** * Metrics and downsampling *)
(* ================================================================== *)

Definition calculateRealizedVolatilityFromLogPrices (logPrices : list num) : num :=
  let logReturns :=
    map (fun i => nsub (nth i logPrices NaN) (nth (i - 1) logPrices NaN))
        (seq 1 (length logPrices - 1)) in
  let mean :=
    ndiv (fold_left (fun sum r => nadd sum r) logReturns (Fin 0))
         (of_nat (length logReturns)) in
  let variance :=
    ndiv (fold_left (fun sum r => nadd sum (npow (nsub r mean) (Fin 2)))
                    logReturns (Fin 0))
         (nsub (of_nat (length logReturns)) (Fin 1)) in
  let stdDev := nsqrt variance in
  nmul stdDev (nsqrt (Fin 252)).

(** The body of the [prices.map] callback that computes one effective
    trend. *)
Definition effectiveTrend (pricePath : list num) : num :=
  let totalReturn :=
    nsub (ndiv (nth (length pricePath - 1) pricePath NaN) (nth 0 pricePath NaN))
         (Fin 1) in
  let timeInYears := ndiv (nsub (of_nat (length pricePath)) (Fin 1)) (Fin 252) in
  nsub (npow (nadd (Fin 1) totalReturn) (ndiv (Fin 1) timeInYears)) (Fin 1).

(** [path[index]] for an integer index: [undefined] out of range. *)
Definition item {A : Type} (path : list A) (index : Z) : option A :=
  if (index <? 0)%Z then None else nth_error path (Z.to_nat index).

(** The position [Math.min(Math.floor(i * step), path.length - 1)] with
    [step = path.length / targetLength]; lengths and counters are integers,
    their quotient is taken exactly.  The code's product is a rounded
    double: where the exact product is an integer it can fall just below
    it, and the code's position is then one less than this one. *)
Definition sampleIndex (len targetLength i : Z) : Z :=
  let step := (inject_Z len / inject_Z targetLength)%Q in
  Z.min (Qfloor (inject_Z i * step)) (len - 1).

(** [samplePath].  The pushed element [path[index]] is always defined
    (lemma [sampleIndex_range] below); an undefined one would be dropped
    here. *)
Definition samplePath {A : Type} (path : list A) (targetLength : Z) : list A :=
  let len := Z.of_nat (length path) in
  if (len <=? targetLength)%Z then path
  else
    flat_map (fun i => match item path (sampleIndex len targetLength (Z.of_nat i)) with
                       | Some x => [x]
                       | None => []
                       end)
             (seq 0 (Z.to_nat targetLength)).

(** The quotient [N / t] of two integers, [t] positive, rounded to the
    nearest integer, ties to even: the rounding of IEEE arithmetic and of
    [np.round]. *)
Definition roundQuotient (N t : Z) : Z :=
  let f := (N / t)%Z in
  match (2 * (N mod t) ?= t)%Z with
  | Lt => f
  | Gt => (f + 1)%Z
  | Eq => if Z.even f then f else (f + 1)%Z
  end.

(** A nonnegative integer rounded to 53 significant bits: the numerator of
    the double nearest to a nonnegative number [N / 2^k]. *)
Definition roundToBits (N : Z) : Z :=
  let e := Z.max 0 (Z.log2 N - 52) in
  (roundQuotient N (2 ^ e) * 2 ^ e)%Z.

(** The same position as the code computes it, in double arithmetic, for
    [1 <= targetLength <= len] (below 2^53): [step] is the double nearest
    to the quotient, [stepBits / 2^k] with [2^52 <= stepBits <= 2^53]; the
    product [i * step] is rounded to a double in its turn, and floored. *)
Definition sampleIndexDouble (len targetLength i : Z) : Z :=
  let k := (52 - Z.log2 (len / targetLength))%Z in
  let stepBits := roundQuotient (len * 2 ^ k) targetLength in
  Z.min (roundToBits (i * stepBits) / 2 ^ k) (len - 1).

(** [samplePath] with the positions of the double computation. *)
Definition samplePathDouble {A : Type} (path : list A) (targetLength : Z) : list A :=
  let len := Z.of_nat (length path) in
  if (len <=? targetLength)%Z then path
  else
    flat_map (fun i => match item path (sampleIndexDouble len targetLength
                                                          (Z.of_nat i)) with
                       | Some x => [x]
                       | None => []
                       end)
             (seq 0 (Z.to_nat targetLength)).

(* ================================================================== *)
(** * The helpers the handler leaves unused *)
(* ================================================================== *)

(** [generateCorrelatedRandoms]: one common factor, then one idiosyncratic
    term per component, each drawn with [generateNormalRandom]. *)
Definition generateCorrelatedRandoms (fuel n : nat) (mean variance covariance : num)
  : M World (list num) :=
  z <- generateNormalRandom fuel ;;
  let commonFactor := nmul z (nsqrt covariance) in
  foldM (fun result (_ : nat) =>
           z' <- generateNormalRandom fuel ;;
           let idiosyncratic := nmul z' (nsqrt (nsub variance covariance)) in
           ret (result ++ [nadd (nadd mean commonFactor) idiosyncratic]))
        (seq 0 n) [].

(** [calculateRealizedVolatility], on prices: the divisor of the variance is
    the number of returns. *)
Definition calculateRealizedVolatility (prices : list num) : num :=
  let returns :=
    map (fun i => nlog (ndiv (nth i prices NaN) (nth (i - 1) prices NaN)))
        (seq 1 (length prices - 1)) in
  let mean :=
    ndiv (fold_left (fun sum r => nadd sum r) returns (Fin 0))
         (of_nat (length returns)) in
  let variance :=
    ndiv (fold_left (fun sum r => nadd sum (npow (nsub r mean) (Fin 2)))
                    returns (Fin 0))
         (of_nat (length returns)) in
  let stdDev := nsqrt variance in
  nmul stdDev (nsqrt (Fin 252)).

(** The log returns, their mean and their sum of squared deviations, on
    reals: what the two volatility functions compute when every
    intermediate value is a number. *)
Definition differences (ls : list R) : list R :=
  map (fun i => nth i ls 0 - nth (i - 1) ls 0) (seq 1 (length ls - 1)).

Definition average (rs : list R) : R := fold_left Rplus rs 0 / INR (length rs).

Definition squaredDeviations (rs : list R) : R :=
  fold_left (fun sum r => sum + (r - average rs) * (r - average rs)) rs 0.

(** The world after [k] more calls of [Math.random], and worlds whose
    draws all lie strictly between 0 and 1. *)
Definition advance (k : nat) (w : World) : World :=
  {| mathRandomDraws := mathRandomDraws w; mathRandomPos := k + mathRandomPos w |}.

Definition unitDraws (w : World) : Prop :=
  forall k, 0 < mathRandomDraws w k < 1.

(** Entry [(i, j)] of the product of an [n]-column matrix with its
    transpose. *)
Definition gram (L : list (list num)) (n i j : nat) : num :=
  fold_left (fun sum k => nadd sum (nmul (entry L i k) (entry L j k)))
            (seq 0 n) (Fin 0).

(* ================================================================== *)
(** * The handler *)
(* ================================================================== *)

Record SimulationParameters : Type := {
  randomSeed : Z;
  numSimulations : nat;
  numObservations : Z;
  numCurrencies : nat;
  basePrice : R;
  transactionFee : R;
  trendVariance : R;
  trendCovariance : R;
  baseVolatility : R;
  volatilityCovariance : R;
  extremeEventProbability : R;
  extremeEventVariance : R;
  extremeEventCovariance : R;
  extremeEventDuration : Z
}.

Record SimulationData : Type := {
  prices : list (list num);
  trends : list num;
  volatilities : list num;
  extremeEvent : bool;
  extremeEventIndex : option num;
  realizedVolatility : num;
  effectiveTrends : list num
}.

Record SimulationResult : Type := {
  simulations : list SimulationData;
  params : SimulationParameters
}.

Inductive Response : Type :=
| Json (results : SimulationResult)
| Error500.

Section Handler.
Variable fuel : nat.
Variable p : SimulationParameters.

(** [dt = 1 / 252]. *)
Definition dt : num := ndiv (Fin 1) (Fin 252).

(** One iteration of the loop over [t]: the new [pricePath] and
    [logPricePath]. *)
Definition priceStep (mu sigma : num) (extremeEvent : bool)
           (extremeEventStart : num) (shock : num)
           (paths : list num * list num) (t : nat)
  : M PostState (list num * list num) :=
  let '(pricePath, logPricePath) := paths in
  z <- seededNormalRandom fuel ;;
  let dW := nmul (nsqrt dt) z in
  let drift := nmul (nsub mu (nmul (nmul (Fin 0.5) sigma) sigma)) dt in
  let diffusion := nmul sigma dW in
  let logReturn := nadd drift diffusion in
  let logReturn :=
    if extremeEvent && nge (of_nat t) extremeEventStart
       && nlt (of_nat t) (nadd extremeEventStart (of_Z (extremeEventDuration p)))
    then
      let eventProgress :=
        ndiv (nsub (of_nat t) extremeEventStart) (of_Z (extremeEventDuration p)) in
      let decayFactor := nexp (nmul (Fin (-3)) eventProgress) in
      nadd logReturn (nmul (nmul shock decayFactor) dt)
    else logReturn in
  let newLogPrice := nadd (nth (t - 1) logPricePath NaN) logReturn in
  let newPrice := nexp newLogPrice in
  ret (pricePath ++ [nmax newPrice (Fin 0.01)], logPricePath ++ [newLogPrice]).

(** The full-resolution [pricePath] and [logPricePath] of currency [c]. *)
Definition pricePaths (trendComponents volatilityComponents : list num)
           (extremeEvent : bool) (extremeEventStart : num)
           (extremeEventShocks : list num) (c : nat)
  : M PostState (list num * list num) :=
  u <- seededRandom ;;
  let initialPrice := nmul (Fin (basePrice p)) (nadd (Fin 0.5) u) in
  let mu := nth c trendComponents NaN in
  let sigma := nth c volatilityComponents NaN in
  foldM (priceStep mu sigma extremeEvent extremeEventStart
                   (nth c extremeEventShocks NaN))
        (seq 1 (Z.to_nat (numObservations p) - 1))
        ([initialPrice], [nlog initialPrice]).

(** [Math.min(500, numObservations)]. *)
Definition sampleTarget : Z := Z.min 500 (numObservations p).

(** One iteration of the loop over [c]: the sampled paths are pushed on
    [prices] and [logPrices]. *)
Definition currencyStep (trendComponents volatilityComponents : list num)
           (extremeEvent : bool) (extremeEventStart : num)
           (extremeEventShocks : list num)
           (acc : list (list num) * list (list num)) (c : nat)
  : M PostState (list (list num) * list (list num)) :=
  '(pricePath, logPricePath) <-
     pricePaths trendComponents volatilityComponents extremeEvent
                extremeEventStart extremeEventShocks c ;;
  let sampledPath := samplePath pricePath sampleTarget in
  ret (fst acc ++ [sampledPath],
       snd acc ++ [samplePath logPricePath sampleTarget]).

(** The body of the loop over [sim]. *)
Definition simulation : M PostState SimulationData :=
  trendComponents <-
    generateMultivariateNormal fuel (numCurrencies p)
      (Fin 0) (Fin (trendVariance p)) (Fin (trendCovariance p))
      (seededNormalRandom fuel) ;;
  v <- generateMultivariateNormal fuel (numCurrencies p)
      (ndiv (Fin (baseVolatility p)) (Fin 100))
      (nmul (npow (ndiv (Fin (baseVolatility p)) (Fin 100)) (Fin 2)) (Fin 0.1))
      (ndiv (Fin (volatilityCovariance p)) (Fin 10000))
      (seededNormalRandom fuel) ;;
  let volatilityComponents := map nabs v in
  u <- seededRandom ;;
  let extremeEvent := nlt u (Fin (extremeEventProbability p)) in
  extremeEventStart <-
    (if extremeEvent
     then u' <- seededRandom ;;
          ret (nfloor (nmul u' (nsub (of_Z (numObservations p))
                                     (of_Z (extremeEventDuration p)))))
     else ret (Fin (-1))) ;;
  extremeEventShocks <-
    (if extremeEvent
     then generateMultivariateNormal fuel (numCurrencies p)
            (Fin (-0.1))
            (ndiv (Fin (extremeEventVariance p)) (Fin 10000))
            (ndiv (Fin (extremeEventCovariance p)) (Fin 10000))
            (seededNormalRandom fuel)
     else ret []) ;;
  '(prices, logPrices) <-
     foldM (currencyStep trendComponents volatilityComponents extremeEvent
                         extremeEventStart extremeEventShocks)
           (seq 0 (numCurrencies p)) ([], []) ;;
  logPrices0 <- match nth_error logPrices 0 with
                | Some l => ret l
                | None => throw
                end ;;
  let realizedVolatility :=
    nmul (calculateRealizedVolatilityFromLogPrices logPrices0) (Fin 100) in
  let effectiveTrends := map effectiveTrend prices in
  ret {| prices := prices;
         trends := trendComponents;
         volatilities := volatilityComponents;
         extremeEvent := extremeEvent;
         extremeEventIndex := if extremeEvent then Some extremeEventStart else None;
         realizedVolatility := realizedVolatility;
         effectiveTrends := effectiveTrends |}.

(** The loop over [sim], from [seedState = randomSeed]. *)
Definition runSimulations : M PostState (list SimulationData) :=
  foldM (fun sims (_ : nat) => d <- simulation ;; ret (sims ++ [d]))
        (seq 0 (numSimulations p)) [].

(** The handler: the JSON body on success, the 500 response when the
    [try] block throws.  [None]: out of fuel. *)
Definition POST (w : World) : option (Response * World) :=
  match runSimulations {| seedState := randomSeed p; world := w |} with
  | Ok sims st => Some (Json {| simulations := sims; params := p |}, world st)
  | Throw st => Some (Error500, world st)
  | Timeout => None
  end.
End Handler.

(* ================================================================== *)
(** * The Python engine of [src/lib/python-simulation.ts]

    The functions of the script that draw no random number.  A 1-D array
    is a list, a 2-D array the list of its rows together with its number
    of columns ([prices.shape[1]]); [None] stands for a raised
    exception. *)
(* ================================================================== *)

(** [np.power] on doubles, the [pow] of C: as [Math.pow] except that
    [pow(1, y)] is 1 for every [y] and [pow(-1, +-inf)] is 1. *)
Definition np_power (base exponent : num) : num :=
  match base, exponent with
  | Fin b, (PInf | NInf) =>
      if Reqb (Rabs b) 1 then Fin 1 else npow base exponent
  | Fin b, NaN => if Reqb b 1 then Fin 1 else NaN
  | _, _ => npow base exponent
  end.

(** [calculate_effective_trends]: [prices[:, -1]] raises [IndexError] on an
    array without columns. *)
Definition calculate_effective_trends (n_observations : nat)
           (prices : list (list num)) : option (list num) :=
  if Nat.eqb n_observations 0 then None
  else
    let time_in_years := ndiv (of_nat n_observations) (Fin (365 * 24 * 60)) in
    Some (map (fun row =>
                 let total_return :=
                   nsub (ndiv (nth (n_observations - 1) row NaN) (nth 0 row NaN))
                        (Fin 1) in
                 nsub (np_power (nadd (Fin 1) total_return)
                                (ndiv (Fin 1) time_in_years))
                      (Fin 1))
              prices).

(** [np.diff], [np.mean] and [np.std] (population standard deviation). *)
Definition np_diff (a : list num) : list num :=
  map (fun i => nsub (nth i a NaN) (nth (i - 1) a NaN)) (seq 1 (length a - 1)).

Definition np_mean (a : list num) : num :=
  ndiv (fold_left (fun sum x => nadd sum x) a (Fin 0)) (of_nat (length a)).

Definition np_std (a : list num) : num :=
  let arrmean := np_mean a in
  nsqrt (np_mean (map (fun x => nmul (nsub x arrmean) (nsub x arrmean)) a)).

(** [calculate_realized_volatility], on the price series of one asset. *)
Definition calculate_realized_volatility (prices : list num) : num :=
  let log_returns := np_diff (map nlog prices) in
  nmul (np_std log_returns) (nsqrt (Fin (365 * 24 * 60))).

(** The doubles of [downsample_prices], for
    [1 <= target_length < n_observations].  [step] is the double nearest
    to [n_observations / target_length], [stepBits / 2^k] as in
    [sampleIndexDouble].  [np.arange(0, n_observations, step)] holds
    [ceil(n_observations / step)] values, the quotient being rounded to a
    double before the ceiling ([arange_length]); its [i]-th value is the
    double product [i * step], which [np.round] takes to the nearest
    integer, ties to even ([rounded_index]). *)
Definition arange_length (n_observations target_length : Z) : Z :=
  let k := (52 - Z.log2 (n_observations / target_length))%Z in
  let stepBits := roundQuotient (n_observations * 2 ^ k) target_length in
  let s := (52 - Z.log2 (n_observations * 2 ^ k / stepBits))%Z in
  let quotientBits := roundQuotient (n_observations * 2 ^ k * 2 ^ s) stepBits in
  ((quotientBits + 2 ^ s - 1) / 2 ^ s)%Z.

Definition rounded_index (n_observations target_length i : Z) : Z :=
  let k := (52 - Z.log2 (n_observations / target_length))%Z in
  let stepBits := roundQuotient (n_observations * 2 ^ k) target_length in
  roundQuotient (roundToBits (i * stepBits)) (2 ^ k).

(** [a[index]] on a 1-D array: a negative index counts from the end, an
    index out of range raises [IndexError]; [a[indices]] and
    [prices[:, indices]]. *)
Definition np_item {A : Type} (a : list A) (index : Z) : option A :=
  let len := Z.of_nat (length a) in
  if (index <? 0)%Z
  then (if (index + len <? 0)%Z then None else nth_error a (Z.to_nat (index + len)))
  else nth_error a (Z.to_nat index).

Fixpoint np_take {A : Type} (a : list A) (indices : list Z) : option (list A) :=
  match indices with
  | [] => Some []
  | index :: rest =>
      match np_item a index, np_take a rest with
      | Some x, Some xs => Some (x :: xs)
      | _, _ => None
      end
  end.

Fixpoint np_take_columns {A : Type} (prices : list (list A)) (indices : list Z)
  : option (list (list A)) :=
  match prices with
  | [] => Some []
  | row :: rows =>
      match np_take row indices, np_take_columns rows indices with
      | Some r, Some rs => Some (r :: rs)
      | _, _ => None
      end
  end.

(** The array [indices] of [downsample_prices], after the filter.  With a
    negative target length the step is negative, the length of the range
    is not positive and the array is empty. *)
Definition downsample_indices (n_observations target_length : Z) : list Z :=
  if (target_length <? 0)%Z then []
  else
    let indices :=
      map (fun i => rounded_index n_observations target_length (Z.of_nat i))
          (seq 0 (Z.to_nat (arange_length n_observations target_length))) in
    filter (fun index => (index <? n_observations)%Z) indices.

(** [downsample_prices]; the division [n_observations / target_length]
    raises [ZeroDivisionError] when the target length is 0, and so does
    [np.arange] on the zero step of an array without columns. *)
Definition downsample_prices {A : Type} (n_observations : nat)
           (prices : list (list A)) (target_length : Z) : option (list (list A)) :=
  if (Z.of_nat n_observations <=? target_length)%Z then Some prices
  else if (target_length =? 0)%Z then None
  else if Nat.eqb n_observations 0 then None
  else np_take_columns prices
                       (downsample_indices (Z.of_nat n_observations) target_length).

(* ================================================================== *)
(** * Reference definitions

    The formulas of the specification, written from its words, for
    comparison with the functions above. *)
(* ================================================================== *)

(** Downsampler of the specification: positions [round(i * step)], those
    at or beyond the length discarded. *)
Definition roundHalfUp (q : Q) : Z := Qfloor (q + (1 # 2)).

Definition downsample_spec {A : Type} (series : list A) (targetLength : Z) : list A :=
  let len := Z.of_nat (length series) in
  if (len <=? targetLength)%Z then series
  else
    let step := (inject_Z len / inject_Z targetLength)%Q in
    flat_map (fun i =>
                let index := roundHalfUp (inject_Z (Z.of_nat i) * step) in
                if (index <? len)%Z
                then match item series index with Some x => [x] | None => [] end
                else [])
             (seq 0 (Z.to_nat targetLength)).

(** The position the code selects, [Math.floor(i * step)]. *)
Definition floorPosition (len targetLength i : Z) : Z :=
  Qfloor (inject_Z i * (inject_Z len / inject_Z targetLength)).









(** Effective trend of the specification:
    [(final / initial) ^ (1 / yearsElapsed) - 1] with
    [yearsElapsed = seriesLength / periodsPerYear]. *)
Definition effectiveTrend_spec (periodsPerYear : num) (series : list num) : num :=
  let final := nth (length series - 1) series NaN in
  let initial := nth 0 series NaN in
  let yearsElapsed := ndiv (of_nat (length series)) periodsPerYear in
  nsub (npow (ndiv final initial) (ndiv (Fin 1) yearsElapsed)) (Fin 1).

(** The same with the elapsed time counted in steps:
    [yearsElapsed = (seriesLength - 1) / 252]. *)
Definition effectiveTrend_steps (series : list num) : num :=
  let final := nth (length series - 1) series NaN in
  let initial := nth 0 series NaN in
  let yearsElapsed := ndiv (nsub (of_nat (length series)) (Fin 1)) (Fin 252) in
  nsub (npow (ndiv final initial) (ndiv (Fin 1) yearsElapsed)) (Fin 1).

(* ================================================================== *)
(** * Reasoning about the monad *)
(* ================================================================== *)

(** [returns m s Q]: from [s], [m] returns a value (no exception, enough
    fuel) and [Q] holds of the value and the final state. *)
Definition returns {S A : Type} (m : M S A) (s : S) (Q : A -> S -> Prop) : Prop :=
  exists a s', m s = Ok a s' /\ Q a s'.

(** [agree R m1 m2]: from [R]-related states, two computations that both
    finish finish alike, in [R]-related states. *)
Definition agree {S A : Type} (R : S -> S -> Prop) (m1 m2 : M S A) : Prop :=
  forall s1 s2, R s1 s2 ->
    match m1 s1, m2 s2 with
    | Ok a1 t1, Ok a2 t2 => a1 = a2 /\ R t1 t2
    | Throw t1, Throw t2 => R t1 t2
    | Timeout, _ | _, Timeout => True
    | _, _ => False
    end.

(** [frames f m]: [m] leaves the component [f] of the state alone. *)
Definition frames {S A X : Type} (f : S -> X) (m : M S A) : Prop :=
  forall s,
    match m s with
    | Ok _ t | Throw t => f t = f s
    | Timeout => True
    end.

Definition sameSeed (s1 s2 : PostState) : Prop := seedState s1 = seedState s2.

(** The value [seedState / 233280]. *)
Definition unit_of (s : Z) : R := IZR s / 233280.

(** The generator state after the loop [while (u === 0) u = seededRandom()]. *)
Definition nextNonzero (s : Z) : Z :=
  if (lcg s =? 0)%Z then lcg (lcg s) else lcg s.

(** The state after [k] calls of [seededRandom] from [seed]. *)
Definition stateAfter (seed : Z) (k : nat) : Z := Nat.iter k lcg seed.

(** The entries the code leaves in [L], in terms of its three square
    roots. *)
Definition entryOf {A : Type} (zero sqrtVar sqrtCov sqrtDiag : A) (i j : nat) : A :=
  if Nat.eqb j 0 then (if Nat.eqb i 0 then sqrtVar else sqrtCov)
  else if Nat.eqb j i then sqrtDiag
  else zero.

Definition factorEntry : num -> num -> num -> nat -> nat -> num :=
  entryOf (Fin 0).

(** The state of [L] once row 0 and the rows listed in [done] are filled. *)
Definition partialFactor (n : nat) (sqrtVar sqrtCov sqrtDiag : num)
           (done : list nat) (L : list (list num)) : Prop :=
  length L = n /\
  (forall i, (i < n)%nat -> length (nth i L []) = n) /\
  (forall i j, (i < n)%nat -> (j < n)%nat ->
     entry L i j =
     if Nat.eqb i 0 || existsb (Nat.eqb i) done
     then factorEntry sqrtVar sqrtCov sqrtDiag i j
     else Fin 0).

(** Row [i] of a lower-triangular product [L * z]: the entries of [L] are
    given by [l], the sum stops at the diagonal. *)
Definition lowerRow (l : nat -> nat -> num) (z : list num) (i : nat) : num :=
  fold_left (fun sum j => nadd sum (nmul (l i j) (nth j z NaN)))
            (seq 0 (i + 1)) (Fin 0).

(** Sum of the reals [f j] for [j] in a list of indices. *)
Definition sumR (f : nat -> R) (l : list nat) : R :=
  fold_right (fun j acc => f j + acc) 0 l.

(** The value of row [i] of [L * z], for finite [z], whether the sum stops
    at the diagonal (as the code does) or runs over the whole row. *)
Definition rowValue (a b c : R) (rs : list R) (i : nat) : R :=
  if Nat.eqb i 0 then a * nth 0 rs 0 else b * nth 0 rs 0 + c * nth i rs 0.

(** A world whose [Math.random] always answers 0, for the examples. *)
Definition idleWorld : World :=
  {| mathRandomDraws := fun _ => 0; mathRandomPos := 0 |}.


(** The states at which [Math.cos(2.0 * Math.PI * v)] is exactly zero in
    real arithmetic: [v] is a quarter or three quarters, up to sign. *)
Definition isQuarter (b : Z) : bool :=
  (Z.abs b =? 58320)%Z || (Z.abs b =? 174960)%Z.

(** What the handler's loops maintain on its state: the world is [w], and
    the generator state stays nonnegative when the seed is. *)
Definition stInv (w : World) (seed : Z) (st : PostState) : Prop :=
  world st = w /\ (0 <= seed -> 0 <= seedState st)%Z.

(** A value pushed on [pricePath] by the loop over [t]:
    [Math.max(Math.exp(newLogPrice), 0.01)]. *)
Definition floored (x : num) : Prop :=
  exists newLogPrice, x = nmax (nexp newLogPrice) (Fin 0.01).

(** The shape of a full-resolution [pricePath]: the initial price
    [basePrice * (0.5 + u)] for a draw [u], then one floored price per
    step. *)
Definition fullPath (p : SimulationParameters) (path : list num) : Prop :=
  exists u rest,
    path = Fin (basePrice p * (0.5 + u)) :: rest /\
    -1 < u < 1 /\ ((0 <= randomSeed p)%Z -> 0 <= u) /\
    length rest = (Z.to_nat (numObservations p) - 1)%nat /\
    Forall floored rest.

(** The inputs of the path loops of a record are numbers: finite trend and
    volatility vectors, no extreme event, a nonnegative seed and a positive
    base price. *)
Definition finiteInputs (p : SimulationParameters) (run : SimulationData) : Prop :=
  Forall is_finite (trends run) /\ Forall is_finite (volatilities run) /\
  extremeEvent run = false /\ (0 <= randomSeed p)%Z /\ 0 < basePrice p.

(** The shape of one record of [simulations]: which full-resolution paths
    it was computed from, and how. *)
Definition run_shape (p : SimulationParameters) (run : SimulationData) : Prop :=
  (exists fulls logs,
      length fulls = numCurrencies p /\ length logs = numCurrencies p /\
      Forall (fullPath p) fulls /\
      Forall (fun l => length l = Datatypes.S (Z.to_nat (numObservations p) - 1)) logs /\
      prices run = map (fun path => samplePath path (sampleTarget p)) fulls /\
      realizedVolatility run =
      nmul (calculateRealizedVolatilityFromLogPrices
              (samplePath (nth 0 logs []) (sampleTarget p))) (Fin 100) /\
      (finiteInputs p run -> Forall (Forall is_finite) fulls) /\
      (forall c, nth c (trends run) NaN = NaN ->
                 Forall (fun x => x = NaN) (tl (nth c fulls [])))) /\
  effectiveTrends run = map effectiveTrend (prices run) /\
  length (trends run) = numCurrencies p /\
  length (volatilities run) = numCurrencies p /\
  (if extremeEvent run
   then exists u,
       -1 < u < 1 /\ ((0 <= randomSeed p)%Z -> 0 <= u) /\
       extremeEventIndex run =
       Some (nfloor (nmul (Fin u) (nsub (of_Z (numObservations p))
                                        (of_Z (extremeEventDuration p)))))
   else extremeEventIndex run = None).

(** Parameter records for the examples: the defaults of the dashboard's
    form scaled down, then a tiny base price, then 501 observations. *)
Definition exampleParams : SimulationParameters :=
  {| randomSeed := 42;
     numSimulations := 2;
     numObservations := 10;
     numCurrencies := 3;
     basePrice := 100;
     transactionFee := 0.0006;
     trendVariance := 0.000144;
     trendCovariance := 0.000049;
     baseVolatility := 3;
     volatilityCovariance := 1.75;
     extremeEventProbability := 0.05;
     extremeEventVariance := 500;
     extremeEventCovariance := 450;
     extremeEventDuration := 2 |}.

Definition tinyPriceParams : SimulationParameters :=
  {| randomSeed := 42;
     numSimulations := 1;
     numObservations := 10;
     numCurrencies := 1;
     basePrice := 0.001;
     transactionFee := 0.0006;
     trendVariance := 0.000144;
     trendCovariance := 0.000049;
     baseVolatility := 3;
     volatilityCovariance := 1.75;
     extremeEventProbability := 0.05;
     extremeEventVariance := 500;
     extremeEventCovariance := 450;
     extremeEventDuration := 2 |}.


(** The example scenario of the specification: three assets, covariance
    equal to variance, seed 42. *)
Definition correlatedParams : SimulationParameters :=
  {| randomSeed := 42;
     numSimulations := 1;
     numObservations := 10;
     numCurrencies := 3;
     basePrice := 100;
     transactionFee := 0.0006;
     trendVariance := 0.000144;
     trendCovariance := 0.000144;
     baseVolatility := 3;
     volatilityCovariance := 1.75;
     extremeEventProbability := 0.05;
     extremeEventVariance := 500;
     extremeEventCovariance := 450;
     extremeEventDuration := 2 |}.

(** Two observations of one asset with a tiny base price, seed 16. *)
Definition twoPointParams : SimulationParameters :=
  {| randomSeed := 16;
     numSimulations := 1;
     numObservations := 2;
     numCurrencies := 1;
     basePrice := 0.001;
     transactionFee := 0.0006;
     trendVariance := 0.000144;
     trendCovariance := 0.000049;
     baseVolatility := 3;
     volatilityCovariance := 1.75;
     extremeEventProbability := 0.05;
     extremeEventVariance := 500;
     extremeEventCovariance := 450;
     extremeEventDuration := 1 |}.

(** What a record keeps of the draws of its simulation: the volatilities
    are absolute values, and the event flag compares a uniform draw [u]
    with the event probability. *)
Definition run_draws (p : SimulationParameters) (run : SimulationData) : Prop :=
  (exists v, volatilities run = map nabs v) /\
  (exists u,
      -1 < u < 1 /\ ((0 <= randomSeed p)%Z -> 0 <= u) /\
      extremeEvent run = nlt (Fin u) (Fin (extremeEventProbability p))).

(** The request [p] with another seed. *)
Definition withSeed (p : SimulationParameters) (seed : Z) : SimulationParameters :=
  {| randomSeed := seed;
     numSimulations := numSimulations p;
     numObservations := numObservations p;
     numCurrencies := numCurrencies p;
     basePrice := basePrice p;
     transactionFee := transactionFee p;
     trendVariance := trendVariance p;
     trendCovariance := trendCovariance p;
     baseVolatility := baseVolatility p;
     volatilityCovariance := volatilityCovariance p;
     extremeEventProbability := extremeEventProbability p;
     extremeEventVariance := extremeEventVariance p;
     extremeEventCovariance := extremeEventCovariance p;
     extremeEventDuration := extremeEventDuration p |}.

(** The list of records of an answer, if it has one. *)
Definition simulationsOf (resp : Response) : option (list SimulationData) :=
  match resp with
  | Json r => Some (simulations r)
  | Error500 => None
  end.

(** Two handler states from which the next generator state is the same. *)
Definition sameNext (s1 s2 : PostState) : Prop :=
  lcg (seedState s1) = lcg (seedState s2).

(** Affine maps [x -> (a * x + c) mod 233280], their composition and their
    powers by repeated squaring, to iterate the generator step. *)
Definition applyAffine (f : Z * Z) (x : Z) : Z := ((fst f * x + snd f) mod 233280)%Z.

Definition composeAffine (f g : Z * Z) : Z * Z :=
  ((fst f * fst g) mod 233280, (fst f * snd g + snd f) mod 233280)%Z.

Fixpoint powerAffine (f : Z * Z) (k : positive) : Z * Z :=
  match k with
  | xH => f
  | xO k' => let g := powerAffine f k' in composeAffine g g
  | xI k' => let g := powerAffine f k' in composeAffine f (composeAffine g g)
  end.

(** A request whose extreme event is certain and lasts longer than the
    series. *)
Definition longEventParams : SimulationParameters :=
  {| randomSeed := 42;
     numSimulations := 2;
     numObservations := 3;
     numCurrencies := 1;
     basePrice := 100;
     transactionFee := 0.0006;
     trendVariance := 0.000144;
     trendCovariance := 0.000049;
     baseVolatility := 3;
     volatilityCovariance := 1.75;
     extremeEventProbability := 1;
     extremeEventVariance := 500;
     extremeEventCovariance := 450;
     extremeEventDuration := 5 |}.

(* ================================================================== *)
(** * Properties *)
(* ================================================================== *)

(** ** The downsampler *)

Lemma floorPosition_div (len targetLength i : Z) :
  (0 < targetLength)%Z ->
  floorPosition len targetLength i = (i * len / targetLength)%Z.
Proof.
  intros Ht. unfold floorPosition.
  destruct targetLength as [|t|t]; try lia.
  unfold Qdiv, Qinv, Qmult, inject_Z, Qfloor. simpl.
  now rewrite Z.mul_1_r.
Qed.

Lemma floorPosition_range (len targetLength i : Z) :
  (0 < targetLength < len)%Z -> (0 <= i < targetLength)%Z ->
  (0 <= floorPosition len targetLength i < len)%Z.
Proof.
  intros Ht Hi. rewrite floorPosition_div by lia. split.
  - apply Z.div_pos; nia.
  - apply Z.div_lt_upper_bound; nia.
Qed.

Lemma floorPosition_increasing (len targetLength i : Z) :
  (0 < targetLength < len)%Z -> (0 <= i)%Z ->
  (floorPosition len targetLength i < floorPosition len targetLength (i + 1))%Z.
Proof.
  intros Ht Hi. rewrite !floorPosition_div by lia.
  assert (H : (i * len / targetLength + 1 <= (i + 1) * len / targetLength)%Z).
  { rewrite <- (Z.div_add (i * len) 1 targetLength) by lia.
    apply Z.div_le_mono; nia. }
  lia.
Qed.

Lemma sampleIndex_floor (len targetLength i : Z) :
  (0 < targetLength < len)%Z -> (0 <= i < targetLength)%Z ->
  sampleIndex len targetLength i = floorPosition len targetLength i.
Proof.
  intros Ht Hi. unfold sampleIndex. fold (floorPosition len targetLength i).
  pose proof (floorPosition_range Ht Hi). lia.
Qed.

(** The index pushed by the loop is always inside the path. *)
Lemma sampleIndex_range (len targetLength i : Z) :
  (0 < targetLength < len)%Z -> (0 <= i < targetLength)%Z ->
  (0 <= sampleIndex len targetLength i < len)%Z.
Proof.
  intros Ht Hi. rewrite sampleIndex_floor by assumption.
  now apply floorPosition_range.
Qed.

Lemma item_nth_error {A : Type} (path : list A) (index : Z) :
  (0 <= index)%Z -> item path index = nth_error path (Z.to_nat index).
Proof.
  intros H. unfold item. destruct (Z.ltb_spec index 0); [lia | reflexivity].
Qed.

Lemma samplePath_short {A : Type} (path : list A) (targetLength : Z) :
  (Z.of_nat (length path) <= targetLength)%Z ->
  samplePath path targetLength = path.
Proof.
  intros H. unfold samplePath.
  destruct (Z.leb_spec (Z.of_nat (length path)) targetLength); [reflexivity | lia].
Qed.

(** Above the target length the result lists the elements at the floor
    positions, one per [i]. *)
Lemma samplePath_long {A : Type} (d : A) (path : list A) (targetLength : Z) :
  (0 < targetLength < Z.of_nat (length path))%Z ->
  samplePath path targetLength =
  map (fun i => nth (Z.to_nat (floorPosition (Z.of_nat (length path)) targetLength
                                             (Z.of_nat i))) path d)
      (seq 0 (Z.to_nat targetLength)).
Proof.
  intros Ht. unfold samplePath.
  destruct (Z.leb_spec (Z.of_nat (length path)) targetLength); [lia |].
  assert (Hall : forall i, In i (seq 0 (Z.to_nat targetLength)) ->
                           (0 <= Z.of_nat i < targetLength)%Z).
  { intros i Hi. apply in_seq in Hi. lia. }
  induction (seq 0 (Z.to_nat targetLength)) as [|i l IH]; [reflexivity |].
  cbn [flat_map map].
  pose proof (Hall i (or_introl eq_refl)) as Hi.
  rewrite sampleIndex_floor by assumption.
  pose proof (floorPosition_range Ht Hi) as Hr.
  rewrite item_nth_error by lia.
  rewrite (nth_error_nth' path d) by lia.
  cbn [app]. f_equal. apply IH. intros j Hj. apply Hall. now right.
Qed.

(** ** The position in double arithmetic *)

Lemma roundQuotient_error (N t : Z) :
  (0 < t -> - t <= 2 * (roundQuotient N t * t - N) <= t)%Z.
Proof.
  intros Ht. unfold roundQuotient.
  pose proof (Z.div_mod N t ltac:(lia)) as E.
  pose proof (Z.mod_pos_bound N t Ht) as Hr.
  destruct (Z.compare_spec (2 * (N mod t)) t) as [C | C | C];
    try destruct (Z.even (N / t)); nia.
Qed.

Lemma roundQuotient_one (N : Z) : roundQuotient N 1 = N.
Proof.
  unfold roundQuotient. rewrite Z.mod_1_r, Z.div_1_r. reflexivity.
Qed.

(** Rounding to 53 bits moves a number by at most 2^-53 of itself. *)
Lemma roundToBits_error (N : Z) :
  (0 <= N -> - N <= 2 ^ 53 * (roundToBits N - N) <= N)%Z.
Proof.
  intros HN. unfold roundToBits.
  destruct (Z.max_spec 0 (Z.log2 N - 52)) as [[Hlt ->] | [Hge ->]].
  - assert (Hpos : (0 < N)%Z).
    { destruct (Z.eq_dec N 0) as [-> | ]; [simpl in Hlt; lia | lia]. }
    pose proof (Z.log2_spec N Hpos) as [Hlow _].
    set (e := (Z.log2 N - 52)%Z) in *.
    assert (HE : (0 < 2 ^ e)%Z) by (apply Z.pow_pos_nonneg; lia).
    assert (Hsplit : (2 ^ Z.log2 N = 2 ^ e * 2 ^ 52)%Z).
    { rewrite <- Z.pow_add_r by lia. f_equal. unfold e. lia. }
    pose proof (roundQuotient_error N HE) as Herr.
    change (2 ^ 53)%Z with (2 * 2 ^ 52)%Z.
    nia.
  - rewrite Z.pow_0_r, roundQuotient_one. lia.
Qed.

(** The step [len / t] as a double [stepBits / 2^k]: its exponent leaves
    room, it is within half a unit of [len * 2^k / t], and it holds 53
    bits. *)
Lemma stepBits_spec (len t : Z) :
  (1 <= t < len -> len * t < 2 ^ 50 ->
   let k := 52 - Z.log2 (len / t) in
   let stepBits := roundQuotient (len * 2 ^ k) t in
   0 < 2 ^ k /\ 2 ^ 52 * t <= len * 2 ^ k /\
   - t <= 2 * (stepBits * t - len * 2 ^ k) <= t /\ 2 ^ 52 <= stepBits)%Z.
Proof.
  intros Ht Hsize. cbv zeta.
  assert (Hquot : (1 <= len / t)%Z) by (apply Z.div_le_lower_bound; lia).
  pose proof (Z.log2_spec (len / t) ltac:(lia)) as [Hlow Hhigh].
  pose proof (Z.log2_nonneg (len / t)) as HL0.
  set (L := Z.log2 (len / t)) in *.
  assert (Hlen : (2 ^ L * t <= len)%Z).
  { pose proof (Z.mul_div_le len t ltac:(lia)). nia. }
  assert (HL : (L < 50)%Z).
  { apply (Z.pow_lt_mono_r_iff 2); [lia | lia |].
    assert (0 < 2 ^ L)%Z by (apply Z.pow_pos_nonneg; lia). nia. }
  set (k := (52 - L)%Z).
  assert (HK : (0 < 2 ^ k)%Z) by (apply Z.pow_pos_nonneg; lia).
  assert (HLK : (2 ^ L * 2 ^ k = 2 ^ 52)%Z).
  { rewrite <- Z.pow_add_r by lia. f_equal. unfold k. lia. }
  set (K := (2 ^ k)%Z) in *. set (TL := (2 ^ L)%Z) in *.
  assert (HKlen : (2 ^ 52 * t <= len * K)%Z) by nia.
  pose proof (@roundQuotient_error (len * K) t ltac:(lia)) as Hm.
  repeat split; try lia. nia.
Qed.

(** The double product [i * step], [roundToBits (i * stepBits) / 2^k],
    against the exact product [i * len / t]: they differ by less than
    [1 / (2 * t)]. *)
Lemma product_error (len t i K stepBits : Z) :
  (1 <= t < len -> len * t < 2 ^ 50 -> 0 < K -> 2 ^ 52 * t <= len * K ->
   - t <= 2 * (stepBits * t - len * K) <= t -> 0 <= i <= t ->
   - K < 2 * (roundToBits (i * stepBits) * t - i * len * K) < K)%Z.
Proof.
  intros Ht Hsize HK HKlen Hm Hi.
  assert (Hm0 : (0 <= stepBits)%Z) by nia.
  pose proof (@roundToBits_error (i * stepBits) ltac:(nia)) as HN.
  set (N' := roundToBits (i * stepBits)) in *.
  assert (H1 : (- (2 * i * len * K + i * t)
                <= 2 ^ 54 * ((N' - i * stepBits) * t)
                <= 2 * i * len * K + i * t)%Z).
  { change (2 ^ 54)%Z with (2 * 2 ^ 53)%Z. nia. }
  assert (H2 : (- (2 ^ 53 * (i * t))
                <= 2 ^ 54 * (i * (stepBits * t - len * K))
                <= 2 ^ 53 * (i * t))%Z).
  { change (2 ^ 54)%Z with (2 ^ 53 * 2)%Z. nia. }
  assert (H3 : (2 * i * len * K <= 2 ^ 51 * K)%Z).
  { change (2 ^ 51)%Z with (2 * 2 ^ 50)%Z. nia. }
  assert (H4 : (2 ^ 52 * (i * t) <= 2 ^ 50 * K)%Z).
  { assert (i * t <= t * t)%Z by nia.
    assert (2 ^ 52 * (t * t) <= len * t * K)%Z by nia.
    nia. }
  assert (E : (N' * t - i * len * K =
               (N' - i * stepBits) * t + i * (stepBits * t - len * K))%Z) by ring.
  change (2 ^ 53)%Z with (2 * 2 ^ 52)%Z in H2.
  change (2 ^ 51)%Z with (2 * 2 ^ 50)%Z in H3.
  change (2 ^ 54)%Z with (16 * 2 ^ 50)%Z in H1, H2.
  change (2 ^ 52)%Z with (4 * 2 ^ 50)%Z in H2, H4.
  nia.
Qed.

(** The position of the double computation against the exact one: the
    floor of the double product is the exact floor unless the exact
    product is an integer, where it is that integer or the one before. *)
Lemma sampleIndexDouble_quotient (len t i : Z) :
  (1 <= t < len -> len * t < 2 ^ 50 -> 0 <= i < t ->
   (i * len / t - 1 <= sampleIndexDouble len t i <= i * len / t) /\
   ((i * len) mod t <> 0 \/ i = 0 -> sampleIndexDouble len t i = i * len / t))%Z.
Proof.
  intros Ht Hsize Hi. unfold sampleIndexDouble. cbv zeta.
  destruct (stepBits_spec Ht Hsize) as (HK & HKlen & Hm & _).
  set (K := (2 ^ (52 - Z.log2 (len / t)))%Z) in *.
  set (m := roundQuotient (len * K) t) in *.
  pose proof (@product_error len t i K m Ht Hsize HK HKlen Hm ltac:(lia)) as Hd.
  set (N' := roundToBits (i * m)) in *.
  pose proof (Z.div_mod (i * len) t ltac:(lia)) as Eq.
  pose proof (Z.mod_pos_bound (i * len) t ltac:(lia)) as Hr.
  set (q := (i * len / t)%Z) in *. set (r := ((i * len) mod t)%Z) in *.
  assert (Hq : (q <= len - 2)%Z).
  { unfold q. assert (i * len / t < len - 1)%Z; [| lia].
    apply Z.div_lt_upper_bound; nia. }
  assert (Hband : (q - 1 <= N' / K <= q)%Z /\
                  ((r <> 0 \/ i = 0)%Z -> (N' / K = q)%Z)).
  { destruct (Z.eq_dec r 0) as [Hr0 | Hr0].
    - split.
      + split.
        * apply Z.div_le_lower_bound; nia.
        * assert (N' / K < q + 1)%Z; [| lia].
          apply Z.div_lt_upper_bound; nia.
      + intros [Hne | ->]; [contradiction |].
        assert (EN : N' = 0%Z).
        { unfold N'. rewrite Z.mul_0_l. reflexivity. }
        rewrite EN. unfold q. rewrite Z.mul_0_l. reflexivity.
    - assert (E : (N' / K = q)%Z).
      { symmetry. apply (Z.div_unique N' K q (N' - K * q)); [| ring].
        left. nia. }
      split; [lia | intros _; exact E]. }
  destruct Hband as [Hb He].
  rewrite Z.min_l by lia. split; [exact Hb | exact He].
Qed.

Lemma sampleIndexDouble_band (len t i : Z) :
  (1 <= t < len -> len * t < 2 ^ 50 -> 0 <= i < t ->
   (floorPosition len t i - 1 <= sampleIndexDouble len t i
      <= floorPosition len t i) /\
   ((i * len) mod t <> 0 \/ i = 0 ->
    sampleIndexDouble len t i = floorPosition len t i))%Z.
Proof.
  intros Ht Hsize Hi. rewrite floorPosition_div by lia.
  now apply sampleIndexDouble_quotient.
Qed.

Lemma sampleIndexDouble_range (len t i : Z) :
  (1 <= t < len -> len * t < 2 ^ 50 -> 0 <= i < t ->
   0 <= sampleIndexDouble len t i < len)%Z.
Proof.
  intros Ht Hsize Hi.
  destruct (sampleIndexDouble_band Ht Hsize Hi) as [Hb He].
  pose proof (@floorPosition_range len t i ltac:(lia) Hi) as Hr.
  destruct (Z.eq_dec i 0) as [E | E].
  - rewrite He by now right. lia.
  - assert (H1 : (1 <= floorPosition len t i)%Z).
    { rewrite floorPosition_div by lia. apply Z.div_le_lower_bound; nia. }
    lia.
Qed.

Lemma sampleIndexDouble_increasing (len t i : Z) :
  (1 <= t < len -> len * t < 2 ^ 50 -> 0 <= i -> i + 1 < t ->
   sampleIndexDouble len t i < sampleIndexDouble len t (i + 1))%Z.
Proof.
  intros Ht Hsize Hi Hi1.
  destruct (@sampleIndexDouble_quotient len t i Ht Hsize ltac:(lia)) as [Hb _].
  destruct (@sampleIndexDouble_quotient len t (i + 1) Ht Hsize ltac:(lia))
    as [Hb' He'].
  pose proof (Z.div_mod (i * len) t ltac:(lia)) as E.
  pose proof (Z.mod_pos_bound (i * len) t ltac:(lia)) as Hr.
  pose proof (Z.div_mod ((i + 1) * len) t ltac:(lia)) as E'.
  pose proof (Z.mod_pos_bound ((i + 1) * len) t ltac:(lia)) as Hr'.
  destruct (Z.eq_dec (((i + 1) * len) mod t) 0) as [H0 | H0].
  - assert ((i * len / t + 2 <= (i + 1) * len / t)%Z); [| lia].
    rewrite H0 in E'. nia.
  - rewrite He' by now left.
    assert ((i * len / t + 1 <= (i + 1) * len / t)%Z); [| lia].
    nia.
Qed.

Lemma samplePathDouble_short {A : Type} (path : list A) (targetLength : Z) :
  (Z.of_nat (length path) <= targetLength)%Z ->
  samplePathDouble path targetLength = path.
Proof.
  intros H. unfold samplePathDouble.
  destruct (Z.leb_spec (Z.of_nat (length path)) targetLength); [reflexivity | lia].
Qed.

Lemma samplePathDouble_long {A : Type} (d : A) (path : list A) (targetLength : Z) :
  (1 <= targetLength < Z.of_nat (length path))%Z ->
  (Z.of_nat (length path) * targetLength < 2 ^ 50)%Z ->
  samplePathDouble path targetLength =
  map (fun i => nth (Z.to_nat (sampleIndexDouble (Z.of_nat (length path))
                                                 targetLength (Z.of_nat i)))
                    path d)
      (seq 0 (Z.to_nat targetLength)).
Proof.
  intros Ht Hsize. unfold samplePathDouble.
  destruct (Z.leb_spec (Z.of_nat (length path)) targetLength); [lia |].
  assert (Hall : forall i, In i (seq 0 (Z.to_nat targetLength)) ->
                           (0 <= Z.of_nat i < targetLength)%Z).
  { intros i Hi. apply in_seq in Hi. lia. }
  induction (seq 0 (Z.to_nat targetLength)) as [|i l IH]; [reflexivity |].
  cbn [flat_map map].
  pose proof (Hall i (or_introl eq_refl)) as Hi.
  pose proof (sampleIndexDouble_range Ht Hsize Hi) as Hr.
  rewrite item_nth_error by lia.
  rewrite (nth_error_nth' path d) by lia.
  cbn [app]. f_equal. apply IH. intros j Hj. apply Hall. now right.
Qed.

(** C3 (amended).  For every series and every [targetLength >= 1] (of
    sizes with [len * targetLength < 2^50]): a series no longer than
    [targetLength] is returned unchanged; a longer one yields exactly
    [targetLength] elements, the [i]-th being the element at the position
    [Math.floor(i * step)] with [step = len / targetLength], computed in
    doubles.  That position is [floor(i * len / targetLength)] whenever the
    exact product is not an integer (and for [i = 0]); where
    [targetLength] divides [i * len] the double product may fall just
    below the integer, so the position is that integer or the one before.
    The positions are strictly increasing and all below the length, so
    none is discarded.  The series of the exact computation, [samplePath],
    has the same length and the exact floors for positions. *)
Theorem samplePath_floor_positions :
  forall (A : Type) (path : list A) (targetLength : Z),
    (1 <= targetLength)%Z ->
    (Z.of_nat (length path) * targetLength < 2 ^ 50)%Z ->
    (Z.of_nat (length path) <= targetLength ->
     samplePathDouble path targetLength = path /\
     samplePath path targetLength = path)%Z /\
    (targetLength < Z.of_nat (length path) ->
     length (samplePathDouble path targetLength) = Z.to_nat targetLength /\
     length (samplePath path targetLength) = Z.to_nat targetLength /\
     forall i, 0 <= i < targetLength ->
       let position := sampleIndexDouble (Z.of_nat (length path)) targetLength in
       let exact := floorPosition (Z.of_nat (length path)) targetLength in
       nth_error (samplePathDouble path targetLength) (Z.to_nat i) =
       nth_error path (Z.to_nat (position i)) /\
       nth_error (samplePath path targetLength) (Z.to_nat i) =
       nth_error path (Z.to_nat (exact i)) /\
       0 <= position i < Z.of_nat (length path) /\
       exact i - 1 <= position i <= exact i /\
       ((i * Z.of_nat (length path)) mod targetLength <> 0 \/ i = 0 ->
        position i = exact i) /\
       (i + 1 < targetLength -> position i < position (i + 1)))%Z.
Proof.
  intros A path targetLength Ht Hsize. split.
  - intros Hlen. split; [now apply samplePathDouble_short | now apply samplePath_short].
  - intros Hlen.
    destruct path as [|d path']; [simpl in Hlen; lia |].
    set (path := d :: path') in *.
    rewrite (samplePath_long d) by lia.
    rewrite (samplePathDouble_long d) by lia.
    split; [now rewrite length_map, length_seq |].
    split; [now rewrite length_map, length_seq |].
    intros i Hi. cbv zeta.
    pose proof (@floorPosition_range (Z.of_nat (length path)) targetLength i
                  ltac:(lia) Hi) as Hr.
    pose proof (@sampleIndexDouble_range (Z.of_nat (length path)) targetLength i
                  ltac:(lia) Hsize Hi) as Hr'.
    destruct (@sampleIndexDouble_band (Z.of_nat (length path)) targetLength i
                ltac:(lia) Hsize Hi) as [Hb He].
    assert (Hnth : forall f : Z -> Z,
               (0 <= f i < Z.of_nat (length path))%Z ->
               nth_error (map (fun j => nth (Z.to_nat (f (Z.of_nat j))) path d)
                              (seq 0 (Z.to_nat targetLength))) (Z.to_nat i) =
               nth_error path (Z.to_nat (f i))).
    { intros f Hf. rewrite nth_error_map, nth_error_seq.
      destruct (Nat.ltb_spec (Z.to_nat i) (Z.to_nat targetLength)); [| lia].
      cbn [option_map Nat.add]. rewrite Z2Nat.id by lia.
      symmetry. apply nth_error_nth'. lia. }
    split; [now apply (Hnth (sampleIndexDouble (Z.of_nat (length path)) targetLength)) |].
    split; [now apply (Hnth (floorPosition (Z.of_nat (length path)) targetLength)) |].
    split; [exact Hr' |]. split; [exact Hb |]. split; [exact He |].
    intros Hi1. apply sampleIndexDouble_increasing; lia.
Qed.

Lemma samplePath_floor_positions_witness :
  (1 <= 3)%Z /\ (Z.of_nat (length [10; 20; 30; 40; 50]%Z) * 3 < 2 ^ 50)%Z /\
  length (samplePathDouble [10; 20; 30; 40; 50]%Z 3) = 3%nat.
Proof.
  assert (H1 : (1 <= 3)%Z) by lia.
  assert (H2 : (Z.of_nat (length [10; 20; 30; 40; 50]%Z) * 3 < 2 ^ 50)%Z)
    by (simpl; lia).
  split; [exact H1 |]. split; [exact H2 |].
  apply (proj2 (samplePath_floor_positions [10; 20; 30; 40; 50]%Z H1 H2)).
  simpl. lia.
Defined.

(** C3 as stated fails: on a series of five elements and a target of three
    the code keeps positions 0, 1, 3 (floors of 0, 5/3, 10/3) where the
    rounded positions are 0, 2, 3.  And the double product does fall below
    an integer the exact product reaches: of 30 elements and a target of
    22 the code keeps position 14 for [i = 11], the exact floor is 15. *)
Lemma samplePath_not_rounded :
  samplePathDouble [0; 1; 2; 3; 4]%Z 3 = [0; 1; 3]%Z /\
  samplePath [0; 1; 2; 3; 4]%Z 3 = [0; 1; 3]%Z /\
  downsample_spec [0; 1; 2; 3; 4]%Z 3 = [0; 2; 3]%Z /\
  samplePathDouble [0; 1; 2; 3; 4]%Z 3 <> downsample_spec [0; 1; 2; 3; 4]%Z 3 /\
  sampleIndexDouble 30 22 11 = 14%Z /\ floorPosition 30 22 11 = 15%Z.
Proof.
  repeat split; try reflexivity. vm_compute. discriminate.
Qed.

Lemma sampleTarget_pos (p : SimulationParameters) :
  (1 <= numObservations p)%Z -> (1 <= sampleTarget p)%Z.
Proof. unfold sampleTarget. lia. Qed.

Lemma samplePath_hd {A : Type} (path : list A) (targetLength : Z) :
  (1 <= targetLength)%Z ->
  hd_error (samplePath path targetLength) = hd_error path.
Proof.
  intros Ht.
  destruct (Z.le_gt_cases (Z.of_nat (length path)) targetLength) as [Hle | Hgt].
  - now rewrite samplePath_short.
  - destruct path as [|d path']; [simpl in Hgt; lia |].
    rewrite (samplePath_long d) by lia.
    destruct (Z.to_nat targetLength) as [|k] eqn:Hk; [lia |].
    cbn [seq map hd_error].
    rewrite floorPosition_div by lia. reflexivity.
Qed.

(** ** The seeded generator *)

Lemma lcg_range (s : Z) : (0 <= s -> 0 <= lcg s < 233280)%Z.
Proof. intros H. unfold lcg. apply Z.rem_bound_pos; lia. Qed.

Lemma lcg_abs (s : Z) : (- 233280 < lcg s < 233280)%Z.
Proof.
  unfold lcg.
  pose proof (Z.rem_bound_abs (s * 9301 + 49297) 233280). lia.
Qed.

Lemma nextNonzero_neq_0 (s : Z) : nextNonzero s <> 0%Z.
Proof.
  unfold nextNonzero. destruct (Z.eqb_spec (lcg s) 0) as [E | E]; [| exact E].
  rewrite E. vm_compute. discriminate.
Qed.

Lemma nextNonzero_abs (s : Z) : (- 233280 < nextNonzero s < 233280)%Z.
Proof. unfold nextNonzero. destruct (lcg s =? 0)%Z; apply lcg_abs. Qed.

Lemma nextNonzero_range (s : Z) : (0 <= s -> 0 < nextNonzero s < 233280)%Z.
Proof.
  intros H. pose proof (nextNonzero_neq_0 s) as Hne.
  assert (0 <= nextNonzero s < 233280)%Z; [| lia].
  unfold nextNonzero. destruct (lcg s =? 0)%Z.
  - apply lcg_range. now apply lcg_range.
  - now apply lcg_range.
Qed.

Lemma stateAfter_range (seed : Z) (k : nat) :
  (0 <= seed -> 0 <= stateAfter seed k)%Z.
Proof.
  intros H. induction k as [|k IH]; [exact H |].
  unfold stateAfter in *. cbn [Nat.iter]. now apply lcg_range.
Qed.

Lemma Reqb_true (x y : R) : x = y -> Reqb x y = true.
Proof. intros H. unfold Reqb. destruct (Req_dec_T x y); [reflexivity | contradiction]. Qed.

Lemma Reqb_false (x y : R) : x <> y -> Reqb x y = false.
Proof. intros H. unfold Reqb. destruct (Req_dec_T x y); [contradiction | reflexivity]. Qed.

Lemma Rltb_true (x y : R) : x < y -> Rltb x y = true.
Proof. intros H. unfold Rltb. destruct (Rlt_dec x y); [reflexivity | contradiction]. Qed.

Lemma Rltb_false (x y : R) : y <= x -> Rltb x y = false.
Proof. intros H. unfold Rltb. destruct (Rlt_dec x y); [lra | reflexivity]. Qed.

Lemma ndiv_Fin (a b : R) : b <> 0 -> ndiv (Fin a) (Fin b) = Fin (a / b).
Proof. intros H. unfold ndiv. now rewrite Reqb_false. Qed.

Lemma unit_of_abs (s : Z) : (- 233280 < s < 233280)%Z -> -1 < unit_of s < 1.
Proof.
  intros [H1 H2]. apply IZR_lt in H1, H2. unfold unit_of. split; lra.
Qed.

Lemma unit_of_range (s : Z) : (0 <= s < 233280)%Z -> 0 <= unit_of s < 1.
Proof.
  intros [H1 H2]. apply IZR_le in H1. apply IZR_lt in H2. unfold unit_of.
  split; lra.
Qed.

Lemma unit_of_pos (s : Z) : (0 < s < 233280)%Z -> / 233280 <= unit_of s < 1.
Proof.
  intros [H1 H2]. assert (H3 : (1 <= s)%Z) by lia.
  apply IZR_le in H3. apply IZR_lt in H2. unfold unit_of. split; lra.
Qed.

Lemma unit_of_eq_0 (s : Z) : unit_of s = 0 -> s = 0%Z.
Proof.
  unfold unit_of. intros H. apply eq_IZR. lra.
Qed.

Lemma seededRandom_eq (st : PostState) :
  seededRandom st =
  Ok (Fin (unit_of (lcg (seedState st))))
     {| seedState := lcg (seedState st); world := world st |}.
Proof.
  unfold seededRandom, of_Z. cbn [seedState].
  rewrite ndiv_Fin by lra. reflexivity.
Qed.

Lemma neq_unit_of (s : Z) : neq (Fin (unit_of s)) (Fin 0) = (s =? 0)%Z.
Proof.
  cbn [neq]. destruct (Z.eqb_spec s 0) as [E | E].
  - subst. apply Reqb_true. unfold unit_of. lra.
  - apply Reqb_false. intros H. now apply unit_of_eq_0 in H.
Qed.

(** The loop [while (u === 0) u = seededRandom()] draws once or twice. *)
Lemma whileZero_seededRandom (fuel : nat) (st : PostState) :
  (2 <= fuel)%nat ->
  whileZero fuel seededRandom (Fin 0) st =
  Ok (Fin (unit_of (nextNonzero (seedState st))))
     {| seedState := nextNonzero (seedState st); world := world st |}.
Proof.
  intros Hf. destruct fuel as [|[|fuel]]; try lia.
  cbn [whileZero]. cbn [neq]. rewrite Reqb_true by reflexivity.
  unfold bind at 1. rewrite seededRandom_eq.
  unfold nextNonzero.
  cbn [whileZero]. rewrite neq_unit_of.
  destruct (Z.eqb_spec (lcg (seedState st)) 0) as [E | E].
  - unfold bind. rewrite seededRandom_eq. cbn [seedState world].
    destruct fuel; cbn [whileZero]; rewrite neq_unit_of;
      (destruct (Z.eqb_spec (lcg (lcg (seedState st))) 0) as [E' | E'];
       [ exfalso; rewrite E in E'; vm_compute in E'; discriminate
       | reflexivity ]).
  - reflexivity.
Qed.

Lemma seededNormalRandom_eq (fuel : nat) (st : PostState) :
  (2 <= fuel)%nat ->
  seededNormalRandom fuel st =
  Ok (boxMuller (Fin (unit_of (nextNonzero (seedState st))))
                (Fin (unit_of (nextNonzero (nextNonzero (seedState st))))))
     {| seedState := nextNonzero (nextNonzero (seedState st));
        world := world st |}.
Proof.
  intros Hf. unfold seededNormalRandom, bind.
  rewrite whileZero_seededRandom by assumption.
  rewrite whileZero_seededRandom by assumption.
  reflexivity.
Qed.

Lemma ln_neg (u : R) : 0 < u < 1 -> ln u < 0.
Proof. intros [H0 H1]. rewrite <- ln_1. now apply ln_increasing. Qed.

(** On a first input in (0,1) and a finite second input the Box-Muller
    expression is the finite real it denotes. *)
Lemma boxMuller_unit (u v : R) :
  0 < u < 1 ->
  boxMuller (Fin u) (Fin v) = Fin (sqrt (-2 * ln u) * cos (2 * PI * v)).
Proof.
  intros Hu. pose proof (ln_neg Hu) as Hln.
  unfold boxMuller. cbn [nlog].
  rewrite Rltb_false by lra. rewrite Reqb_false by lra.
  cbn [nmul nsqrt]. rewrite Rltb_false by lra.
  reflexivity.
Qed.

(** A negative first input gives [NaN]. *)
Lemma boxMuller_negative (u : R) (v : num) :
  u < 0 -> boxMuller (Fin u) v = NaN.
Proof.
  intros Hu. unfold boxMuller. cbn [nlog]. rewrite Rltb_true by lra.
  reflexivity.
Qed.




(** The step in double arithmetic.  Below 2^53 an integer is a double, so
    at an [exactStep] state the code's step is [lcg]; every state in
    (-233280, 233280) is one. *)
Lemma roundToDouble_exact (z : Z) :
  (Z.abs z < 2 ^ 53)%Z -> roundToDouble z = Some z.
Proof.
  intros H. unfold roundToDouble.
  destruct (Z.ltb_spec (Z.abs z) (2 ^ 53)); [reflexivity | lia].
Qed.

Lemma lcgDouble_exact (s : Z) : exactStep s -> lcgDouble s = Some (lcg s).
Proof.
  intros [Hlow Hhigh]. unfold lcgDouble.
  rewrite roundToDouble_exact by lia.
  rewrite roundToDouble_exact by lia.
  reflexivity.
Qed.

Lemma exactStep_range (s : Z) : (- 233280 < s < 233280)%Z -> exactStep s.
Proof. intros H. unfold exactStep. lia. Qed.

Lemma roundToDouble_nonneg (z m : Z) :
  (0 <= z)%Z -> roundToDouble z = Some m -> (0 <= m)%Z.
Proof.
  intros Hz. unfold roundToDouble.
  destruct (Z.ltb_spec (Z.abs z) (2 ^ 53)) as [_ | Hbig].
  - intros E. injection E as <-. exact Hz.
  - cbv zeta.
    set (a := Z.abs z) in *. set (e := (Z.log2 a - 52)%Z).
    assert (He : (0 < 2 ^ e)%Z).
    { apply Z.pow_pos_nonneg; [lia |].
      assert (53 <= Z.log2 a)%Z; [| unfold e; lia].
      change 53%Z with (Z.log2 (2 ^ 53)). apply Z.log2_le_mono. exact Hbig. }
    assert (Hq : (0 <= a / 2 ^ e)%Z) by (apply Z.div_pos; lia).
    set (q' := if (a mod 2 ^ e <? 2 ^ (e - 1))%Z then (a / 2 ^ e)%Z
               else if (2 ^ (e - 1) <? a mod 2 ^ e)%Z then (a / 2 ^ e + 1)%Z
               else if Z.even (a / 2 ^ e) then (a / 2 ^ e)%Z
                    else (a / 2 ^ e + 1)%Z).
    assert (Hq' : (0 <= q')%Z).
    { unfold q'. destruct (a mod 2 ^ e <? 2 ^ (e - 1))%Z; [exact Hq |].
      destruct (2 ^ (e - 1) <? a mod 2 ^ e)%Z; [lia |].
      destruct (Z.even (a / 2 ^ e)); lia. }
    destruct (2 ^ 1024 <=? q' * 2 ^ e)%Z; [discriminate |].
    intros E. injection E as <-.
    assert (0 <= Z.sgn z)%Z by lia. nia.
Qed.

(** From a nonnegative state, a step that does not overflow lands in
    [0, 233280), exact or not; the steps that follow are exact. *)
Lemma lcgDouble_range (s s1 : Z) :
  (0 <= s)%Z -> lcgDouble s = Some s1 -> (0 <= s1 < 233280)%Z /\ exactStep s1.
Proof.
  intros Hs. unfold lcgDouble.
  destruct (roundToDouble (s * 9301)) as [product |] eqn:Ep; [| discriminate].
  destruct (roundToDouble (product + 49297)) as [sum |] eqn:Es; [| discriminate].
  intros E. injection E as <-.
  apply roundToDouble_nonneg in Ep; [| lia].
  apply roundToDouble_nonneg in Es; [| lia].
  assert (H : (0 <= Z.rem sum 233280 < 233280)%Z) by (apply Z.rem_bound_pos; lia).
  split; [exact H | apply exactStep_range; lia].
Qed.

(** Beyond the exact range the code's first state is a rounded one: at the
    seed 933120000000042, congruent to 42 modulo 233280, it is 206016
    where the exact step gives 206659, the state after seed 42. *)
Lemma lcgDouble_rounds :
  lcgDouble 933120000000042 = Some 206016%Z /\
  lcg 933120000000042 = 206659%Z /\ lcg 42 = 206659%Z.
Proof. repeat split; vm_compute; reflexivity. Qed.





(** The invariant of C9 needs the nonnegative seed: from a negative one the
    truncated remainder leaves a negative state and a negative draw. *)
Lemma negative_seed_negative_state :
  lcg (-6) = (-6509)%Z /\ unit_of (lcg (-6)) < 0.
Proof.
  split; [reflexivity |].
  replace (lcg (-6)) with (-6509)%Z by reflexivity. unfold unit_of. lra.
Qed.

(** ** Generic facts on the monad and on arrays *)

Lemma returns_ret {S A : Type} (a : A) (s : S) (Q : A -> S -> Prop) :
  Q a s -> returns (ret a) s Q.
Proof. intros H. now exists a, s. Qed.

Lemma returns_bind {S A B : Type} (m : M S A) (k : A -> M S B) (s : S)
      (Q : B -> S -> Prop) :
  returns m s (fun a s' => returns (k a) s' Q) -> returns (bind m k) s Q.
Proof.
  intros (a & s' & Hm & b & s'' & Hk & HQ).
  exists b, s''. unfold bind. rewrite Hm. now split.
Qed.

Lemma returns_weaken {S A : Type} (m : M S A) (s : S) (P Q : A -> S -> Prop) :
  returns m s P -> (forall a s', P a s' -> Q a s') -> returns m s Q.
Proof.
  intros (a & s' & Hm & HP) H. exists a, s'. split; [exact Hm | now apply H].
Qed.

Lemma returns_eq {S A : Type} (m : M S A) (s : S) (a : A) (s' : S)
      (Q : A -> S -> Prop) :
  m s = Ok a s' -> Q a s' -> returns m s Q.
Proof. intros Hm HQ. now exists a, s'. Qed.

(** The invariant rule of a [for] loop: [Inv done acc s] speaks of the
    elements already visited. *)
Lemma returns_foldM {S A B : Type} (body : B -> A -> M S B)
      (Inv : list A -> B -> S -> Prop) (xs : list A) :
  forall (done : list A) (acc : B) (s : S),
    Inv done acc s ->
    (forall done' x acc' s',
        (exists rest, done ++ xs = done' ++ x :: rest) ->
        Inv done' acc' s' ->
        returns (body acc' x) s' (Inv (done' ++ [x]))) ->
    returns (foldM body xs acc) s (Inv (done ++ xs)).
Proof.
  induction xs as [|x xs IH]; intros done acc s H0 Hstep.
  - rewrite app_nil_r. now apply returns_ret.
  - cbn [foldM]. apply returns_bind.
    eapply returns_weaken.
    + apply (Hstep done x acc s); [now exists xs | exact H0].
    + intros acc' s' H1. cbn beta.
      replace (done ++ x :: xs) with ((done ++ [x]) ++ xs)
        by (now rewrite <- app_assoc).
      apply IH; [exact H1 |].
      intros done' y acc'' s'' [rest Hrest] H2.
      apply Hstep; [| exact H2].
      exists rest. rewrite <- Hrest. now rewrite <- app_assoc.
Qed.

Lemma fold_left_push {A B : Type} (f : A -> B) (l : list A) (acc : list B) :
  fold_left (fun result i => result ++ [f i]) l acc = acc ++ map f l.
Proof.
  revert acc. induction l as [|x l IH]; intros acc; cbn [fold_left map].
  - now rewrite app_nil_r.
  - rewrite IH. now rewrite <- app_assoc.
Qed.

Lemma fold_left_ext_in {A B : Type} (f g : B -> A -> B) (l : list A) (b : B) :
  (forall x acc, In x l -> f acc x = g acc x) ->
  fold_left f l b = fold_left g l b.
Proof.
  revert b. induction l as [|x l IH]; intros b H; [reflexivity |].
  cbn [fold_left]. rewrite H by now left.
  apply IH. intros y acc Hy. apply H. now right.
Qed.

Lemma length_setAt {A : Type} (hole x : A) (a : list A) (i : nat) :
  (i < length a)%nat -> length (setAt hole i x a) = length a.
Proof.
  revert i. induction a as [|y a IH]; intros i Hi; [simpl in Hi; lia |].
  destruct i as [|i]; cbn [setAt length]; [reflexivity |].
  rewrite IH; [reflexivity | simpl in Hi; lia].
Qed.

Lemma nth_setAt {A : Type} (hole x d : A) (a : list A) (i k : nat) :
  (i < length a)%nat ->
  nth k (setAt hole i x a) d = if Nat.eqb k i then x else nth k a d.
Proof.
  revert i k. induction a as [|y a IH]; intros i k Hi; [simpl in Hi; lia |].
  destruct i as [|i], k as [|k]; cbn [setAt nth Nat.eqb]; try reflexivity.
  apply IH. simpl in Hi. lia.
Qed.

(** ** The factor [L] *)

Section Factor.
Context {S : Type}.
Variable n : nat.
Variables variance covariance : num.

Local Abbreviation sqrtVar := (nsqrt variance).
Local Abbreviation sqrtCov := (nsqrt (nmax (Fin 0) covariance)).
Local Abbreviation sqrtDiag := (nsqrt (nmax (Fin 0) (nsub variance covariance))).

Lemma setEntry_in_range (i j : nat) (x : num) (L : list (list num)) (s : S) :
  length L = n -> (forall i, (i < n)%nat -> length (nth i L []) = n) ->
  (i < n)%nat -> (j < n)%nat ->
  exists L',
    setEntry i j x L s = Ok L' s /\
    length L' = n /\
    (forall i', (i' < n)%nat -> length (nth i' L' []) = n) /\
    (forall i' j', entry L' i' j' =
                   if Nat.eqb i' i && Nat.eqb j' j then x else entry L i' j').
Proof.
  intros HL Hrows Hi Hj. unfold setEntry.
  destruct (nth_error L i) as [row |] eqn:Hrow.
  2: { apply nth_error_None in Hrow. lia. }
  assert (Hnth : nth i L [] = row) by now apply nth_error_nth.
  assert (Hlen : length row = n) by (rewrite <- Hnth; now apply Hrows).
  eexists. split; [reflexivity |].
  split; [rewrite length_setAt; lia |].
  split.
  - intros i' Hi'. rewrite nth_setAt by lia.
    destruct (Nat.eqb i' i); [rewrite length_setAt; lia | now apply Hrows].
  - intros i' j'. unfold entry. rewrite nth_setAt by lia.
    destruct (Nat.eqb_spec i' i) as [-> |]; cbn [andb]; [| reflexivity].
    rewrite nth_setAt by lia. rewrite Hnth. reflexivity.
Qed.

Lemma choleskyFactor_returns (s : S) :
  (1 <= n)%nat ->
  returns (choleskyFactor n variance covariance) s
          (fun L s' => s' = s /\
                       forall i j, (i < n)%nat -> (j < n)%nat ->
                         entry L i j = factorEntry sqrtVar sqrtCov sqrtDiag i j).
Proof.
  intros Hn. unfold choleskyFactor. apply returns_bind.
  assert (H0 : length (repeat (repeat (Fin 0) n) n) = n) by apply repeat_length.
  assert (H0r : forall i, (i < n)%nat ->
                          length (nth i (repeat (repeat (Fin 0) n) n) []) = n).
  { intros i Hi. rewrite nth_repeat_lt by lia. apply repeat_length. }
  destruct (@setEntry_in_range 0 0 sqrtVar _ s H0 H0r ltac:(lia) ltac:(lia))
    as (L1 & E1 & HL1 & Hr1 & He1).
  eapply returns_eq; [exact E1 |].
  eapply returns_weaken.
  - apply (returns_foldM
             (fun L i =>
                L <- setEntry i 0 sqrtCov L ;; setEntry i i sqrtDiag L)
             (fun done L s' =>
                s' = s /\ partialFactor n sqrtVar sqrtCov sqrtDiag done L)
             (seq 1 (n - 1)) []).
    + split; [reflexivity |]. split; [exact HL1 |]. split; [exact Hr1 |].
      intros i j Hi Hj. rewrite He1. cbn [existsb orb].
      unfold entry. rewrite !nth_repeat_lt by lia.
      unfold factorEntry, entryOf.
      destruct (Nat.eqb_spec i 0) as [-> |]; cbn [andb orb].
      * destruct (Nat.eqb_spec j 0) as [-> |]; [reflexivity |].
        destruct (Nat.eqb_spec j 0); [lia | reflexivity].
      * reflexivity.
    + intros done x L s' [rest Hrest] [-> (HL & Hr & He)].
      assert (Hx : (1 <= x < n)%nat).
      { assert (Hin : In x (seq 1 (n - 1))).
        { cbn [app] in Hrest. rewrite Hrest. apply in_or_app. right. now left. }
        apply in_seq in Hin. lia. }
      apply returns_bind.
      destruct (@setEntry_in_range x 0 sqrtCov L s HL Hr ltac:(lia) ltac:(lia))
        as (L2 & E2 & HL2 & Hr2 & He2).
      eapply returns_eq; [exact E2 |].
      destruct (@setEntry_in_range x x sqrtDiag L2 s HL2 Hr2 ltac:(lia) ltac:(lia))
        as (L3 & E3 & HL3 & Hr3 & He3).
      eapply returns_eq; [exact E3 |].
      split; [reflexivity |]. split; [exact HL3 |]. split; [exact Hr3 |].
      intros i j Hi Hj. rewrite He3, He2, He by assumption.
      rewrite existsb_app. cbn [existsb]. rewrite Bool.orb_false_r.
      unfold factorEntry, entryOf.
      destruct (Nat.eqb_spec i x) as [-> |]; cbn [andb].
      * destruct (Nat.eqb_spec x 0); [lia |].
        rewrite !Bool.orb_true_r.
        destruct (Nat.eqb_spec j x) as [-> |].
        -- destruct (Nat.eqb_spec x 0); [lia | reflexivity].
        -- destruct (Nat.eqb_spec j 0) as [-> |]; [reflexivity |].
           destruct (existsb (Nat.eqb x) done); reflexivity.
      * rewrite Bool.orb_false_r. reflexivity.
  - cbn beta. intros L s' [-> (_ & _ & He)]. split; [reflexivity |].
    intros i j Hi Hj. rewrite He by assumption. cbn [app].
    destruct (Nat.eqb_spec i 0) as [-> |]; [reflexivity |].
    cbn [orb].
    assert (Hex : existsb (Nat.eqb i) (seq 1 (n - 1)) = true).
    { apply existsb_exists. exists i. split; [apply in_seq; lia |].
      apply Nat.eqb_refl. }
    now rewrite Hex.
Qed.
End Factor.

(** ** Row sums *)

Lemma sumR_zero (f : nat -> R) (l : list nat) :
  (forall j, In j l -> f j = 0) -> sumR f l = 0.
Proof.
  induction l as [|x l IH]; intros H; [reflexivity |].
  cbn [sumR fold_right]. fold (sumR f l).
  rewrite H by now left. rewrite IH; [lra |].
  intros j Hj. apply H. now right.
Qed.

Lemma sumR_ext_in (f g : nat -> R) (l : list nat) :
  (forall j, In j l -> f j = g j) -> sumR f l = sumR g l.
Proof.
  induction l as [|x l IH]; intros H; [reflexivity |].
  cbn [sumR fold_right]. fold (sumR f l) (sumR g l).
  rewrite H by now left. rewrite IH; [reflexivity |].
  intros j Hj. apply H. now right.
Qed.

Lemma sumR_single (f : nat -> R) (k m a : nat) :
  (a <= k < a + m)%nat -> (forall j, j <> k -> f j = 0) ->
  sumR f (seq a m) = f k.
Proof.
  revert a. induction m as [|m IH]; intros a Hk Hz; [lia |].
  cbn [seq sumR fold_right]. fold (sumR f (seq (S a) m)).
  destruct (Nat.eq_dec a k) as [-> | Hne].
  - rewrite sumR_zero; [lra |].
    intros j Hj. apply in_seq in Hj. apply Hz. lia.
  - rewrite Hz by exact Hne. rewrite IH; [lra | lia | exact Hz].
Qed.

Lemma sumR_two_points (f : nat -> R) (i m : nat) :
  (i < m)%nat -> (forall j, j <> 0%nat -> j <> i -> f j = 0) ->
  sumR f (seq 0 m) = if Nat.eqb i 0 then f 0%nat else f 0%nat + f i.
Proof.
  intros Hi Hz. destruct m as [|m]; [lia |].
  cbn [seq sumR fold_right]. fold (sumR f (seq 1 m)).
  destruct (Nat.eqb_spec i 0) as [-> | Hne].
  - rewrite sumR_zero; [lra |].
    intros j Hj. apply in_seq in Hj. apply Hz; lia.
  - set (g := fun j => if Nat.eqb j 0 then 0 else f j).
    assert (Hg : sumR f (seq 1 m) = sumR g (seq 1 m)).
    { apply sumR_ext_in. intros j Hj. apply in_seq in Hj. unfold g.
      destruct (Nat.eqb_spec j 0); [lia | reflexivity]. }
    rewrite Hg. rewrite (@sumR_single g i m 1).
    2: lia.
    2: { intros j Hj. unfold g.
         destruct (Nat.eqb_spec j 0); [reflexivity | now apply Hz]. }
    unfold g. destruct (Nat.eqb_spec i 0); [lia | reflexivity].
Qed.

Lemma fold_left_Fin (g r : nat -> R) (l : list nat) (a : R) :
  fold_left (fun sum j => nadd sum (nmul (Fin (g j)) (Fin (r j)))) l (Fin a) =
  Fin (a + sumR (fun j => g j * r j) l).
Proof.
  revert a. induction l as [|x l IH]; intros a.
  - cbn [fold_left sumR fold_right]. f_equal. lra.
  - cbn [fold_left nadd nmul]. rewrite IH.
    cbn [sumR fold_right]. f_equal. fold (sumR (fun j => g j * r j) l). lra.
Qed.



Lemma finite_list (zs : list num) :
  Forall is_finite zs -> exists rs, zs = map Fin rs.
Proof.
  induction 1 as [|z zs Hz _ [rs ->]]; [now exists [] |].
  destruct z as [| | |r]; try contradiction. now exists (r :: rs).
Qed.

Lemma nth_map_Fin (rs : list R) (j : nat) :
  (j < length rs)%nat -> nth j (map Fin rs) NaN = Fin (nth j rs 0).
Proof.
  intros Hj. rewrite (nth_indep _ NaN (Fin 0)) by now rewrite length_map.
  apply map_nth.
Qed.

Lemma entryOf_Fin (a b c : R) (i j : nat) :
  entryOf (Fin 0) (Fin a) (Fin b) (Fin c) i j = Fin (entryOf 0 a b c i j).
Proof.
  unfold entryOf.
  destruct (Nat.eqb j 0); [destruct (Nat.eqb i 0); reflexivity |].
  destruct (Nat.eqb j i); reflexivity.
Qed.

Lemma entryOf_off (a b c : R) (i j : nat) :
  j <> 0%nat -> j <> i -> entryOf 0 a b c i j = 0.
Proof.
  intros H0 Hi. unfold entryOf.
  destruct (Nat.eqb_spec j 0); [contradiction |].
  destruct (Nat.eqb_spec j i); [contradiction | reflexivity].
Qed.

Lemma sumR_row (a b c : R) (rs : list R) (i m : nat) :
  (i < m)%nat ->
  sumR (fun j => entryOf 0 a b c i j * nth j rs 0) (seq 0 m) = rowValue a b c rs i.
Proof.
  intros Hi. rewrite (@sumR_two_points _ i m Hi).
  - unfold rowValue, entryOf. cbn [Nat.eqb].
    destruct (Nat.eqb_spec i 0) as [-> | Hne]; [reflexivity |].
    destruct (Nat.eqb_spec i 0); [contradiction |].
    rewrite Nat.eqb_refl. reflexivity.
  - intros j H0 Hji. rewrite entryOf_off by assumption. lra.
Qed.

Lemma lowerRow_finite (a b c : R) (rs : list R) (i : nat) :
  (i < length rs)%nat ->
  lowerRow (entryOf (Fin 0) (Fin a) (Fin b) (Fin c)) (map Fin rs) i =
  Fin (rowValue a b c rs i).
Proof.
  intros Hi. unfold lowerRow.
  rewrite (fold_left_ext_in _
             (fun sum j => nadd sum (nmul (Fin (entryOf 0 a b c i j))
                                          (Fin (nth j rs 0))))).
  - rewrite fold_left_Fin. rewrite sumR_row by lia. f_equal. lra.
  - intros j acc Hj. apply in_seq in Hj.
    rewrite entryOf_Fin, nth_map_Fin by lia. reflexivity.
Qed.


(** ** The correlated-vector generator *)

Lemma bind_Ok_inv {S A B : Type} (m : M S A) (k : A -> M S B) (s s'' : S) (b : B) :
  bind m k s = Ok b s'' -> exists a s', m s = Ok a s' /\ k a s' = Ok b s''.
Proof.
  unfold bind. destruct (m s) as [a s' | |]; try discriminate.
  intros H. now exists a, s'.
Qed.

Lemma foldM_push_length {S A X : Type} (body : list A -> X -> M S (list A))
      (l : list X) :
  (forall z i s z' s', body z i s = Ok z' s' -> length z' = Datatypes.S (length z)) ->
  forall (acc zs : list A) (s s' : S),
    foldM body l acc s = Ok zs s' -> length zs = (length acc + length l)%nat.
Proof.
  intros Hbody. induction l as [|i l IH]; intros acc zs s s' H.
  - cbn [foldM] in H. unfold ret in H. injection H as <- _. simpl. lia.
  - cbn [foldM] in H. apply bind_Ok_inv in H as (acc' & s1 & H1 & H2).
    apply Hbody in H1. apply IH in H2. rewrite H2, H1. simpl. lia.
Qed.

Lemma drawNormals_length {S : Type} (fuel n : nat) (gen : M S num)
      (s s' : S) (zs : list num) :
  drawNormals fuel n gen s = Ok zs s' -> length zs = n.
Proof.
  unfold drawNormals. intros H.
  apply foldM_push_length in H; [now rewrite length_seq in H |].
  clear. intros z i s z' s' H.
  apply bind_Ok_inv in H as (u & s1 & _ & H).
  apply bind_Ok_inv in H as (v & s2 & _ & H).
  unfold ret in H. injection H as <- _. rewrite length_app. simpl. lia.
Qed.

(** The result in terms of the entries of [L]: component [i] is [mean] plus
    row [i] of the lower-triangular product. *)
Lemma generateMultivariateNormal_rows {S : Type} (fuel n : nat)
      (mean variance covariance : num) (gen : M S num) (s s' : S) (zs : list num) :
  (1 <= n)%nat ->
  drawNormals fuel n gen s = Ok zs s' ->
  generateMultivariateNormal fuel n mean variance covariance gen s =
  Ok (map (fun i =>
             nadd mean
                  (lowerRow (factorEntry
                               (nsqrt variance)
                               (nsqrt (nmax (Fin 0) covariance))
                               (nsqrt (nmax (Fin 0) (nsub variance covariance))))
                            zs i))
          (seq 0 n)) s'.
Proof.
  intros Hn Hz. unfold generateMultivariateNormal.
  destruct (@choleskyFactor_returns S n variance covariance s Hn)
    as (L & s0 & HL & -> & He).
  unfold bind. rewrite HL, Hz. unfold ret. f_equal.
  unfold transform. rewrite fold_left_push. cbn [app].
  apply map_ext_in. intros i Hi. apply in_seq in Hi. f_equal.
  unfold rowSum, lowerRow. apply fold_left_ext_in.
  intros j acc Hj. apply in_seq in Hj. rewrite He by lia. reflexivity.
Qed.


Lemma nsqrt_Fin (x : R) : 0 <= x -> nsqrt (Fin x) = Fin (sqrt x).
Proof. intros H. cbn [nsqrt]. now rewrite Rltb_false. Qed.


Lemma map_const_repeat {A B : Type} (c : B) (l : list A) :
  map (fun _ => c) l = repeat c (length l).
Proof. induction l as [|x l IH]; [reflexivity |]. cbn. now rewrite IH. Qed.


(** With [covariance = variance] and finite Box-Muller draws [zs] every
    component of the result is [mean + sqrt(variance) * zs[0]]: the diagonal
    term [sqrt(max(0, variance - covariance)) * zs[i]] vanishes. *)
Lemma generateMultivariateNormal_equal_components :
  forall (S : Type) (fuel n : nat) (mean : num) (variance : R)
         (randomGenerator : M S num) (s s' : S) (zs : list num),
    (1 <= n)%nat -> 0 <= variance ->
    drawNormals fuel n randomGenerator s = Ok zs s' ->
    Forall is_finite zs ->
    generateMultivariateNormal fuel n mean (Fin variance) (Fin variance)
                               randomGenerator s =
    Ok (repeat (nadd mean (nmul (nsqrt (Fin variance)) (nth 0 zs NaN))) n) s' /\
    nsqrt (nmax (Fin 0) (nsub (Fin variance) (Fin variance))) = Fin 0.
Proof.
  intros S fuel n mean variance gen s s' zs Hn Hv Hz Hfin.
  pose proof (drawNormals_length _ _ _ _ Hz) as Hlen.
  assert (Hd : nsqrt (nmax (Fin 0) (nsub (Fin variance) (Fin variance))) = Fin 0).
  { cbn [nsub flip nadd nmax]. rewrite nsqrt_Fin by apply Rmax_l.
    replace (variance + - variance) with 0 by lra.
    rewrite Rmax_left by lra. now rewrite sqrt_0. }
  split; [| exact Hd].
  rewrite (@generateMultivariateNormal_rows _ _ _ mean (Fin variance)
             (Fin variance) _ _ _ _ Hn Hz).
  destruct (finite_list Hfin) as [rs ->]. rewrite length_map in Hlen.
  f_equal.
  transitivity (map (fun _ : nat =>
                       nadd mean (nmul (nsqrt (Fin variance))
                                       (nth 0 (map Fin rs) NaN))) (seq 0 n));
    [| now rewrite map_const_repeat, length_seq].
  apply map_ext_in. intros i Hi. apply in_seq in Hi. f_equal.
  rewrite Hd. cbn [nmax]. rewrite (Rmax_right 0 variance) by exact Hv.
  rewrite nsqrt_Fin by exact Hv. unfold factorEntry.
  rewrite lowerRow_finite by lia. rewrite nth_map_Fin by lia.
  cbn [nmul]. f_equal. unfold rowValue.
  destruct (Nat.eqb i 0); lra.
Qed.

Lemma drawNormals_seededRandom (fuel n : nat) (st : PostState) :
  (2 <= fuel)%nat -> (0 <= seedState st)%Z ->
  returns (drawNormals fuel n seededRandom) st
          (fun zs st' => Forall is_finite zs /\ (0 <= seedState st')%Z).
Proof.
  intros Hf Hs. unfold drawNormals.
  apply (returns_foldM _ (fun (_ : list nat) zs st' =>
                            Forall is_finite zs /\ (0 <= seedState st')%Z)
                       (seq 0 n) []).
  - split; [constructor | exact Hs].
  - intros done x zs st' _ [Hfin Hst].
    pose proof (nextNonzero_range Hst) as H1.
    pose proof (@nextNonzero_range (nextNonzero (seedState st')) ltac:(lia)) as H2.
    pose proof (unit_of_pos H1) as Hu.
    assert (Hpos : 0 < / 233280) by (apply Rinv_0_lt_compat; lra).
    apply returns_bind.
    eapply returns_eq; [now apply whileZero_seededRandom |].
    apply returns_bind.
    eapply returns_eq; [now apply whileZero_seededRandom |].
    apply returns_ret. cbn [seedState]. split; [| lia].
    apply Forall_app. split; [exact Hfin |].
    constructor; [| constructor].
    rewrite boxMuller_unit by lra. exact I.
Qed.









Lemma generateMultivariateNormal_equal_components_example :
  exists zs s',
    (1 <= 3)%nat /\ 0 <= 4 /\
    drawNormals 2 3 seededRandom {| seedState := 42; world := idleWorld |} =
    Ok zs s' /\
    Forall is_finite zs /\
    generateMultivariateNormal 2 3 (Fin 0) (Fin 4) (Fin 4) seededRandom
                               {| seedState := 42; world := idleWorld |} =
    Ok (repeat (nadd (Fin 0) (nmul (nsqrt (Fin 4)) (nth 0 zs NaN))) 3) s'.
Proof.
  destruct (@drawNormals_seededRandom 2 3 {| seedState := 42; world := idleWorld |}
              ltac:(lia) ltac:(simpl; lia)) as (zs & s' & Hz & Hfin & _).
  assert (H1 : (1 <= 3)%nat) by lia.
  assert (H2 : 0 <= 4) by lra.
  exists zs, s'. repeat (split; [assumption |]).
  exact (proj1 (@generateMultivariateNormal_equal_components
                  _ _ _ (Fin 0) _ _ _ _ _ H1 H2 Hz Hfin)).
Defined.

(** ** Determinism *)

Lemma agree_ret {S A : Type} (R : S -> S -> Prop) (a : A) : agree R (ret a) (ret a).
Proof. intros s1 s2 H. cbn. now split. Qed.

Lemma agree_throw {S A : Type} (R : S -> S -> Prop) :
  agree R (@throw S A) (@throw S A).
Proof. intros s1 s2 H. exact H. Qed.

Lemma agree_bind {S A B : Type} (R : S -> S -> Prop)
      (m1 m2 : M S A) (k1 k2 : A -> M S B) :
  agree R m1 m2 -> (forall a, agree R (k1 a) (k2 a)) ->
  agree R (bind m1 k1) (bind m2 k2).
Proof.
  intros Hm Hk s1 s2 H. specialize (Hm s1 s2 H). unfold bind.
  destruct (m1 s1) as [a1 t1 | t1 |], (m2 s2) as [a2 t2 | t2 |];
    try contradiction; try exact I; try exact Hm.
  - destruct Hm as [<- Ht]. now apply Hk.
  - destruct (k1 a1 t1); exact I.
Qed.

Lemma agree_foldM {S A B : Type} (R : S -> S -> Prop)
      (body1 body2 : B -> A -> M S B) (xs : list A) :
  (forall acc x, agree R (body1 acc x) (body2 acc x)) ->
  forall acc, agree R (foldM body1 xs acc) (foldM body2 xs acc).
Proof.
  intros Hb. induction xs as [|x xs IH]; intros acc; cbn [foldM].
  - apply agree_ret.
  - apply agree_bind; [apply Hb | exact IH].
Qed.

Lemma agree_whileZero {S : Type} (R : S -> S -> Prop) (gen1 gen2 : M S num) :
  agree R gen1 gen2 ->
  forall fuel1 fuel2 u, agree R (whileZero fuel1 gen1 u) (whileZero fuel2 gen2 u).
Proof.
  intros Hg. induction fuel1 as [|f1 IH]; intros fuel2 u;
    destruct fuel2 as [|f2]; cbn [whileZero];
    destruct (neq u (Fin 0)); try apply agree_ret.
  - intros s1 s2 _. exact I.
  - intros s1 s2 _. exact I.
  - intros s1 s2 _. unfold timeout.
    destruct (bind gen1 (whileZero f1 gen1) s1); exact I.
  - apply agree_bind; [exact Hg | intros a; apply IH].
Qed.

Lemma agree_seededRandom : agree sameSeed seededRandom seededRandom.
Proof.
  intros s1 s2 H. unfold seededRandom, sameSeed in *. cbn. rewrite H.
  now split.
Qed.

Lemma agree_seededNormalRandom (fuel1 fuel2 : nat) :
  agree sameSeed (seededNormalRandom fuel1) (seededNormalRandom fuel2).
Proof.
  unfold seededNormalRandom.
  apply agree_bind; [apply agree_whileZero, agree_seededRandom | intros u].
  apply agree_bind; [apply agree_whileZero, agree_seededRandom | intros v].
  apply agree_ret.
Qed.

Lemma agree_setEntry {S : Type} (R : S -> S -> Prop) (i j : nat) (x : num)
      (L : list (list num)) :
  agree R (setEntry i j x L) (setEntry i j x L).
Proof.
  unfold setEntry. destruct (nth_error L i); [apply agree_ret | apply agree_throw].
Qed.

Lemma agree_generateMultivariateNormal {S : Type} (R : S -> S -> Prop)
      (fuel1 fuel2 n : nat) (mean variance covariance : num) (gen1 gen2 : M S num) :
  agree R gen1 gen2 ->
  agree R (generateMultivariateNormal fuel1 n mean variance covariance gen1)
          (generateMultivariateNormal fuel2 n mean variance covariance gen2).
Proof.
  intros Hg. unfold generateMultivariateNormal.
  apply agree_bind.
  { unfold choleskyFactor. apply agree_bind; [apply agree_setEntry | intros L].
    apply agree_foldM. intros acc i.
    apply agree_bind; [apply agree_setEntry | intros L'; apply agree_setEntry]. }
  intros L. apply agree_bind; [| intros z; apply agree_ret].
  unfold drawNormals. apply agree_foldM. intros z i.
  apply agree_bind; [now apply agree_whileZero | intros u].
  apply agree_bind; [now apply agree_whileZero | intros v].
  apply agree_ret.
Qed.

Lemma agree_simulation (fuel1 fuel2 : nat) (p : SimulationParameters) :
  agree sameSeed (simulation fuel1 p) (simulation fuel2 p).
Proof.
  unfold simulation.
  apply agree_bind;
    [apply agree_generateMultivariateNormal, agree_seededNormalRandom | intros tr].
  apply agree_bind;
    [apply agree_generateMultivariateNormal, agree_seededNormalRandom | intros v].
  apply agree_bind; [apply agree_seededRandom | intros u].
  apply agree_bind.
  { destruct (nlt u (Fin (extremeEventProbability p))); [| apply agree_ret].
    apply agree_bind; [apply agree_seededRandom | intros u'; apply agree_ret]. }
  intros start. apply agree_bind.
  { destruct (nlt u (Fin (extremeEventProbability p))); [| apply agree_ret].
    apply agree_generateMultivariateNormal, agree_seededNormalRandom. }
  intros shocks. apply agree_bind.
  { apply agree_foldM. intros acc c. unfold currencyStep.
    apply agree_bind.
    - unfold pricePaths. apply agree_bind; [apply agree_seededRandom | intros u0].
      apply agree_foldM. intros [pricePath logPricePath] t. unfold priceStep.
      apply agree_bind; [apply agree_seededNormalRandom | intros z].
      apply agree_ret.
    - intros [pricePath logPricePath]. apply agree_ret. }
  intros [prices logPrices]. apply agree_bind.
  { destruct (nth_error logPrices 0); [apply agree_ret | apply agree_throw]. }
  intros l0. apply agree_ret.
Qed.

Lemma agree_runSimulations (fuel1 fuel2 : nat) (p : SimulationParameters) :
  agree sameSeed (runSimulations fuel1 p) (runSimulations fuel2 p).
Proof.
  unfold runSimulations. apply agree_foldM. intros sims i.
  apply agree_bind; [apply agree_simulation | intros d; apply agree_ret].
Qed.

Lemma frames_ret {S A X : Type} (f : S -> X) (a : A) : frames f (ret (S := S) a).
Proof. intros s. reflexivity. Qed.

Lemma frames_throw {S A X : Type} (f : S -> X) : frames f (@throw S A).
Proof. intros s. reflexivity. Qed.

Lemma frames_bind {S A B X : Type} (f : S -> X) (m : M S A) (k : A -> M S B) :
  frames f m -> (forall a, frames f (k a)) -> frames f (bind m k).
Proof.
  intros Hm Hk s. specialize (Hm s). unfold bind.
  destruct (m s) as [a t | t |]; [| exact Hm | exact I].
  specialize (Hk a t). destruct (k a t); try exact I; congruence.
Qed.

Lemma frames_foldM {S A B X : Type} (f : S -> X) (body : B -> A -> M S B)
      (xs : list A) :
  (forall acc x, frames f (body acc x)) -> forall acc, frames f (foldM body xs acc).
Proof.
  intros Hb. induction xs as [|x xs IH]; intros acc; cbn [foldM].
  - apply frames_ret.
  - apply frames_bind; [apply Hb | exact IH].
Qed.

Lemma frames_whileZero {S X : Type} (f : S -> X) (gen : M S num) :
  frames f gen -> forall fuel u, frames f (whileZero fuel gen u).
Proof.
  intros Hg. induction fuel as [|fuel IH]; intros u; cbn [whileZero];
    destruct (neq u (Fin 0)); try apply frames_ret.
  - intros s. exact I.
  - apply frames_bind; [exact Hg | exact IH].
Qed.

Lemma frames_seededRandom : frames world seededRandom.
Proof. intros s. reflexivity. Qed.

Lemma frames_seededNormalRandom (fuel : nat) : frames world (seededNormalRandom fuel).
Proof.
  unfold seededNormalRandom.
  apply frames_bind; [apply frames_whileZero, frames_seededRandom | intros u].
  apply frames_bind; [apply frames_whileZero, frames_seededRandom | intros v].
  apply frames_ret.
Qed.

Lemma frames_setEntry {S X : Type} (f : S -> X) (i j : nat) (x : num)
      (L : list (list num)) :
  frames f (setEntry (S := S) i j x L).
Proof.
  unfold setEntry. destruct (nth_error L i); [apply frames_ret | apply frames_throw].
Qed.

Lemma frames_generateMultivariateNormal {S X : Type} (f : S -> X)
      (fuel n : nat) (mean variance covariance : num) (gen : M S num) :
  frames f gen ->
  frames f (generateMultivariateNormal fuel n mean variance covariance gen).
Proof.
  intros Hg. unfold generateMultivariateNormal.
  apply frames_bind.
  { unfold choleskyFactor. apply frames_bind; [apply frames_setEntry | intros L].
    apply frames_foldM. intros acc i.
    apply frames_bind; [apply frames_setEntry | intros L'; apply frames_setEntry]. }
  intros L. apply frames_bind; [| intros z; apply frames_ret].
  unfold drawNormals. apply frames_foldM. intros z i.
  apply frames_bind; [now apply frames_whileZero | intros u].
  apply frames_bind; [now apply frames_whileZero | intros v].
  apply frames_ret.
Qed.

Lemma frames_simulation (fuel : nat) (p : SimulationParameters) :
  frames world (simulation fuel p).
Proof.
  unfold simulation.
  apply frames_bind;
    [apply frames_generateMultivariateNormal, frames_seededNormalRandom | intros tr].
  apply frames_bind;
    [apply frames_generateMultivariateNormal, frames_seededNormalRandom | intros v].
  apply frames_bind; [apply frames_seededRandom | intros u].
  apply frames_bind.
  { destruct (nlt u (Fin (extremeEventProbability p))); [| apply frames_ret].
    apply frames_bind; [apply frames_seededRandom | intros u'; apply frames_ret]. }
  intros start. apply frames_bind.
  { destruct (nlt u (Fin (extremeEventProbability p))); [| apply frames_ret].
    apply frames_generateMultivariateNormal, frames_seededNormalRandom. }
  intros shocks. apply frames_bind.
  { apply frames_foldM. intros acc c. unfold currencyStep.
    apply frames_bind.
    - unfold pricePaths. apply frames_bind; [apply frames_seededRandom | intros u0].
      apply frames_foldM. intros [pricePath logPricePath] t. unfold priceStep.
      apply frames_bind; [apply frames_seededNormalRandom | intros z].
      apply frames_ret.
    - intros [pricePath logPricePath]. apply frames_ret. }
  intros [prices logPrices]. apply frames_bind.
  { destruct (nth_error logPrices 0); [apply frames_ret | apply frames_throw]. }
  intros l0. apply frames_ret.
Qed.

Lemma frames_runSimulations (fuel : nat) (p : SimulationParameters) :
  frames world (runSimulations fuel p).
Proof.
  unfold runSimulations. apply frames_foldM. intros sims i.
  apply frames_bind; [apply frames_simulation | intros d; apply frames_ret].
Qed.

(** Two invocations on the same parameters answer alike, whatever the fuel
    and the world, and leave the world as it was. *)
Lemma POST_agree (fuel1 fuel2 : nat) (p : SimulationParameters) (w1 w2 : World)
      (r1 r2 : Response) (w1' w2' : World) :
  POST fuel1 p w1 = Some (r1, w1') ->
  POST fuel2 p w2 = Some (r2, w2') ->
  r1 = r2 /\ w1' = w1 /\ w2' = w2.
Proof.
  unfold POST. intros H1 H2.
  pose proof (@agree_runSimulations fuel1 fuel2 p
                {| seedState := randomSeed p; world := w1 |}
                {| seedState := randomSeed p; world := w2 |} eq_refl) as Ha.
  pose proof (@frames_runSimulations fuel1 p
                {| seedState := randomSeed p; world := w1 |}) as F1.
  pose proof (@frames_runSimulations fuel2 p
                {| seedState := randomSeed p; world := w2 |}) as F2.
  destruct (runSimulations fuel1 p _) as [sims1 t1 | t1 |];
    destruct (runSimulations fuel2 p _) as [sims2 t2 | t2 |];
    try discriminate; try contradiction;
    injection H1 as <- <-; injection H2 as <- <-; cbn [world] in F1, F2.
  - destruct Ha as [<- _]. repeat split; assumption.
  - repeat split; assumption.
Qed.

(** ** The handler returns *)

Lemma Reqb_true_inv (x y : R) : Reqb x y = true -> x = y.
Proof. unfold Reqb. destruct (Req_dec_T x y); [trivial | discriminate]. Qed.

(** A Box-Muller value can only be exactly zero through its cosine. *)
Lemma boxMuller_zero_state (a b : Z) :
  a <> 0%Z -> (- 233280 < a < 233280)%Z ->
  neq (boxMuller (Fin (unit_of a)) (Fin (unit_of b))) (Fin 0) = true ->
  (4 * b = 233280 * (2 * ((4 * b / 233280 - 1) / 2) + 1))%Z.
Proof.
  intros Ha Hra Hz.
  destruct (Z.lt_ge_cases a 0) as [Hneg | Hpos].
  - rewrite boxMuller_negative in Hz; [discriminate |].
    apply IZR_lt in Hneg. unfold unit_of. lra.
  - assert (Hu : 0 < unit_of a < 1).
    { assert (H1 : (1 <= a)%Z) by lia. apply IZR_le in H1.
      destruct Hra as [_ H2]. apply IZR_lt in H2. unfold unit_of. split; lra. }
    rewrite boxMuller_unit in Hz by exact Hu.
    cbn [neq] in Hz. apply Reqb_true_inv in Hz.
    pose proof (ln_neg Hu) as Hln.
    assert (Hs : 0 < sqrt (-2 * ln (unit_of a))) by (apply sqrt_lt_R0; lra).
    apply Rmult_integral in Hz. destruct Hz as [Hz | Hz]; [lra |].
    apply cos_eq_0_0 in Hz. destruct Hz as [k Hk].
    pose proof PI_RGT_0 as Hpi.
    assert (Hv : 4 * IZR b = 233280 * (2 * IZR k + 1)).
    { unfold unit_of in Hk.
      assert (H : PI * (4 * IZR b) = PI * (233280 * (2 * IZR k + 1))) by lra.
      apply Rmult_eq_reg_l in H; [exact H | lra]. }
    assert (Hz' : (4 * b = 233280 * (2 * k + 1))%Z).
    { apply eq_IZR. rewrite !mult_IZR, plus_IZR, mult_IZR. exact Hv. }
    assert (Hk' : ((4 * b / 233280 - 1) / 2 = k)%Z).
    { rewrite Hz'. rewrite Z.mul_comm, Z.div_mul by lia.
      replace (2 * k + 1 - 1)%Z with (k * 2)%Z by lia.
      now rewrite Z.div_mul by lia. }
    rewrite Hk'. exact Hz'.
Qed.

Lemma boxMuller_zero_quarter (a b : Z) :
  a <> 0%Z -> (- 233280 < a < 233280)%Z -> (- 233280 < b < 233280)%Z ->
  neq (boxMuller (Fin (unit_of a)) (Fin (unit_of b))) (Fin 0) = true ->
  isQuarter b = true.
Proof.
  intros Ha Hra Hrb Hz.
  pose proof (@boxMuller_zero_state a b Ha Hra Hz) as H.
  set (k := ((4 * b / 233280 - 1) / 2)%Z) in H.
  assert (Hk : (-2 <= k <= 1)%Z) by lia.
  unfold isQuarter.
  assert (Hc : (k = -2 \/ k = -1 \/ k = 0 \/ k = 1)%Z) by lia.
  destruct Hc as [E | [E | [E | E]]]; rewrite E in H;
    assert (Hb : (b = -174960 \/ b = -58320 \/ b = 58320 \/ b = 174960)%Z) by lia;
    destruct Hb as [-> | [-> | [-> | ->]]]; reflexivity.
Qed.

Lemma stInv_nextNonzero (w : World) (seed : Z) (st : PostState) :
  stInv w seed st ->
  stInv w seed {| seedState := nextNonzero (seedState st); world := world st |}.
Proof.
  intros [Hw Hs]. split; [exact Hw |]. cbn [seedState]. intros H.
  pose proof (nextNonzero_range (Hs H)). lia.
Qed.

Lemma stInv_lcg (w : World) (seed : Z) (st : PostState) :
  stInv w seed st ->
  stInv w seed {| seedState := lcg (seedState st); world := world st |}.
Proof.
  intros [Hw Hs]. split; [exact Hw |]. cbn [seedState]. intros H.
  pose proof (lcg_range (Hs H)). lia.
Qed.

Lemma seededNormalRandom_returns (fuel : nat) (w : World) (seed : Z)
      (st : PostState) :
  (2 <= fuel)%nat -> stInv w seed st ->
  returns (seededNormalRandom fuel) st
          (fun z st' => stInv w seed st' /\ ((0 <= seed)%Z -> is_finite z)).
Proof.
  intros Hf Hst. eapply returns_eq; [now apply seededNormalRandom_eq |].
  split.
  - apply (stInv_nextNonzero
             (st := {| seedState := nextNonzero (seedState st); world := world st |})).
    now apply stInv_nextNonzero.
  - intros Hseed. destruct Hst as [_ Hs]. specialize (Hs Hseed).
    pose proof (unit_of_pos (nextNonzero_range Hs)) as Hu.
    assert (Hpos : 0 < / 233280) by (apply Rinv_0_lt_compat; lra).
    rewrite boxMuller_unit by lra. exact I.
Qed.

(** The loop [while (u === 0) u = seededNormalRandom()] of the generator
    draws once or twice. *)
Lemma whileZero_seededNormalRandom (fuel fuel' : nat) (w : World) (seed : Z)
      (st : PostState) :
  (2 <= fuel)%nat -> (2 <= fuel')%nat -> stInv w seed st ->
  returns (whileZero fuel' (seededNormalRandom fuel) (Fin 0)) st
          (fun _ st' => stInv w seed st').
Proof.
  intros Hf Hf' Hst. destruct fuel' as [|[|f]]; try lia.
  cbn [whileZero]. cbn [neq]. rewrite Reqb_true by reflexivity.
  apply returns_bind.
  eapply returns_eq; [now apply seededNormalRandom_eq |].
  set (s := seedState st).
  set (st2 := {| seedState := nextNonzero (nextNonzero s); world := world st |}).
  assert (Hst2 : stInv w seed st2).
  { apply (stInv_nextNonzero
             (st := {| seedState := nextNonzero s; world := world st |})).
    now apply stInv_nextNonzero. }
  destruct (neq (boxMuller (Fin (unit_of (nextNonzero s)))
                           (Fin (unit_of (nextNonzero (nextNonzero s)))))
                (Fin 0)) eqn:Hz1.
  2: { now apply returns_ret. }
  apply boxMuller_zero_quarter in Hz1;
    [| apply nextNonzero_neq_0 | apply nextNonzero_abs | apply nextNonzero_abs].
  apply returns_bind.
  eapply returns_eq; [now apply seededNormalRandom_eq |].
  cbn [seedState world st2].
  set (b := nextNonzero (nextNonzero s)) in *.
  assert (Hz2 : neq (boxMuller (Fin (unit_of (nextNonzero b)))
                               (Fin (unit_of (nextNonzero (nextNonzero b)))))
                    (Fin 0) = false).
  { destruct (neq _ _) eqn:E; [| reflexivity].
    apply boxMuller_zero_quarter in E;
      [| apply nextNonzero_neq_0 | apply nextNonzero_abs | apply nextNonzero_abs].
    exfalso.
    assert (Hb : (b = -174960 \/ b = -58320 \/ b = 58320 \/ b = 174960)%Z)
      by (unfold isQuarter in Hz1; lia).
    destruct Hb as [Eb | [Eb | [Eb | Eb]]]; rewrite Eb in E;
      vm_compute in E; discriminate. }
  assert (Hret : forall g,
             whileZero g (seededNormalRandom fuel)
                       (boxMuller (Fin (unit_of (nextNonzero b)))
                                  (Fin (unit_of (nextNonzero (nextNonzero b))))) =
             ret (boxMuller (Fin (unit_of (nextNonzero b)))
                            (Fin (unit_of (nextNonzero (nextNonzero b)))))).
  { intros g. destruct g; cbn [whileZero]; now rewrite Hz2. }
  rewrite Hret. apply returns_ret.
  apply (stInv_nextNonzero
           (st := {| seedState := nextNonzero b; world := world st |})).
  apply (stInv_nextNonzero (st := st2)). exact Hst2.
Qed.

Lemma generateMultivariateNormal_returns {S : Type} (Inv : S -> Prop)
      (fuel n : nat) (mean variance covariance : num) (gen : M S num) (s : S) :
  (1 <= n)%nat -> Inv s ->
  (forall s0, Inv s0 ->
              returns (whileZero fuel gen (Fin 0)) s0 (fun _ s1 => Inv s1)) ->
  returns (generateMultivariateNormal fuel n mean variance covariance gen) s
          (fun xs s' => Inv s' /\ length xs = n).
Proof.
  intros Hn Hs Hgen. unfold generateMultivariateNormal.
  apply returns_bind.
  eapply returns_weaken; [now apply choleskyFactor_returns |].
  cbn beta. intros L s0 [-> _].
  apply returns_bind.
  eapply returns_weaken.
  - unfold drawNormals.
    apply (returns_foldM _ (fun (_ : list nat) (_ : list num) s1 => Inv s1)
                         (seq 0 n) []); [exact Hs |].
    intros done x zs s1 _ H1.
    apply returns_bind. eapply returns_weaken; [now apply Hgen |].
    cbn beta. intros u s2 H2.
    apply returns_bind. eapply returns_weaken; [now apply Hgen |].
    cbn beta. intros v s3 H3. now apply returns_ret.
  - cbn beta. intros zs s1 H1. apply returns_ret. split; [exact H1 |].
    unfold transform. rewrite fold_left_push. cbn [app].
    now rewrite length_map, length_seq.
Qed.

(** With no currency the first write [L[0][0] = sqrtVar] throws. *)
Lemma generateMultivariateNormal_throws {S : Type}
      (fuel : nat) (mean variance covariance : num) (gen : M S num) (s : S) :
  generateMultivariateNormal fuel 0 mean variance covariance gen s = Throw s.
Proof. reflexivity. Qed.

Lemma nmul_NaN_r (x : num) : nmul x NaN = NaN.
Proof. now destruct x. Qed.

Lemma nadd_NaN_r (x : num) : nadd x NaN = NaN.
Proof. now destruct x. Qed.

Lemma seq_prefix_elem (a k t : nat) (d rest : list nat) :
  seq a k = d ++ t :: rest -> t = (a + length d)%nat.
Proof.
  revert a k. induction d as [|x d IH]; intros a k H.
  - destruct k; [discriminate |]. cbn in H. injection H as -> _. simpl. lia.
  - destruct k; [discriminate |]. cbn in H. injection H as _ H.
    apply IH in H. simpl. lia.
Qed.

Section HandlerReturns.
Variable fuel : nat.
Variable p : SimulationParameters.
Variable w : World.
Hypothesis Hfuel : (2 <= fuel)%nat.

Local Abbreviation Inv := (stInv w (randomSeed p)).

Lemma generator_returns (n : nat) (mean variance covariance : num)
      (st : PostState) :
  (1 <= n)%nat -> Inv st ->
  returns (generateMultivariateNormal fuel n mean variance covariance
                                      (seededNormalRandom fuel)) st
          (fun xs st' => Inv st' /\ length xs = n).
Proof.
  intros Hn Hst. apply generateMultivariateNormal_returns; try assumption.
  intros s0 H0. now apply whileZero_seededNormalRandom.
Qed.

Lemma seededRandom_returns (st : PostState) :
  Inv st ->
  returns seededRandom st
          (fun x st' => Inv st' /\
                        exists u, x = Fin u /\ -1 < u < 1 /\
                                  ((0 <= randomSeed p)%Z -> 0 <= u)).
Proof.
  intros Hst. eapply returns_eq; [apply seededRandom_eq |].
  split; [now apply stInv_lcg |].
  exists (unit_of (lcg (seedState st))). split; [reflexivity |].
  split; [apply unit_of_abs, lcg_abs |].
  intros Hseed. destruct Hst as [_ Hs].
  apply unit_of_range. apply lcg_range. now apply Hs.
Qed.

Lemma pricePaths_returns (tr vol : list num) (ev : bool) (start : num)
      (shocks : list num) (c : nat) (st : PostState) :
  Inv st ->
  returns (pricePaths fuel p tr vol ev start shocks c) st
          (fun paths st' =>
             Inv st' /\ fullPath p (fst paths) /\
             length (snd paths) =
             Datatypes.S (Z.to_nat (numObservations p) - 1) /\
             (is_finite (nth c tr NaN) -> is_finite (nth c vol NaN) ->
              ev = false -> (0 <= randomSeed p)%Z -> 0 < basePrice p ->
              Forall is_finite (fst paths)) /\
             (nth c tr NaN = NaN -> Forall (fun x => x = NaN) (tl (fst paths)))).
Proof.
  intros Hst. unfold pricePaths. apply returns_bind.
  eapply returns_weaken; [now apply seededRandom_returns |].
  cbn beta. intros x st1 (H1 & u & -> & Hu & Hpos).
  cbn [nadd nmul].
  eapply returns_weaken.
  - apply (returns_foldM
             _ (fun done (paths : list num * list num) st' =>
                  Inv st' /\
                  (exists rest,
                      fst paths = Fin (basePrice p * (0.5 + u)) :: rest /\
                      length rest = length done /\ Forall floored rest /\
                      (nth c tr NaN = NaN -> Forall (fun x => x = NaN) rest)) /\
                  length (snd paths) = Datatypes.S (length done) /\
                  (is_finite (nth c tr NaN) -> is_finite (nth c vol NaN) ->
                   ev = false -> (0 <= randomSeed p)%Z -> 0 < basePrice p ->
                   Forall is_finite (fst paths) /\ Forall is_finite (snd paths)))
             (seq 1 (Z.to_nat (numObservations p) - 1)) []).
    + split; [exact H1 |]. split; [| split; [reflexivity |]].
      * exists []. repeat split; constructor.
      * intros _ _ _ Hseed Hbase. cbn [fst snd]. specialize (Hpos Hseed).
        split; (constructor; [| constructor]); [exact I |].
        cbn [nlog]. rewrite Rltb_false by nra. rewrite Reqb_false by nra. exact I.
    + intros done t [pp lp] st2 Hpre
             (H2 & (rest & Hpp & Hlen & Hfl & Hnan) & Hlp & Hfin).
      cbn [fst snd] in *. unfold priceStep.
      apply returns_bind.
      eapply returns_weaken;
        [exact (seededNormalRandom_returns Hfuel H2) |].
      cbn beta. intros z st3 [H3 Hz]. apply returns_ret.
      split; [exact H3 |]. cbn [fst snd]. split; [| split].
      * eexists (rest ++ [_]). rewrite Hpp. split; [reflexivity |].
        split; [rewrite !length_app; simpl; lia |]. split.
        -- apply Forall_app. split; [exact Hfl |].
           constructor; [| constructor]. eexists. reflexivity.
        -- intros Hmu. apply Forall_app. split; [now apply Hnan |].
           constructor; [| constructor]. rewrite Hmu. cbn [nsub nadd nmul].
           destruct (ev && _ && _); cbn [nadd]; now rewrite nadd_NaN_r.
      * rewrite !length_app. simpl. lia.
      * intros Hmu Hsigma Hev Hseed Hbase.
        destruct (Hfin Hmu Hsigma Hev Hseed Hbase) as [Hfpp Hflp].
        specialize (Hz Hseed).
        assert (Ht : t = Datatypes.S (length done)).
        { destruct Hpre as [tl Htl]. cbn [app] in Htl.
          now apply seq_prefix_elem in Htl. }
        assert (Hprev : is_finite (nth (t - 1) lp NaN)).
        { rewrite Forall_forall in Hflp. apply Hflp. apply nth_In. lia. }
        destruct (nth c tr NaN) as [| | | m]; try contradiction.
        destruct (nth c vol NaN) as [| | | sg]; try contradiction.
        destruct z as [| | | zr]; try contradiction.
        destruct (nth (t - 1) lp NaN) as [| | | l]; try contradiction.
        rewrite Hev. cbn [andb]. unfold dt. rewrite ndiv_Fin by lra.
        cbn [nsub flip nadd nmul nsqrt]. rewrite Rltb_false by lra.
        cbn [nsub flip nadd nmul nexp nmax].
        split; (apply Forall_app; split; [assumption |]);
          (constructor; [exact I | constructor]).
  - cbn beta. cbn [app].
    intros [pp lp] st2 (H2 & (rest & Hpp & Hlen & Hfl & Hnan) & Hlp & Hfin).
    cbn [fst snd] in *. rewrite length_seq in Hlen, Hlp.
    split; [exact H2 |]. split; [| split; [exact Hlp | split]].
    + exists u, rest. repeat split; try assumption; lra.
    + intros Hmu Hsigma Hev Hseed Hbase.
      exact (proj1 (Hfin Hmu Hsigma Hev Hseed Hbase)).
    + intros Hmu. rewrite Hpp. cbn [tl]. now apply Hnan.
Qed.

Lemma currencies_returns (tr vol : list num) (ev : bool) (start : num)
      (shocks : list num) (st : PostState) :
  Inv st ->
  returns (foldM (currencyStep fuel p tr vol ev start shocks)
                 (seq 0 (numCurrencies p)) ([], [])) st
          (fun acc st' =>
             Inv st' /\
             exists fulls logs,
               length fulls = numCurrencies p /\
               length logs = numCurrencies p /\
               Forall (fullPath p) fulls /\
               Forall (fun l => length l =
                                Datatypes.S (Z.to_nat (numObservations p) - 1)) logs /\
               fst acc = map (fun path => samplePath path (sampleTarget p)) fulls /\
               snd acc = map (fun l => samplePath l (sampleTarget p)) logs /\
               (Forall is_finite tr -> Forall is_finite vol ->
                length tr = numCurrencies p -> length vol = numCurrencies p ->
                ev = false -> (0 <= randomSeed p)%Z -> 0 < basePrice p ->
                Forall (Forall is_finite) fulls) /\
               (forall c, nth c tr NaN = NaN ->
                          Forall (fun x => x = NaN) (tl (nth c fulls [])))).
Proof.
  intros Hst. eapply returns_weaken.
  - apply (returns_foldM
             _ (fun done (acc : list (list num) * list (list num)) st' =>
                  Inv st' /\
                  exists fulls logs,
                    length fulls = length done /\
                    length logs = length done /\
                    Forall (fullPath p) fulls /\
                    Forall (fun l => length l =
                                     Datatypes.S (Z.to_nat (numObservations p) - 1))
                           logs /\
                    fst acc = map (fun path => samplePath path (sampleTarget p)) fulls /\
                    snd acc = map (fun l => samplePath l (sampleTarget p)) logs /\
                    (Forall is_finite tr -> Forall is_finite vol ->
                     length tr = numCurrencies p -> length vol = numCurrencies p ->
                     ev = false -> (0 <= randomSeed p)%Z -> 0 < basePrice p ->
                     Forall (Forall is_finite) fulls) /\
                    (forall c, nth c tr NaN = NaN ->
                               Forall (fun x => x = NaN) (tl (nth c fulls []))))
             (seq 0 (numCurrencies p)) []).
    + split; [exact Hst |]. exists [], []. repeat split; try constructor.
      intros c _. destruct c; constructor.
    + intros done c acc st1 Hpre
             (H1 & fulls & logs & Hf & Hl & Hff & Hfl & Ep & El & Hfin & Hnan).
      assert (Hc : (c < numCurrencies p)%nat /\ c = length done).
      { destruct Hpre as [tl Htl]. cbn [app] in Htl.
        assert (Hin : In c (seq 0 (numCurrencies p))).
        { rewrite Htl. apply in_or_app. right. now left. }
        apply in_seq in Hin. apply seq_prefix_elem in Htl. lia. }
      destruct Hc as [Hc Ec].
      unfold currencyStep. apply returns_bind.
      eapply returns_weaken; [now apply pricePaths_returns |].
      cbn beta. intros [pp lp] st2 (H2 & Hpp & Hlp & Hfpp & Hnpp).
      cbn [fst snd] in *.
      apply returns_ret. split; [exact H2 |].
      exists (fulls ++ [pp]), (logs ++ [lp]). cbn [fst snd].
      rewrite !length_app, !map_app, Ep, El, Hf, Hl. cbn [length map].
      repeat split; try reflexivity.
      * apply Forall_app. split; [exact Hff | now constructor].
      * apply Forall_app. split; [exact Hfl | now constructor].
      * intros Htr Hvol Hltr Hlvol Hev Hseed Hbase.
        apply Forall_app. split; [now apply Hfin |].
        constructor; [| constructor].
        apply Hfpp; try assumption.
        -- rewrite Forall_forall in Htr. apply Htr. apply nth_In. lia.
        -- rewrite Forall_forall in Hvol. apply Hvol. apply nth_In. lia.
      * intros c' Hc'.
        destruct (Nat.lt_ge_cases c' (length fulls)) as [Hlt | Hge].
        -- rewrite app_nth1 by exact Hlt. now apply Hnan.
        -- rewrite app_nth2 by exact Hge.
           destruct (c' - length fulls)%nat as [|k] eqn:Ek.
           ++ cbn [nth]. apply Hnpp.
              replace c with c' by lia. exact Hc'.
           ++ destruct k; constructor.
  - cbn beta. cbn [app]. intros acc st1 (H1 & fulls & logs & Hf & Hl & Hrest).
    rewrite length_seq in Hf, Hl. split; [exact H1 |].
    exists fulls, logs. tauto.
Qed.
End HandlerReturns.

Section SimulationReturns.
Variable fuel : nat.
Variable p : SimulationParameters.
Variable w : World.
Hypothesis Hfuel : (2 <= fuel)%nat.
Hypothesis Hcurrencies : (1 <= numCurrencies p)%nat.

Local Abbreviation Inv := (stInv w (randomSeed p)).

Lemma simulation_returns (st : PostState) :
  Inv st ->
  returns (simulation fuel p) st (fun run st' => Inv st' /\ run_shape p run).
Proof.
  intros Hst. unfold simulation.
  apply returns_bind.
  eapply returns_weaken; [apply (@generator_returns fuel p w Hfuel); assumption |].
  cbn beta. intros tr st1 [H1 Htr].
  apply returns_bind.
  eapply returns_weaken; [apply (@generator_returns fuel p w Hfuel); assumption |].
  cbn beta. intros v st2 [H2 Hv].
  apply returns_bind.
  eapply returns_weaken; [apply (@seededRandom_returns p w); assumption |].
  cbn beta. intros x st3 (H3 & u & -> & Hu & Hupos).
  set (ev := nlt (Fin u) (Fin (extremeEventProbability p))).
  assert (Hfinish :
    forall start shocks st5,
      Inv st5 ->
      (if ev
       then exists u',
           -1 < u' < 1 /\ ((0 <= randomSeed p)%Z -> 0 <= u') /\
           start = nfloor (nmul (Fin u')
                                (nsub (of_Z (numObservations p))
                                      (of_Z (extremeEventDuration p))))
       else True) ->
      returns
        (bind (foldM (currencyStep fuel p tr (map nabs v) ev start shocks)
                     (seq 0 (numCurrencies p)) ([], []))
              (fun x0 =>
                 let '(prices, logPrices) := x0 in
                 logPrices0 <- match nth_error logPrices 0 with
                               | Some l => ret l
                               | None => throw
                               end ;;
                 ret {| prices := prices;
                        trends := tr;
                        volatilities := map nabs v;
                        extremeEvent := ev;
                        extremeEventIndex := if ev then Some start else None;
                        realizedVolatility :=
                          nmul (calculateRealizedVolatilityFromLogPrices logPrices0)
                               (Fin 100);
                        effectiveTrends := map effectiveTrend prices |}))
        st5 (fun run st' => Inv st' /\ run_shape p run)).
  { intros start shocks st5 H5 Hstart.
    apply returns_bind.
    eapply returns_weaken; [apply (@currencies_returns fuel p w Hfuel); assumption |].
    cbn beta.
    intros [prs lgs] st6
           (H6 & fulls & logs & Hf & Hl & Hff & Hfl & Ep & El & Hfin & Hnan).
    cbn [fst snd] in Ep, El.
    destruct logs as [|l0 logs']; [simpl in Hl; lia |].
    rewrite El. cbn [map nth_error].
    apply returns_bind. apply returns_ret. apply returns_ret.
    split; [exact H6 |].
    unfold run_shape, finiteInputs.
    cbn [prices trends volatilities extremeEvent
         extremeEventIndex realizedVolatility effectiveTrends].
    split.
    { exists fulls, (l0 :: logs'). cbn [nth].
      repeat (split; [assumption || reflexivity |]).
      split; [| exact Hnan].
      intros (Ht & Hvl & Hev & Hseed & Hbase).
      apply Hfin; try assumption. now rewrite length_map. }
    split; [reflexivity |]. split; [exact Htr |].
    split; [now rewrite length_map |].
    destruct ev; [| reflexivity].
    destruct Hstart as (u' & Hu' & Hpos' & ->). now exists u'. }
  destruct ev.
  - apply returns_bind. apply returns_bind.
    eapply returns_weaken; [apply (@seededRandom_returns p w); assumption |].
    cbn beta. intros x st4 (H4 & u' & -> & Hu' & Hpos').
    apply returns_ret. apply returns_bind.
    eapply returns_weaken; [apply (@generator_returns fuel p w Hfuel); assumption |].
    cbn beta. intros shocks st5 [H5 _].
    apply Hfinish; [exact H5 |]. now exists u'.
  - apply returns_bind. apply returns_ret.
    apply returns_bind. apply returns_ret.
    now apply Hfinish.
Qed.

Lemma runSimulations_returns (st : PostState) :
  Inv st ->
  returns (runSimulations fuel p) st
          (fun sims st' => Inv st' /\ length sims = numSimulations p /\
                           Forall (run_shape p) sims).
Proof.
  intros Hst. unfold runSimulations. eapply returns_weaken.
  - apply (returns_foldM
             _ (fun (done : list nat) sims st' =>
                  Inv st' /\ length sims = length done /\
                  Forall (run_shape p) sims)
             (seq 0 (numSimulations p)) []).
    + split; [exact Hst |]. split; [reflexivity | constructor].
    + intros done i sims st1 _ (H1 & Hlen & Hall).
      apply returns_bind.
      eapply returns_weaken; [apply simulation_returns; assumption |].
      cbn beta. intros run st2 [H2 Hrun]. apply returns_ret.
      split; [exact H2 |]. rewrite !length_app, Hlen. split; [reflexivity |].
      apply Forall_app. split; [exact Hall | now constructor].
  - cbn beta. cbn [app]. intros sims st1 (H1 & Hlen & Hall).
    rewrite length_seq in Hlen. tauto.
Qed.

(** With at least one currency and fuel for two draws per loop the handler
    answers with the JSON body, and every record has the shape
    [run_shape]. *)
Lemma POST_returns :
  exists sims,
    POST fuel p w = Some (Json {| simulations := sims; params := p |}, w) /\
    length sims = numSimulations p /\
    Forall (run_shape p) sims.
Proof.
  destruct (@runSimulations_returns {| seedState := randomSeed p; world := w |})
    as (sims & st & Hrun & [Hw _] & Hlen & Hall).
  { split; [reflexivity |]. cbn [seedState]. trivial. }
  exists sims. unfold POST. rewrite Hrun, Hw. now split.
Qed.
End SimulationReturns.

(** Without currencies the handler answers 500 as soon as one simulation is
    asked for. *)
Lemma POST_no_currency (fuel : nat) (p : SimulationParameters) (w : World) :
  numCurrencies p = 0%nat -> (1 <= numSimulations p)%nat ->
  POST fuel p w = Some (Error500, w).
Proof.
  intros Hn Hs. unfold POST, runSimulations.
  destruct (numSimulations p) as [|k]; [lia |].
  cbn [seq foldM]. unfold bind at 1. unfold bind at 1.
  unfold simulation at 1. unfold bind at 1.
  rewrite Hn, generateMultivariateNormal_throws. reflexivity.
Qed.

(** The handler always answers, given fuel for two draws per loop. *)
Lemma POST_total (fuel : nat) (p : SimulationParameters) (w : World) :
  (2 <= fuel)%nat -> exists r, POST fuel p w = Some (r, w).
Proof.
  intros Hf.
  destruct (Nat.eq_dec (numCurrencies p) 0) as [Hn | Hn].
  - destruct (Nat.eq_dec (numSimulations p) 0) as [Hs | Hs].
    + exists (Json {| simulations := []; params := p |}).
      unfold POST, runSimulations. now rewrite Hs.
    + exists Error500. apply POST_no_currency; [exact Hn | lia].
  - destruct (@POST_returns fuel p w Hf ltac:(lia)) as (sims & H & _).
    eexists. exact H.
Qed.

(** Whatever the fuel, a JSON answer carries the parameters, one record per
    simulation, each of the shape [run_shape], and the world is untouched. *)
Lemma POST_shape (fuel : nat) (p : SimulationParameters) (w w' : World)
      (r : SimulationResult) :
  POST fuel p w = Some (Json r, w') ->
  params r = p /\ w' = w /\
  length (simulations r) = numSimulations p /\
  Forall (run_shape p) (simulations r).
Proof.
  intros H.
  destruct (Nat.eq_dec (numCurrencies p) 0) as [Hn | Hn].
  - destruct (Nat.eq_dec (numSimulations p) 0) as [Hs | Hs].
    + unfold POST, runSimulations in H. rewrite Hs in H. cbn in H.
      injection H as <- <-. cbn. rewrite Hs. repeat split. constructor.
    + rewrite POST_no_currency in H by (try assumption; lia). discriminate.
  - destruct (@POST_returns 2 p w ltac:(lia) ltac:(lia)) as (sims & H2 & Hlen & Hall).
    destruct (@POST_agree _ _ _ _ _ _ _ _ _ H H2) as (E & -> & _).
    injection E as ->. cbn. repeat split; assumption.
Qed.

(** ** C1: determinism *)

(** C1.  The answer of the handler is a function of the parameter record
    alone: the handler answers for every parameter record (given fuel for
    two draws per resampling loop), and two invocations on the same record
    return the same response, whatever the fuel and whatever the ambient
    [Math.random] source, which both leave untouched. *)
Theorem POST_deterministic :
  forall p : SimulationParameters,
    (forall (fuel : nat) (w : World),
        (2 <= fuel)%nat -> exists r, POST fuel p w = Some (r, w)) /\
    (forall (fuel1 fuel2 : nat) (w1 w2 w1' w2' : World) (r1 r2 : Response),
        POST fuel1 p w1 = Some (r1, w1') ->
        POST fuel2 p w2 = Some (r2, w2') ->
        r1 = r2 /\ w1' = w1 /\ w2' = w2).
Proof.
  intros p. split.
  - intros fuel w Hf. now apply POST_total.
  - intros fuel1 fuel2 w1 w2 w1' w2' r1 r2 H1 H2.
    exact (@POST_agree _ _ _ _ _ _ _ _ _ H1 H2).
Qed.

Lemma POST_deterministic_witness :
  exists r,
    POST 2 exampleParams idleWorld = Some (r, idleWorld) /\
    POST 7 exampleParams {| mathRandomDraws := fun _ => 1 / 2; mathRandomPos := 5 |} =
    Some (r, {| mathRandomDraws := fun _ => 1 / 2; mathRandomPos := 5 |}).
Proof.
  destruct (@POST_total 2 exampleParams idleWorld ltac:(lia)) as [r1 H1].
  destruct (@POST_total 7 exampleParams
              {| mathRandomDraws := fun _ => 1 / 2; mathRandomPos := 5 |}
              ltac:(lia)) as [r2 H2].
  destruct (proj2 (POST_deterministic exampleParams) _ _ _ _ _ _ _ _ H1 H2)
    as (E & _ & _).
  exists r1. split; [exact H1 |]. rewrite E. exact H2.
Defined.

(** ** C7: the event index *)

Lemma event_index_range (u : R) (n d : Z) :
  0 <= u < 1 -> (d < n)%Z ->
  exists k : Z,
    nfloor (nmul (Fin u) (nsub (of_Z n) (of_Z d))) = of_Z k /\ (0 <= k < n - d)%Z.
Proof.
  intros [Hu0 Hu1] Hnd.
  exists (Zfloor (u * (IZR n + - IZR d))). split; [reflexivity |].
  assert (Hpos : 0 < IZR n + - IZR d).
  { apply IZR_lt in Hnd. lra. }
  pose proof (Zfloor_bound (u * (IZR n + - IZR d))) as [Hlo Hhi].
  split.
  - apply Zfloor_lub. simpl. nra.
  - apply lt_IZR. rewrite minus_IZR. nra.
Qed.

(** C7.  Under [numObservations > extremeEventDuration] and a nonnegative
    seed, in every record the handler returns: when [extremeEvent] is true,
    [extremeEventIndex] is an integer of
    [0, numObservations - extremeEventDuration); when it is false,
    [extremeEventIndex] is null.  (The handler does return such records:
    with at least one currency and enough fuel the answer is the JSON body
    with [numSimulations] records.) *)
Theorem extremeEventIndex_valid :
  forall (fuel : nat) (p : SimulationParameters) (w : World),
    (0 <= randomSeed p)%Z ->
    (extremeEventDuration p < numObservations p)%Z ->
    ((2 <= fuel)%nat -> (1 <= numCurrencies p)%nat ->
     exists r, POST fuel p w = Some (Json r, w) /\
               length (simulations r) = numSimulations p) /\
    (forall (r : SimulationResult) (w' : World),
        POST fuel p w = Some (Json r, w') ->
        forall run, In run (simulations r) ->
          if extremeEvent run
          then exists k : Z,
              extremeEventIndex run = Some (of_Z k) /\
              (0 <= k < numObservations p - extremeEventDuration p)%Z
          else extremeEventIndex run = None).
Proof.
  intros fuel p w Hseed Hdur. split.
  - intros Hf Hn. destruct (@POST_returns fuel p w Hf Hn) as (sims & H & Hlen & _).
    eexists. split; [exact H | exact Hlen].
  - intros r w' H run Hin.
    destruct (@POST_shape _ _ _ _ _ H) as (_ & _ & _ & Hall).
    rewrite Forall_forall in Hall. specialize (Hall run Hin).
    destruct Hall as (_ & _ & _ & _ & Hev).
    destruct (extremeEvent run); [| exact Hev].
    destruct Hev as (u & Hu & Hpos & ->).
    destruct (@event_index_range u (numObservations p) (extremeEventDuration p))
      as (k & Hk & Hr); [split; [now apply Hpos | lra] | exact Hdur |].
    exists k. now rewrite Hk.
Qed.

Lemma extremeEventIndex_valid_witness :
  (0 <= randomSeed exampleParams)%Z /\
  (extremeEventDuration exampleParams < numObservations exampleParams)%Z /\
  exists r, POST 2 exampleParams idleWorld = Some (Json r, idleWorld) /\
            length (simulations r) = numSimulations exampleParams.
Proof.
  assert (H1 : (0 <= randomSeed exampleParams)%Z) by (simpl; lia).
  assert (H2 : (extremeEventDuration exampleParams < numObservations exampleParams)%Z)
    by (simpl; lia).
  split; [exact H1 |]. split; [exact H2 |].
  apply (proj1 (extremeEventIndex_valid 2 exampleParams idleWorld H1 H2));
    simpl; lia.
Defined.

(** ** Rows of the price matrix *)

Lemma hd_error_nth_error {A : Type} (l : list A) : nth_error l 0 = hd_error l.
Proof. now destruct l. Qed.

Lemma samplePath_empty_target {A : Type} (path : list A) (targetLength : Z) :
  (targetLength <= 0)%Z -> (targetLength < Z.of_nat (length path))%Z ->
  samplePath path targetLength = [].
Proof.
  intros Ht Hlen. unfold samplePath.
  destruct (Z.leb_spec (Z.of_nat (length path)) targetLength); [lia |].
  replace (Z.to_nat targetLength) with 0%nat by lia. reflexivity.
Qed.

(** Beyond its first element a downsampled series only holds elements that
    come after the first element of the series. *)
Lemma samplePath_tail {A : Type} (path : list A) (targetLength : Z) (i : nat) (x : A) :
  (1 <= i)%nat -> nth_error (samplePath path targetLength) i = Some x ->
  exists j, (1 <= j)%nat /\ nth_error path j = Some x.
Proof.
  intros Hi Hx.
  destruct (Z.le_gt_cases (Z.of_nat (length path)) targetLength) as [Hle | Hgt].
  - rewrite samplePath_short in Hx by exact Hle. now exists i.
  - destruct (Z.le_gt_cases targetLength 0) as [H0 | H0].
    + rewrite samplePath_empty_target in Hx by assumption.
      destruct i; discriminate.
    + destruct path as [|d path']; [simpl in Hgt; lia |].
      set (path := d :: path') in *.
      rewrite (samplePath_long d) in Hx by lia.
      rewrite nth_error_map, nth_error_seq in Hx.
      destruct (Nat.ltb_spec i (Z.to_nat targetLength)) as [Hlt | Hge];
        [| discriminate].
      cbn [option_map Nat.add] in Hx.
      assert (Hx' : nth (Z.to_nat (floorPosition (Z.of_nat (length path))
                                                 targetLength (Z.of_nat i)))
                        path d = x) by congruence.
      rewrite <- Hx'. clear Hx Hx'.
      pose proof (@floorPosition_range (Z.of_nat (length path)) targetLength
                    (Z.of_nat i) ltac:(lia) ltac:(lia)) as Hr.
      assert (Hlow : (Z.of_nat i <= floorPosition (Z.of_nat (length path))
                                                 targetLength (Z.of_nat i))%Z).
      { rewrite floorPosition_div by lia.
        apply Z.div_le_lower_bound; [lia | nia]. }
      exists (Z.to_nat (floorPosition (Z.of_nat (length path)) targetLength
                                      (Z.of_nat i))).
      split; [lia |]. apply nth_error_nth'. lia.
Qed.

Lemma floored_bound (x : num) : floored x -> x = NaN \/ nge x (Fin 0.01) = true.
Proof.
  intros [l ->]. destruct l as [| | | r]; cbn [nexp nmax nge nlt negb].
  - now left.
  - now right.
  - right. rewrite Rltb_false; [reflexivity |]. apply Rmax_r.
  - right. rewrite Rltb_false; [reflexivity |]. apply Rmax_r.
Qed.

Lemma run_rows (p : SimulationParameters) (run : SimulationData) (row : list num) :
  run_shape p run -> In row (prices run) ->
  exists full, fullPath p full /\ row = samplePath full (sampleTarget p).
Proof.
  intros ((fulls & logs & _ & _ & Hff & _ & Ep & _) & _) Hin.
  rewrite Ep in Hin. apply in_map_iff in Hin as (full & <- & Hfull).
  rewrite Forall_forall in Hff. exists full. split; [now apply Hff | reflexivity].
Qed.

Lemma row_initial_price (p : SimulationParameters) (full : list num) :
  (1 <= numObservations p)%Z -> fullPath p full ->
  exists u,
    nth_error (samplePath full (sampleTarget p)) 0 =
    Some (Fin (basePrice p * (0.5 + u))) /\
    -1 < u < 1 /\ ((0 <= randomSeed p)%Z -> 0 <= u).
Proof.
  intros Hn (u & rest & -> & Hu & Hpos & _). exists u.
  rewrite hd_error_nth_error, samplePath_hd by now apply sampleTarget_pos.
  repeat split; try assumption; lra.
Qed.

Lemma row_tail_floored (p : SimulationParameters) (full : list num) (i : nat)
      (x : num) :
  fullPath p full -> (1 <= i)%nat ->
  nth_error (samplePath full (sampleTarget p)) i = Some x -> floored x.
Proof.
  intros (u & rest & -> & _ & _ & _ & Hfl) Hi Hx.
  apply samplePath_tail in Hx as (j & Hj & Hx); [| exact Hi].
  destruct j as [|j]; [lia |]. cbn [nth_error] in Hx.
  apply nth_error_In in Hx. rewrite Forall_forall in Hfl. now apply Hfl.
Qed.

(** A record and a row of its price matrix, to exemplify on. *)
Lemma POST_has_row (fuel : nat) (p : SimulationParameters) (w : World) :
  (2 <= fuel)%nat -> (1 <= numCurrencies p)%nat -> (1 <= numSimulations p)%nat ->
  exists r run row,
    POST fuel p w = Some (Json r, w) /\
    In run (simulations r) /\ In row (prices run) /\ run_shape p run.
Proof.
  intros Hf Hn Hs.
  destruct (@POST_returns fuel p w Hf Hn) as (sims & H & Hlen & Hall).
  destruct sims as [|run sims]; [simpl in Hlen; lia |].
  pose proof (Forall_inv Hall) as Hrun.
  pose proof Hrun as ((fulls & logs & Hfl & _ & _ & _ & Ep & _) & _).
  destruct fulls as [|full fulls]; [simpl in Hfl; lia |].
  exists {| simulations := run :: sims; params := p |}, run,
         (samplePath full (sampleTarget p)).
  split; [exact H |]. split; [now left |]. split; [| exact Hrun].
  rewrite Ep. now left.
Qed.

(** ** C4: the price floor *)

(** C4 (amended).  In every record the handler returns, every stored price
    at a time index of 1 or more is [Math.max(Math.exp(newLogPrice), 0.01)]:
    it is at least 0.01 unless it is [NaN].  The price at index 0 is not
    floored: for a seed within the exact range of the generator step
    ([exactStep], so that the draws are numbers) it is the initial price
    [basePrice * (0.5 + u)] for a draw [u], stored as it is; it is at
    least 0.01 when moreover the seed is nonnegative and
    [basePrice >= 0.02]. *)
Theorem prices_floored_after_start :
  forall (fuel : nat) (p : SimulationParameters) (w w' : World)
         (r : SimulationResult),
    POST fuel p w = Some (Json r, w') ->
    forall run row, In run (simulations r) -> In row (prices run) ->
      (forall i x, (1 <= i)%nat -> nth_error row i = Some x ->
                   floored x /\ (x = NaN \/ nge x (Fin 0.01) = true)) /\
      ((1 <= numObservations p)%Z -> exactStep (randomSeed p) ->
       exists u,
         nth_error row 0 = Some (Fin (basePrice p * (0.5 + u))) /\
         -1 < u < 1 /\
         ((0 <= randomSeed p)%Z -> 0.02 <= basePrice p ->
          nge (Fin (basePrice p * (0.5 + u))) (Fin 0.01) = true)).
Proof.
  intros fuel p w w' r H run row Hrun Hrow.
  destruct (@POST_shape _ _ _ _ _ H) as (_ & _ & _ & Hall).
  rewrite Forall_forall in Hall. specialize (Hall run Hrun).
  destruct (@run_rows _ _ _ Hall Hrow) as (full & Hfull & ->).
  split.
  - intros i x Hi Hx.
    pose proof (@row_tail_floored _ _ _ _ Hfull Hi Hx) as Hfl.
    split; [exact Hfl | now apply floored_bound].
  - intros Hn _.
    destruct (@row_initial_price _ _ Hn Hfull) as (u & Hu0 & Hu & Hpos).
    exists u. split; [exact Hu0 |]. split; [exact Hu |].
    intros Hseed Hbase. specialize (Hpos Hseed).
    cbn [nge nlt negb]. rewrite Rltb_false; [reflexivity |]. nra.
Qed.

Lemma prices_floored_after_start_witness :
  exists r run row,
    POST 2 exampleParams idleWorld = Some (Json r, idleWorld) /\
    In run (simulations r) /\ In row (prices run) /\
    (forall i x, (1 <= i)%nat -> nth_error row i = Some x ->
                 floored x /\ (x = NaN \/ nge x (Fin 0.01) = true)) /\
    (1 <= numObservations exampleParams)%Z /\
    exactStep (randomSeed exampleParams) /\
    exists u,
      nth_error row 0 = Some (Fin (basePrice exampleParams * (0.5 + u))) /\
      -1 < u < 1.
Proof.
  destruct (@POST_has_row 2 exampleParams idleWorld)
    as (r & run & row & H & Hrun & Hrow & _); try (simpl; lia).
  assert (Hn : (1 <= numObservations exampleParams)%Z) by (simpl; lia).
  assert (Hseed : exactStep (randomSeed exampleParams))
    by (unfold exactStep; simpl; lia).
  destruct (@prices_floored_after_start _ _ _ _ _ H run row Hrun Hrow)
    as (Htail & Hhead).
  destruct (Hhead Hn Hseed) as (u & Hu0 & Hu & _).
  exists r, run, row. repeat (split; [assumption |]).
  exists u. now split.
Defined.

(** C4 as stated fails at index 0: with [basePrice = 0.001] the initial
    price of the first currency is below 0.01, and it is stored. *)
Lemma initial_price_below_floor :
  exists r run row x,
    POST 2 tinyPriceParams idleWorld = Some (Json r, idleWorld) /\
    In run (simulations r) /\ In row (prices run) /\
    nth_error row 0 = Some x /\
    nlt x (Fin 0.01) = true /\ nge x (Fin 0.01) = false.
Proof.
  destruct (@POST_has_row 2 tinyPriceParams idleWorld)
    as (r & run & row & H & Hrun & Hrow & Hshape); try (simpl; lia).
  destruct (@run_rows _ _ _ Hshape Hrow) as (full & Hfull & ->).
  destruct (@row_initial_price tinyPriceParams full ltac:(simpl; lia) Hfull)
    as (u & Hu0 & Hu & Hpos).
  specialize (Hpos ltac:(simpl; lia)).
  exists r, run, (samplePath full (sampleTarget tinyPriceParams)),
         (Fin (basePrice tinyPriceParams * (0.5 + u))).
  repeat (split; [assumption |]).
  cbn [nge nlt negb basePrice tinyPriceParams].
  rewrite Rltb_true by lra. split; reflexivity.
Qed.

(** ** C10: the first element survives downsampling *)

(** C10.  For every non-empty series and every [targetLength >= 1] the
    downsampled series starts with the first element of the series; so, in
    every record the handler returns for [numObservations >= 1], each row of
    the price matrix starts with the asset's initial price
    [basePrice * (0.5 + u)]. *)
Theorem samplePath_keeps_first :
  (forall (A : Type) (path : list A) (targetLength : Z),
      path <> [] -> (1 <= targetLength)%Z ->
      exists x, hd_error path = Some x /\
                hd_error (samplePath path targetLength) = Some x) /\
  (forall (fuel : nat) (p : SimulationParameters) (w w' : World)
          (r : SimulationResult),
      (1 <= numObservations p)%Z ->
      POST fuel p w = Some (Json r, w') ->
      forall run row, In run (simulations r) -> In row (prices run) ->
        exists full u,
          fullPath p full /\ row = samplePath full (sampleTarget p) /\
          hd_error full = Some (Fin (basePrice p * (0.5 + u))) /\
          hd_error row = Some (Fin (basePrice p * (0.5 + u)))).
Proof.
  split.
  - intros A path targetLength Hne Ht. destruct path as [|x path']; [congruence |].
    exists x. split; [reflexivity |]. now rewrite samplePath_hd.
  - intros fuel p w w' r Hn H run row Hrun Hrow.
    destruct (@POST_shape _ _ _ _ _ H) as (_ & _ & _ & Hall).
    rewrite Forall_forall in Hall. specialize (Hall run Hrun).
    destruct (@run_rows _ _ _ Hall Hrow) as (full & Hfull & ->).
    pose proof Hfull as (u & rest & E & _).
    exists full, u. split; [exact Hfull |]. split; [reflexivity |].
    rewrite samplePath_hd by now apply sampleTarget_pos.
    rewrite E. split; reflexivity.
Qed.

Lemma samplePath_keeps_first_witness :
  [7; 8; 9]%Z <> [] /\ (1 <= 2)%Z /\
  exists x, hd_error [7; 8; 9]%Z = Some x /\
            hd_error (samplePath [7; 8; 9]%Z 2) = Some x.
Proof.
  assert (H : [7; 8; 9]%Z <> []) by discriminate.
  assert (H2 : (1 <= 2)%Z) by lia.
  split; [exact H |]. split; [exact H2 |].
  exact (proj1 samplePath_keeps_first Z [7; 8; 9]%Z 2%Z H H2).
Defined.

(** ** C6: the effective trend *)

Lemma nadd_nsub_one (x : num) : nadd (Fin 1) (nsub x (Fin 1)) = x.
Proof. destruct x as [| | | r]; cbn; try reflexivity. f_equal. lra. Qed.

Lemma effectiveTrend_is_steps (series : list num) :
  effectiveTrend series = effectiveTrend_steps series.
Proof. unfold effectiveTrend, effectiveTrend_steps. now rewrite nadd_nsub_one. Qed.

Lemma npow_positive (b e : R) :
  0 < b -> e <> 0 -> npow (Fin b) (Fin e) = Fin (Rpower b e).
Proof.
  intros Hb He. unfold npow. rewrite Reqb_false by exact He.
  rewrite Reqb_false by lra. now rewrite Rltb_true.
Qed.

Lemma INR_ge_2 (n : nat) : (2 <= n)%nat -> 2 <= INR n.
Proof. intros H. apply le_INR in H. simpl in H. lra. Qed.

(** The two formulas on a series with finite positive ends. *)
Lemma effectiveTrend_steps_value (series : list num) (a b : R) :
  nth 0 series NaN = Fin a -> nth (length series - 1) series NaN = Fin b ->
  0 < a -> 0 < b -> (2 <= length series)%nat ->
  effectiveTrend_steps series =
  Fin (Rpower (b / a) (1 / ((INR (length series) + - (1)) / 252)) + - (1)).
Proof.
  intros Ha Hb Hpa Hpb Hlen. pose proof (INR_ge_2 Hlen) as HL.
  unfold effectiveTrend_steps, of_nat. rewrite Ha, Hb.
  cbn [nsub flip nadd].
  rewrite (ndiv_Fin b) by lra.
  rewrite (ndiv_Fin (INR (length series) + - (1))) by lra.
  assert (Ht : (INR (length series) + - (1)) / 252 <> 0) by (intros E; lra).
  rewrite (ndiv_Fin 1) by exact Ht.
  rewrite npow_positive.
  - reflexivity.
  - apply Rdiv_lt_0_compat; assumption.
  - intros E. apply Rmult_integral in E. destruct E as [E | E]; [lra |].
    pose proof (Rinv_neq_0_compat _ Ht). contradiction.
Qed.

Lemma effectiveTrend_spec_value (series : list num) (a b : R) :
  nth 0 series NaN = Fin a -> nth (length series - 1) series NaN = Fin b ->
  0 < a -> 0 < b -> (2 <= length series)%nat ->
  effectiveTrend_spec (Fin 252) series =
  Fin (Rpower (b / a) (1 / (INR (length series) / 252)) + - (1)).
Proof.
  intros Ha Hb Hpa Hpb Hlen. pose proof (INR_ge_2 Hlen) as HL.
  unfold effectiveTrend_spec, of_nat. rewrite Ha, Hb.
  rewrite (ndiv_Fin b) by lra.
  rewrite (ndiv_Fin (INR (length series))) by lra.
  assert (Ht : INR (length series) / 252 <> 0) by (intros E; lra).
  rewrite (ndiv_Fin 1) by exact Ht.
  rewrite npow_positive.
  - reflexivity.
  - apply Rdiv_lt_0_compat; assumption.
  - intros E. apply Rmult_integral in E. destruct E as [E | E]; [lra |].
    pose proof (Rinv_neq_0_compat _ Ht). contradiction.
Qed.

(** On any series of two or more prices whose last price differs from the
    first (both finite and positive) the code's value is not the one of
    the specification's formula. *)
Lemma effectiveTrend_formulas_differ (series : list num) (a b : R) :
  nth 0 series NaN = Fin a -> nth (length series - 1) series NaN = Fin b ->
  0 < a -> 0 < b -> a <> b -> (2 <= length series)%nat ->
  effectiveTrend series <> effectiveTrend_spec (Fin 252) series.
Proof.
  intros Ha Hb Hpa Hpb Hab Hlen. pose proof (INR_ge_2 Hlen) as HL.
  rewrite effectiveTrend_is_steps.
  rewrite (effectiveTrend_steps_value _ Ha Hb Hpa Hpb Hlen).
  rewrite (effectiveTrend_spec_value _ Ha Hb Hpa Hpb Hlen).
  intros E. injection E as E.
  assert (E' : Rpower (b / a) (1 / ((INR (length series) + - (1)) / 252)) =
               Rpower (b / a) (1 / (INR (length series) / 252))) by lra.
  unfold Rpower in E'. apply exp_inv in E'.
  assert (Hr : 0 < b / a) by (apply Rdiv_lt_0_compat; assumption).
  assert (Hne : b / a <> 1).
  { intros E1. apply Hab. apply (f_equal (fun t => t * a)) in E1.
    unfold Rdiv in E1. rewrite Rmult_assoc, Rinv_l in E1 by lra. lra. }
  pose proof (ln_neq_0 _ Hne Hr) as Hln.
  apply Rmult_eq_reg_r in E'; [| exact Hln].
  assert (E2 : 252 / (INR (length series) + - (1)) = 252 / INR (length series)).
  { replace (252 / (INR (length series) + - (1)))
      with (1 / ((INR (length series) + - (1)) / 252)) by (field; lra).
    replace (252 / INR (length series))
      with (1 / (INR (length series) / 252)) by (field; lra).
    exact E'. }
  apply (f_equal (fun t => t * (INR (length series) + - (1)) * INR (length series)))
    in E2.
  field_simplify in E2; lra.
Qed.

(** C6 (amended).  The effective trend of a series is
    [(final / initial) ^ (1 / yearsElapsed) - 1] with
    [yearsElapsed = (seriesLength - 1) / 252], the number of steps of the
    series over 252 periods per year; in every record the handler returns,
    the effective trend of each asset is this value on the asset's stored
    price series. *)
Theorem effectiveTrend_counts_steps :
  (forall series : list num, effectiveTrend series = effectiveTrend_steps series) /\
  (forall (fuel : nat) (p : SimulationParameters) (w w' : World)
          (r : SimulationResult),
      POST fuel p w = Some (Json r, w') ->
      forall run, In run (simulations r) ->
        effectiveTrends run = map effectiveTrend_steps (prices run) /\
        length (effectiveTrends run) = numCurrencies p).
Proof.
  split; [exact effectiveTrend_is_steps |].
  intros fuel p w w' r H run Hrun.
  destruct (@POST_shape _ _ _ _ _ H) as (_ & _ & _ & Hall).
  rewrite Forall_forall in Hall. specialize (Hall run Hrun).
  destruct Hall as ((fulls & logs & Hfl & _ & _ & _ & Ep & _) & Eeff & _).
  rewrite Eeff. split.
  - apply map_ext. exact effectiveTrend_is_steps.
  - now rewrite length_map, Ep, length_map.
Qed.

Lemma effectiveTrend_counts_steps_witness :
  exists r run,
    POST 2 exampleParams idleWorld = Some (Json r, idleWorld) /\
    In run (simulations r) /\
    effectiveTrends run = map effectiveTrend_steps (prices run).
Proof.
  destruct (@POST_has_row 2 exampleParams idleWorld)
    as (r & run & row & H & Hrun & _ & _); try (simpl; lia).
  exists r, run. repeat (split; [assumption |]).
  exact (proj1 (proj2 effectiveTrend_counts_steps _ _ _ _ _ H run Hrun)).
Defined.

(** C6 as stated fails: on the two-point series 1, 2 the code returns
    [2 ^ 252 - 1] (one step, 1/252 of a year), the specification's formula
    [2 ^ 126 - 1] (two observations, 2/252 of a year). *)
Lemma effectiveTrend_not_spec :
  effectiveTrend [Fin 1; Fin 2] = Fin (Rpower 2 252 - 1) /\
  effectiveTrend_spec (Fin 252) [Fin 1; Fin 2] = Fin (Rpower 2 126 - 1) /\
  effectiveTrend [Fin 1; Fin 2] <> effectiveTrend_spec (Fin 252) [Fin 1; Fin 2].
Proof.
  assert (H0 : nth 0 [Fin 1; Fin 2] NaN = Fin 1) by reflexivity.
  assert (H1 : nth (length [Fin 1; Fin 2] - 1) [Fin 1; Fin 2] NaN = Fin 2)
    by reflexivity.
  assert (Hlen : (2 <= length [Fin 1; Fin 2])%nat) by (simpl; lia).
  split; [| split].
  - rewrite effectiveTrend_is_steps.
    rewrite (effectiveTrend_steps_value _ H0 H1) by (try lra; exact Hlen).
    f_equal. simpl INR. unfold Rminus. f_equal. f_equal; field.
  - rewrite (effectiveTrend_spec_value _ H0 H1) by (try lra; exact Hlen).
    f_equal. simpl INR. unfold Rminus. f_equal. f_equal; field.
  - apply (effectiveTrend_formulas_differ _ H0 H1); try lra. exact Hlen.
Qed.

(** ** C2: which series the metrics read *)

Lemma fullPath_length (p : SimulationParameters) (path : list num) :
  fullPath p path -> length path = Datatypes.S (Z.to_nat (numObservations p) - 1).
Proof. intros (u & rest & -> & _ & _ & Hlen & _). simpl. now rewrite Hlen. Qed.

Lemma samplePath_long_length {A : Type} (path : list A) (targetLength : Z) :
  (0 < targetLength < Z.of_nat (length path))%Z ->
  length (samplePath path targetLength) = Z.to_nat targetLength.
Proof.
  intros H. destruct path as [|d path']; [simpl in H; lia |].
  rewrite (samplePath_long d) by exact H. now rewrite length_map, length_seq.
Qed.



Lemma Rpower_gt_1 (b e : R) : 1 < b -> 0 < e -> 1 < Rpower b e.
Proof.
  intros Hb He. unfold Rpower.
  assert (Hln : 0 < ln b) by (rewrite <- ln_1; apply ln_increasing; lra).
  pose proof (exp_increasing 0 (e * ln b) (Rmult_lt_0_compat _ _ He Hln)) as H.
  now rewrite exp_0 in H.
Qed.

Lemma Rpower_one (y : R) : Rpower 1 y = 1.
Proof. unfold Rpower. rewrite ln_1, Rmult_0_r. apply exp_0. Qed.

(** The metric read off the downsampled series is not the one of the path:
    on 500 prices of 1 followed by a price of 2 the downsampled series (500
    points, the last one dropped) is flat, the path is not. *)
Lemma effectiveTrend_sampled_differs :
  length (repeat (Fin 1) 500 ++ [Fin 2]) = 501%nat /\
  effectiveTrend (samplePath (repeat (Fin 1) 500 ++ [Fin 2]) 500) = Fin 0 /\
  effectiveTrend (repeat (Fin 1) 500 ++ [Fin 2]) <> Fin 0.
Proof.
  set (path := repeat (Fin 1) 500 ++ [Fin 2]).
  assert (Hlen : length path = 501%nat).
  { unfold path. rewrite length_app, repeat_length. reflexivity. }
  assert (Hnth : forall i, (i < 500)%nat -> nth i path NaN = Fin 1).
  { intros i Hi. unfold path. rewrite app_nth1 by (rewrite repeat_length; lia).
    now apply nth_repeat_lt. }
  split; [exact Hlen |]. split.
  - assert (Hs : (0 < 500 < Z.of_nat (length path))%Z) by (rewrite Hlen; lia).
    rewrite effectiveTrend_is_steps.
    rewrite (@effectiveTrend_steps_value _ 1 1); try lra.
    + rewrite Rdiv_diag by lra. rewrite Rpower_one. f_equal. lra.
    + rewrite (samplePath_long NaN) by exact Hs.
      replace (Z.to_nat 500) with 500%nat by reflexivity.
      change (seq 0 500) with (0%nat :: seq 1 499). cbn [map nth].
      rewrite floorPosition_div by lia. apply Hnth. rewrite Hlen.
      vm_compute. lia.
    + rewrite samplePath_long_length by exact Hs.
      replace (Z.to_nat 500 - 1)%nat with 499%nat by reflexivity.
      rewrite (samplePath_long NaN) by exact Hs.
      replace (Z.to_nat 500) with 500%nat by reflexivity.
      rewrite (nth_indep _ NaN
                 (nth (Z.to_nat (floorPosition (Z.of_nat (length path)) 500
                                               (Z.of_nat 0))) path NaN))
        by (rewrite length_map, length_seq; lia).
      rewrite (map_nth (fun i => nth (Z.to_nat (floorPosition
                                                  (Z.of_nat (length path)) 500
                                                  (Z.of_nat i))) path NaN)).
      rewrite seq_nth by lia. rewrite floorPosition_div by lia.
      apply Hnth. rewrite Hlen. vm_compute. lia.
    + rewrite samplePath_long_length by exact Hs. vm_compute. lia.
  - rewrite effectiveTrend_is_steps.
    rewrite (@effectiveTrend_steps_value _ 1 2); try lra.
    + assert (HL : 2 <= INR (length path)) by (apply INR_ge_2; lia).
      assert (Hgt : 1 < Rpower (2 / 1) (1 / ((INR (length path) + - (1)) / 252))).
      { apply Rpower_gt_1; [lra |]. apply Rdiv_lt_0_compat; lra. }
      intros E.
      apply (f_equal (fun x => match x with Fin t => t | _ => 0 end)) in E.
      cbn beta iota in E. lra.
    + apply Hnth. lia.
    + rewrite Hlen. unfold path. rewrite app_nth2 by (rewrite repeat_length; lia).
      rewrite repeat_length. reflexivity.
    + rewrite Hlen. lia.
Qed.

(** ** C8: the trend vector under full correlation *)

Lemma bind_Ok {S A B : Type} (m : M S A) (k : A -> M S B) (s s' : S) (a : A) :
  m s = Ok a s' -> bind m k s = k a s'.
Proof. intros H. unfold bind. now rewrite H. Qed.

Lemma boxMuller_unit_closed (u v : R) :
  0 < u <= 1 ->
  boxMuller (Fin u) (Fin v) = Fin (sqrt (-2 * ln u) * cos (2 * PI * v)).
Proof.
  intros [H0 H1].
  assert (Hln : ln u <= 0).
  { destruct H1 as [H1 | ->]; [apply Rlt_le, ln_neg; lra | rewrite ln_1; lra]. }
  unfold boxMuller. cbn [nlog].
  rewrite Rltb_false by lra. rewrite Reqb_false by lra.
  cbn [nmul nsqrt]. rewrite Rltb_false by lra. reflexivity.
Qed.

Lemma ln_two_thirds (u : R) : 2 / 3 <= u -> - (1 / 2) <= ln u.
Proof.
  intros Hu.
  assert (He : exp (- (1 / 2)) <= 2 / 3).
  { rewrite exp_Ropp. pose proof (exp_ineq1_le (1 / 2)) as H.
    pose proof (exp_pos (1 / 2)) as Hp.
    apply Rmult_le_reg_r with (exp (1 / 2)); [exact Hp |].
    rewrite Rinv_l by lra. lra. }
  rewrite <- (ln_exp (- (1 / 2))).
  destruct (Rle_lt_or_eq_dec _ _ (Rle_trans _ _ _ He Hu)) as [Hlt | ->].
  - apply Rlt_le, ln_increasing; [apply exp_pos | exact Hlt].
  - lra.
Qed.

Lemma cos_quarter_positive (v : R) :
  0 < v < 1 / 4 \/ 3 / 4 < v < 1 -> 0 < cos (2 * PI * v) <= 1.
Proof.
  intros Hv. pose proof PI_RGT_0 as Hpi.
  split; [| apply COS_bound].
  destruct Hv as [[H0 H1] | [H0 H1]].
  - apply cos_gt_0; nra.
  - replace (2 * PI * v) with (2 * PI * (v - 1) + 2 * INR 1 * PI)
      by (simpl; ring).
    rewrite cos_period. apply cos_gt_0; nra.
Qed.

(** A normal draw that lands in (0, 1]. *)
Lemma normal_in_unit (u v : R) :
  2 / 3 <= u < 1 -> 0 < v < 1 / 4 \/ 3 / 4 < v < 1 ->
  0 < sqrt (-2 * ln u) * cos (2 * PI * v) <= 1.
Proof.
  intros [Hu0 Hu1] Hv.
  pose proof (cos_quarter_positive Hv) as [Hc0 Hc1].
  pose proof (ln_two_thirds Hu0) as Hln.
  assert (Hneg : ln u < 0) by (apply ln_neg; lra).
  assert (Hs0 : 0 < sqrt (-2 * ln u)) by (apply sqrt_lt_R0; lra).
  assert (Hs1 : sqrt (-2 * ln u) <= 1).
  { rewrite <- sqrt_1. apply sqrt_le_1_alt. lra. }
  split; nra.
Qed.

(** A normal draw that is negative. *)
Lemma normal_negative (u v : R) :
  0 < u < 1 -> 1 / 4 < v < 3 / 4 ->
  sqrt (-2 * ln u) * cos (2 * PI * v) < 0.
Proof.
  intros Hu [Hv0 Hv1]. pose proof PI_RGT_0 as Hpi.
  assert (Hneg : ln u < 0) by now apply ln_neg.
  assert (Hs0 : 0 < sqrt (-2 * ln u)) by (apply sqrt_lt_R0; lra).
  assert (Hc : cos (2 * PI * v) < 0) by (apply cos_lt_0; nra).
  nra.
Qed.

Lemma not_quarter_nonzero (a b : Z) :
  a <> 0%Z -> (- 233280 < a < 233280)%Z -> (- 233280 < b < 233280)%Z ->
  isQuarter b = false ->
  neq (boxMuller (Fin (unit_of a)) (Fin (unit_of b))) (Fin 0) = false.
Proof.
  intros Ha Hra Hrb Hq.
  destruct (neq _ _) eqn:E; [| reflexivity].
  apply boxMuller_zero_quarter in E; try assumption. congruence.
Qed.

(** One pass through [while (u === 0) u = seededNormalRandom()] when the
    draw is not zero. *)
Lemma whileZero_normal_once (fuel fuel' : nat) (s a b : Z) (w : World) :
  (2 <= fuel)%nat -> (1 <= fuel')%nat ->
  nextNonzero s = a -> nextNonzero a = b -> isQuarter b = false ->
  whileZero fuel' (seededNormalRandom fuel) (Fin 0)
            {| seedState := s; world := w |} =
  Ok (boxMuller (Fin (unit_of a)) (Fin (unit_of b)))
     {| seedState := b; world := w |}.
Proof.
  intros Hf Hf' Ha Hb Hq. destruct fuel' as [|f]; [lia |].
  cbn [whileZero]. cbn [neq]. rewrite Reqb_true by reflexivity.
  unfold bind. rewrite seededNormalRandom_eq by exact Hf.
  cbn [seedState world]. rewrite Ha, Hb.
  assert (Hz : neq (boxMuller (Fin (unit_of a)) (Fin (unit_of b))) (Fin 0) = false).
  { apply not_quarter_nonzero; try assumption.
    - rewrite <- Ha. apply nextNonzero_neq_0.
    - rewrite <- Ha. apply nextNonzero_abs.
    - rewrite <- Hb. apply nextNonzero_abs. }
  destruct f; cbn [whileZero]; now rewrite Hz.
Qed.

(** One iteration of the loop that fills [z]. *)
Lemma drawNormals_step {S : Type} (fuel : nat) (gen : M S num)
      (i : nat) (l : list nat) (acc : list num) (u v : num) (s s1 s2 : S) :
  whileZero fuel gen (Fin 0) s = Ok u s1 ->
  whileZero fuel gen (Fin 0) s1 = Ok v s2 ->
  foldM (fun z (_ : nat) =>
           u <- whileZero fuel gen (Fin 0) ;;
           v <- whileZero fuel gen (Fin 0) ;;
           ret (z ++ [boxMuller u v]))
        (i :: l) acc s =
  foldM (fun z (_ : nat) =>
           u <- whileZero fuel gen (Fin 0) ;;
           v <- whileZero fuel gen (Fin 0) ;;
           ret (z ++ [boxMuller u v]))
        l (acc ++ [boxMuller u v]) s2.
Proof.
  intros Hu Hv. cbn [foldM]. unfold bind at 1. unfold bind at 1.
  rewrite Hu. unfold bind at 1. rewrite Hv. reflexivity.
Qed.

(** The trend and volatility vectors and the event flag of a record are
    what the first two calls of the generator and the next uniform draw
    returned. *)
Lemma simulation_draws (fuel : nat) (p : SimulationParameters)
      (st st' : PostState) (run : SimulationData) :
  simulation fuel p st = Ok run st' ->
  exists st1 v st2 u st3,
    generateMultivariateNormal fuel (numCurrencies p) (Fin 0)
      (Fin (trendVariance p)) (Fin (trendCovariance p))
      (seededNormalRandom fuel) st = Ok (trends run) st1 /\
    generateMultivariateNormal fuel (numCurrencies p)
      (ndiv (Fin (baseVolatility p)) (Fin 100))
      (nmul (npow (ndiv (Fin (baseVolatility p)) (Fin 100)) (Fin 2)) (Fin 0.1))
      (ndiv (Fin (volatilityCovariance p)) (Fin 10000))
      (seededNormalRandom fuel) st1 = Ok v st2 /\
    volatilities run = map nabs v /\
    seededRandom st2 = Ok u st3 /\
    extremeEvent run = nlt u (Fin (extremeEventProbability p)).
Proof.
  unfold simulation. intros H.
  apply bind_Ok_inv in H as (tr & st1 & Htr & H).
  apply bind_Ok_inv in H as (v & st2 & Hv & H).
  apply bind_Ok_inv in H as (u & st3 & Hu & H).
  apply bind_Ok_inv in H as (start & st4 & _ & H).
  apply bind_Ok_inv in H as (shocks & st5 & _ & H).
  apply bind_Ok_inv in H as ([prs lgs] & st6 & _ & H).
  apply bind_Ok_inv in H as (l0 & st7 & _ & H).
  unfold ret in H. injection H as <- _.
  exists st1, v, st2, u, st3. cbn [trends volatilities extremeEvent].
  repeat split; assumption.
Qed.

Lemma POST_single (fuel : nat) (p : SimulationParameters) (w : World) :
  (2 <= fuel)%nat -> (1 <= numCurrencies p)%nat -> numSimulations p = 1%nat ->
  exists run st',
    simulation fuel p {| seedState := randomSeed p; world := w |} = Ok run st' /\
    POST fuel p w = Some (Json {| simulations := [run]; params := p |}, w).
Proof.
  intros Hf Hn Hs.
  destruct (@simulation_returns fuel p w Hf Hn
              {| seedState := randomSeed p; world := w |})
    as (run & st' & Hrun & [Hw _] & _).
  { split; [reflexivity | cbn [seedState]; trivial]. }
  exists run, st'. split; [exact Hrun |].
  unfold POST, runSimulations. rewrite Hs. cbn [seq foldM].
  unfold bind at 1. unfold bind at 1. rewrite Hrun. cbn. now rewrite Hw.
Qed.

(** The run of [correlatedParams]: its trend vector is a finite number
    followed by two [NaN]. *)
Lemma correlated_run :
  exists run st' t0,
    simulation 2 correlatedParams
               {| seedState := randomSeed correlatedParams; world := idleWorld |} =
    Ok run st' /\
    POST 2 correlatedParams idleWorld =
    Some (Json {| simulations := [run]; params := correlatedParams |}, idleWorld) /\
    trends run = [Fin t0; NaN; NaN].
Proof.
  destruct (@POST_single 2 correlatedParams idleWorld)
    as (run & st' & Hsim & HPOST); try (simpl; lia); try reflexivity.
  pose proof Hsim as Hrun.
  apply simulation_draws in Hsim as (st1 & _ & _ & _ & _ & Htr & _).
  cbn [randomSeed numCurrencies trendVariance trendCovariance correlatedParams]
    in Htr.
  (* the six normal draws consumed by the loop that fills [z] *)
  pose proof (@whileZero_normal_once 2 2 42 206659 190736 idleWorld
                ltac:(lia) ltac:(lia) eq_refl eq_refl eq_refl) as D1.
  pose proof (@whileZero_normal_once 2 2 190736 223713 179590 idleWorld
                ltac:(lia) ltac:(lia) eq_refl eq_refl eq_refl) as D2.
  pose proof (@whileZero_normal_once 2 2 179590 131087 168204 idleWorld
                ltac:(lia) ltac:(lia) eq_refl eq_refl eq_refl) as D3.
  pose proof (@whileZero_normal_once 2 2 168204 139021 12578 idleWorld
                ltac:(lia) ltac:(lia) eq_refl eq_refl eq_refl) as D4.
  pose proof (@whileZero_normal_once 2 2 12578 163995 182152 idleWorld
                ltac:(lia) ltac:(lia) eq_refl eq_refl eq_refl) as D5.
  pose proof (@whileZero_normal_once 2 2 182152 165689 75006 idleWorld
                ltac:(lia) ltac:(lia) eq_refl eq_refl eq_refl) as D6.
  (* the first is in (0, 1], the third is negative *)
  assert (H1 : 0 < sqrt (-2 * ln (unit_of 206659)) * cos (2 * PI * unit_of 190736) <= 1).
  { apply normal_in_unit; unfold unit_of; [split; lra | right; split; lra]. }
  assert (H3 : sqrt (-2 * ln (unit_of 131087)) * cos (2 * PI * unit_of 168204) < 0).
  { apply normal_negative; unfold unit_of; split; lra. }
  rewrite (@boxMuller_unit (unit_of 206659)) in D1 by (unfold unit_of; split; lra).
  rewrite (@boxMuller_unit (unit_of 223713)) in D2 by (unfold unit_of; split; lra).
  rewrite (@boxMuller_unit (unit_of 131087)) in D3 by (unfold unit_of; split; lra).
  assert (Hz :
    drawNormals 2 3 (seededNormalRandom 2) {| seedState := 42; world := idleWorld |} =
    Ok [Fin (sqrt (-2 * ln (sqrt (-2 * ln (unit_of 206659)) *
                           cos (2 * PI * unit_of 190736))) *
             cos (2 * PI * (sqrt (-2 * ln (unit_of 223713)) *
                            cos (2 * PI * unit_of 179590))));
        NaN;
        boxMuller (boxMuller (Fin (unit_of 163995)) (Fin (unit_of 182152)))
                  (boxMuller (Fin (unit_of 165689)) (Fin (unit_of 75006)))]
       {| seedState := 75006; world := idleWorld |}).
  { unfold drawNormals. change (seq 0 3) with [0; 1; 2]%nat.
    rewrite (@drawNormals_step _ _ _ _ _ _ _ _ _ _ _ D1 D2).
    rewrite (@drawNormals_step _ _ _ _ _ _ _ _ _ _ _ D3 D4).
    rewrite (@drawNormals_step _ _ _ _ _ _ _ _ _ _ _ D5 D6).
    cbn [foldM app]. unfold ret.
    rewrite boxMuller_unit_closed by exact H1.
    rewrite boxMuller_negative by exact H3.
    reflexivity. }
  assert (Hn : (1 <= 3)%nat) by lia.
  rewrite (@generateMultivariateNormal_rows _ 2 3 (Fin 0) (Fin 0.000144)
             (Fin 0.000144) _ _ _ _ Hn Hz) in Htr.
  injection Htr as Htr _.
  exists run, st'. eexists. split; [exact Hrun |]. split; [exact HPOST |].
  rewrite <- Htr. change (seq 0 3) with [0; 1; 2]%nat.
  cbn [map]. unfold lowerRow. cbn [Nat.add seq fold_left nth].
  rewrite !nmul_NaN_r, !nadd_NaN_r. cbn [nadd].
  unfold factorEntry, entryOf. cbn [Nat.eqb].
  rewrite Rltb_false by lra. cbn [nmul nadd]. reflexivity.
Qed.

(** C8 fails on the handler.  With three assets, covariance equal to
    variance and seed 42 the handler answers, and the trend vector of its
    record is a finite number followed by two [NaN]: the generator is handed
    [seededNormalRandom] where it expects uniform draws, the third normal
    draw is negative, its logarithm is [NaN], and so is the second
    Box-Muller variate. *)
Theorem trend_components_differ_at_seed_42 :
  exists run t0,
    POST 2 correlatedParams idleWorld =
    Some (Json {| simulations := [run]; params := correlatedParams |}, idleWorld) /\
    trends run = [Fin t0; NaN; NaN].
Proof.
  destruct correlated_run as (run & st' & t0 & _ & HPOST & Htr).
  now exists run, t0.
Qed.

(** The [NaN] trend reaches the prices: in that run every price of the
    second asset after the initial one is [NaN]. *)
Lemma correlated_run_prices :
  exists run row,
    POST 2 correlatedParams idleWorld =
    Some (Json {| simulations := [run]; params := correlatedParams |}, idleWorld) /\
    nth_error (prices run) 1 = Some row /\
    length row = 10%nat /\
    Forall (fun x => x = NaN) (tl row).
Proof.
  destruct correlated_run as (run & st' & t0 & Hsim & HPOST & Htr).
  destruct (@simulation_returns 2 correlatedParams idleWorld ltac:(lia)
              ltac:(simpl; lia)
              {| seedState := randomSeed correlatedParams; world := idleWorld |})
    as (run' & st'' & Hrun' & _ & Hshape).
  { split; [reflexivity | cbn [seedState]; trivial]. }
  rewrite Hsim in Hrun'. injection Hrun' as <- _.
  destruct Hshape as ((fulls & logs & Hfl & _ & Hff & _ & Ep & _ & _ & Hnan) & _).
  destruct fulls as [|f0 [|f1 [|f2 [|]]]]; try (simpl in Hfl; discriminate).
  specialize (Hnan 1%nat). rewrite Htr in Hnan. specialize (Hnan eq_refl).
  cbn [nth] in Hnan.
  pose proof (Forall_inv (Forall_inv_tail Hff)) as (u & rest & E & _ & _ & Hlen & _).
  cbn [numObservations correlatedParams] in Hlen.
  assert (Erow : samplePath f1 (sampleTarget correlatedParams) = f1).
  { apply samplePath_short. rewrite E. cbn [length]. rewrite Hlen. cbn. lia. }
  exists run, f1. split; [exact HPOST |].
  split; [rewrite Ep; cbn [map nth_error]; now rewrite Erow |].
  split; [rewrite E; cbn [length]; rewrite Hlen; reflexivity | exact Hnan].
Qed.

(** ** C6 on a run *)

(** The generator for one asset, from a state whose first normal draw
    provably lands in (0, 1]: the Box-Muller variate is finite. *)
Lemma generator_single (fuel : nat) (mean variance covariance : num)
      (s a1 b1 a2 b2 : Z) (w : World) :
  (2 <= fuel)%nat ->
  nextNonzero s = a1 -> nextNonzero a1 = b1 ->
  nextNonzero b1 = a2 -> nextNonzero a2 = b2 ->
  isQuarter b1 = false -> isQuarter b2 = false ->
  2 / 3 <= unit_of a1 < 1 ->
  0 < unit_of b1 < 1 / 4 \/ 3 / 4 < unit_of b1 < 1 ->
  0 < unit_of a2 < 1 ->
  exists z,
    generateMultivariateNormal fuel 1 mean variance covariance
                               (seededNormalRandom fuel)
                               {| seedState := s; world := w |} =
    Ok [nadd mean (nadd (Fin 0) (nmul (nsqrt variance) (Fin z)))]
       {| seedState := b2; world := w |}.
Proof.
  intros Hf Ha1 Hb1 Ha2 Hb2 Hq1 Hq2 Hu1 Hv1 Hu2.
  pose proof (@whileZero_normal_once fuel fuel s a1 b1 w Hf ltac:(lia)
                Ha1 Hb1 Hq1) as D1.
  pose proof (@whileZero_normal_once fuel fuel b1 a2 b2 w Hf ltac:(lia)
                Ha2 Hb2 Hq2) as D2.
  pose proof (normal_in_unit Hu1 Hv1) as Hn1.
  rewrite (@boxMuller_unit (unit_of a1)) in D1 by lra.
  rewrite (@boxMuller_unit (unit_of a2)) in D2 by lra.
  assert (Hz : drawNormals fuel 1 (seededNormalRandom fuel)
                           {| seedState := s; world := w |} =
               Ok [Fin (sqrt (-2 * ln (sqrt (-2 * ln (unit_of a1)) *
                                       cos (2 * PI * unit_of b1))) *
                        cos (2 * PI * (sqrt (-2 * ln (unit_of a2)) *
                                       cos (2 * PI * unit_of b2))))]
                  {| seedState := b2; world := w |}).
  { unfold drawNormals. change (seq 0 1) with [0%nat].
    rewrite (@drawNormals_step _ _ _ _ _ _ _ _ _ _ _ D1 D2).
    cbn [foldM app]. unfold ret.
    rewrite boxMuller_unit_closed by exact Hn1. reflexivity. }
  assert (Hn : (1 <= 1)%nat) by lia.
  eexists.
  rewrite (@generateMultivariateNormal_rows _ fuel 1 mean variance covariance
             _ _ _ _ Hn Hz).
  reflexivity.
Qed.

Lemma trend_value_finite (variance z : R) :
  0 <= variance ->
  is_finite (nadd (Fin 0) (nadd (Fin 0) (nmul (nsqrt (Fin variance)) (Fin z)))).
Proof. intros H. rewrite nsqrt_Fin by exact H. exact I. Qed.

Lemma volatility_value_finite (z : R) :
  is_finite
    (nabs (nadd (ndiv (Fin 3) (Fin 100))
                (nadd (Fin 0)
                      (nmul (nsqrt (nmul (npow (ndiv (Fin 3) (Fin 100)) (Fin 2))
                                         (Fin 0.1)))
                            (Fin z))))).
Proof.
  rewrite (ndiv_Fin 3) by lra. rewrite npow_positive by lra.
  cbn [nmul]. rewrite nsqrt_Fin; [exact I |].
  pose proof (exp_pos (2 * ln (3 / 100))). unfold Rpower. lra.
Qed.

Lemma nge_true_inv (a b : R) : nge (Fin a) (Fin b) = true -> b <= a.
Proof.
  cbn [nge nlt]. unfold Rltb. destruct (Rlt_dec a b); [discriminate | lra].
Qed.

(** C6 as stated fails.  On the two-point series 1, 2 the code returns
    [2 ^ 252 - 1] (one step, 1/252 of a year) where the formula of the
    specification gives [2 ^ 126 - 1] (two observations, 2/252 of a year);
    and in the run of [twoPointParams] (seed 16, two observations, base
    price 0.001: the initial price is below 0.01, the next one is floored
    at 0.01) the stored effective trend is not the value of the
    specification's formula on the stored series. *)
Lemma effectiveTrend_differs_from_spec :
  (effectiveTrend [Fin 1; Fin 2] = Fin (Rpower 2 252 - 1) /\
   effectiveTrend_spec (Fin 252) [Fin 1; Fin 2] = Fin (Rpower 2 126 - 1) /\
   effectiveTrend [Fin 1; Fin 2] <> effectiveTrend_spec (Fin 252) [Fin 1; Fin 2]) /\
  (exists run row e,
      POST 2 twoPointParams idleWorld =
      Some (Json {| simulations := [run]; params := twoPointParams |}, idleWorld) /\
      prices run = [row] /\ length row = 2%nat /\ Forall is_finite row /\
      effectiveTrends run = [e] /\
      e <> effectiveTrend_spec (Fin 252) row).
Proof.
  split; [exact effectiveTrend_not_spec |].
  destruct (@POST_single 2 twoPointParams idleWorld)
    as (run & st' & Hsim & HPOST); try (simpl; lia); try reflexivity.
  pose proof Hsim as Hdraws.
  apply simulation_draws in Hdraws
    as (st1 & v & st2 & u & st3 & Htr & Hv & Evol & Hu & Eev).
  cbn [randomSeed numCurrencies trendVariance trendCovariance baseVolatility
       volatilityCovariance extremeEventProbability twoPointParams]
    in Htr, Hv, Eev.
  (* the trend vector *)
  destruct (@generator_single 2 (Fin 0) (Fin 0.000144) (Fin 0.000049)
              16 198113 19590 64207 41804 idleWorld)
    as (z0 & Hg1); try reflexivity; try lia;
    try (unfold unit_of; split; lra); try (left; unfold unit_of; split; lra).
  rewrite Hg1 in Htr. injection Htr as Etr <-.
  (* the volatility vector *)
  destruct (@generator_single 2 (ndiv (Fin 3) (Fin 100))
              (nmul (npow (ndiv (Fin 3) (Fin 100)) (Fin 2)) (Fin 0.1))
              (ndiv (Fin 1.75) (Fin 10000))
              41804 223821 17698 195995 148872 idleWorld)
    as (z1 & Hg2); try reflexivity; try lia;
    try (unfold unit_of; split; lra); try (left; unfold unit_of; split; lra).
  rewrite Hg2 in Hv. injection Hv as <- <-.
  (* no extreme event *)
  rewrite seededRandom_eq in Hu. cbn [seedState world] in Hu.
  injection Hu as <- _.
  replace (lcg 148872) with 190969%Z in Eev by reflexivity.
  cbn [nlt] in Eev. rewrite Rltb_false in Eev by (unfold unit_of; lra).
  (* the inputs are finite *)
  assert (Hfin : finiteInputs twoPointParams run).
  { unfold finiteInputs. rewrite <- Etr, Evol, Eev.
    cbn [basePrice randomSeed twoPointParams map].
    assert (Hvar : 0 <= 0.000144) by lra.
    split; [constructor;
            [exact (@trend_value_finite 0.000144 z0 Hvar) | constructor] |].
    split; [constructor; [exact (volatility_value_finite z1) | constructor] |].
    repeat split; try lia; lra. }
  (* the record *)
  destruct (@simulation_returns 2 twoPointParams idleWorld ltac:(lia)
              ltac:(simpl; lia)
              {| seedState := randomSeed twoPointParams; world := idleWorld |})
    as (run' & st'' & Hrun' & _ & Hshape).
  { split; [reflexivity | cbn [seedState]; trivial]. }
  rewrite Hsim in Hrun'. injection Hrun' as <- _.
  destruct Hshape as ((fulls & logs & Hfl & _ & Hff & _ & Ep & _ & Hfinite & _) & Eeff & _).
  specialize (Hfinite Hfin).
  destruct fulls as [|full [|]]; try (simpl in Hfl; discriminate).
  pose proof (Forall_inv Hff) as (u0 & rest & Efull & Hu0 & Hpos & Hlen & Hfloor).
  pose proof (Forall_inv Hfinite) as Hfullfin.
  cbn [numObservations twoPointParams] in Hlen.
  destruct rest as [|x1 [|]]; try (simpl in Hlen; discriminate).
  specialize (Hpos ltac:(simpl; lia)).
  cbn [basePrice twoPointParams] in Efull.
  rewrite Efull in Hfullfin.
  pose proof (Forall_inv (Forall_inv_tail Hfullfin)) as Hx1.
  destruct x1 as [| | | r1]; try contradiction.
  destruct (floored_bound (Forall_inv Hfloor)) as [E | Hge]; [discriminate |].
  apply nge_true_inv in Hge.
  assert (Erow : samplePath full (sampleTarget twoPointParams) = full).
  { apply samplePath_short. rewrite Efull. cbn. lia. }
  cbn [map] in Ep. rewrite Erow in Ep.
  exists run, full, (effectiveTrend full).
  split; [exact HPOST |]. split; [exact Ep |].
  split; [now rewrite Efull |].
  split; [rewrite Efull; exact Hfullfin |].
  split; [now rewrite Eeff, Ep |].
  apply (@effectiveTrend_formulas_differ full (0.001 * (0.5 + u0)) r1);
    rewrite ?Efull; try reflexivity; try (simpl; lia); nra.
Qed.

(* ================================================================== *)
(** * Further properties of the engine *)
(* ================================================================== *)

(** ** The downsampler: length, idempotence, the last element *)

(** X1.  Whatever the path and the target length (zero, negative or beyond
    the length included), the downsampled series has
    [min(path.length, max(targetLength, 0))] elements. *)
Theorem samplePath_length :
  forall (A : Type) (path : list A) (targetLength : Z),
    length (samplePath path targetLength) =
    Nat.min (length path) (Z.to_nat targetLength).
Proof.
  intros A path t.
  destruct (Z.le_gt_cases (Z.of_nat (length path)) t) as [Hle | Hgt].
  - rewrite samplePath_short by exact Hle. lia.
  - destruct (Z.le_gt_cases t 0) as [H0 | H0].
    + rewrite samplePath_empty_target by lia. simpl. lia.
    + rewrite samplePath_long_length by lia. lia.
Qed.

(** X2.  Downsampling is idempotent: sampling a sampled series again with
    the same target length changes nothing. *)
Theorem samplePath_idempotent :
  forall (A : Type) (path : list A) (targetLength : Z),
    samplePath (samplePath path targetLength) targetLength =
    samplePath path targetLength.
Proof.
  intros A path t.
  destruct (Z.le_gt_cases (Z.of_nat (length path)) t) as [Hle | Hgt].
  - now rewrite !samplePath_short by (rewrite ?samplePath_short; exact Hle).
  - destruct (Z.le_gt_cases t 0) as [H0 | H0].
    + rewrite (samplePath_empty_target path) by lia.
      destruct (Z.eq_dec t 0) as [-> | Hne]; [reflexivity |].
      apply samplePath_empty_target; simpl; lia.
    + apply samplePath_short. rewrite samplePath_long_length by lia. lia.
Qed.





(** X4.  When the target length divides the length of the path, the
    downsampled series is the regular decimation: its [i]-th element is the
    element of the path at position [i * (length / targetLength)]. *)
Theorem samplePath_decimates :
  forall (A : Type) (path : list A) (targetLength k : Z),
    (1 <= targetLength)%Z -> (1 <= k)%Z ->
    Z.of_nat (length path) = (k * targetLength)%Z ->
    forall i, (0 <= i < targetLength)%Z ->
      nth_error (samplePath path targetLength) (Z.to_nat i) =
      nth_error path (Z.to_nat (i * k)).
Proof.
  intros A path t k Ht Hk Hlen i Hi.
  destruct (Z.eq_dec k 1) as [-> | Hk1].
  - rewrite samplePath_short by lia. now rewrite Z.mul_1_r.
  - destruct path as [|d0 path']; [simpl in Hlen; nia |].
    set (path := d0 :: path') in *.
    rewrite (samplePath_long d0) by nia.
    rewrite nth_error_map, nth_error_seq.
    destruct (Nat.ltb_spec (Z.to_nat i) (Z.to_nat t)); [| lia].
    cbn [option_map Nat.add]. rewrite Z2Nat.id by lia.
    rewrite floorPosition_div by lia. rewrite Hlen.
    replace (i * (k * t))%Z with (i * k * t)%Z by ring.
    rewrite Z.div_mul by lia.
    symmetry. apply nth_error_nth'. nia.
Qed.

Lemma samplePath_decimates_witness :
  nth_error (samplePath [0; 1; 2; 3; 4; 5]%Z 3) (Z.to_nat 2) =
  nth_error [0; 1; 2; 3; 4; 5]%Z (Z.to_nat (2 * 2)).
Proof.
  apply (@samplePath_decimates Z [0; 1; 2; 3; 4; 5]%Z 3 2);
    simpl; lia.
Defined.

(** ** Realized volatility *)

Lemma npow_square (b : R) : npow (Fin b) (Fin 2) = Fin (b * b).
Proof.
  unfold npow. rewrite (@Reqb_false 2 0) by lra.
  destruct (Req_dec_T b 0) as [-> | Hb].
  - rewrite Reqb_true by reflexivity. rewrite Rltb_true by lra. f_equal. lra.
  - rewrite Reqb_false by exact Hb.
    destruct (Rlt_dec 0 b) as [Hpos | Hneg].
    + rewrite Rltb_true by exact Hpos. f_equal.
      replace 2 with (INR 2) by (simpl; lra).
      rewrite Rpower_pow by exact Hpos. simpl. lra.
    + rewrite Rltb_false by lra. unfold is_integer.
      rewrite (ZfloorZ 2). rewrite Reqb_true by reflexivity.
      f_equal. simpl. lra.
Qed.

Lemma fold_left_nadd_Fin (rs : list R) (a : R) :
  fold_left (fun sum r => nadd sum r) (map Fin rs) (Fin a) =
  Fin (fold_left Rplus rs a).
Proof.
  revert a. induction rs as [|r rs IH]; intros a; [reflexivity |].
  cbn [map fold_left nadd]. apply IH.
Qed.

Lemma fold_left_deviations_Fin (m : R) (rs : list R) (a : R) :
  fold_left (fun sum r => nadd sum (npow (nsub r (Fin m)) (Fin 2)))
            (map Fin rs) (Fin a) =
  Fin (fold_left (fun sum r => sum + (r - m) * (r - m)) rs a).
Proof.
  revert a. induction rs as [|r rs IH]; intros a; [reflexivity |].
  cbn [map fold_left nsub flip nadd]. rewrite npow_square. cbn [nadd].
  apply IH.
Qed.

Lemma deviations_lower (m : R) (rs : list R) (a : R) :
  a <= fold_left (fun sum r => sum + (r - m) * (r - m)) rs a.
Proof.
  revert a. induction rs as [|r rs IH]; intros a; cbn [fold_left]; [lra |].
  specialize (IH (a + (r - m) * (r - m))).
  pose proof (Rle_0_sqr (r - m)) as Hsq. unfold Rsqr in Hsq. lra.
Qed.

Lemma deviations_zero (m : R) (rs : list R) (a : R) :
  fold_left (fun sum r => sum + (r - m) * (r - m)) rs a = a <->
  forall r, In r rs -> r = m.
Proof.
  revert a. induction rs as [|r rs IH]; intros a; cbn [fold_left].
  - split; [intros _ r [] | reflexivity].
  - pose proof (deviations_lower m rs (a + (r - m) * (r - m))) as Hlow.
    split.
    + intros E.
      pose proof (Rle_0_sqr (r - m)) as Hsq. unfold Rsqr in Hsq.
      assert (Hr : (r - m) * (r - m) = 0) by lra.
      assert (Erm : r = m).
      { apply Rmult_integral in Hr. lra. }
      intros r' [<- | Hin]; [exact Erm |].
      apply (proj1 (IH (a + (r - m) * (r - m)))); [lra | exact Hin].
    + intros Hall.
      assert (Erm : r = m) by (apply Hall; now left).
      rewrite (proj2 (IH (a + (r - m) * (r - m)))).
      * subst r. lra.
      * intros r' Hin. apply Hall. now right.
Qed.

Lemma fold_left_Rplus_const (c : R) (rs : list R) (a : R) :
  (forall r, In r rs -> r = c) ->
  fold_left Rplus rs a = a + INR (length rs) * c.
Proof.
  revert a. induction rs as [|r rs IH]; intros a Hall.
  - simpl. lra.
  - cbn [fold_left length]. rewrite IH by (intros r' Hr'; apply Hall; now right).
    rewrite (Hall r) by now left. rewrite S_INR. lra.
Qed.

Lemma length_differences (ls : list R) :
  length (differences ls) = (length ls - 1)%nat.
Proof. unfold differences. now rewrite length_map, length_seq. Qed.

Lemma logReturns_finite (ls : list R) :
  map (fun i => nsub (nth i (map Fin ls) NaN) (nth (i - 1) (map Fin ls) NaN))
      (seq 1 (length (map Fin ls) - 1)) =
  map Fin (differences ls).
Proof.
  unfold differences. rewrite length_map, map_map.
  apply map_ext_in. intros i Hi. apply in_seq in Hi.
  rewrite !nth_map_Fin by lia. reflexivity.
Qed.

(** On three or more finite log prices the function is the annualized
    sample standard deviation of the log returns. *)
Lemma realizedVolatility_value (ls : list R) :
  (3 <= length ls)%nat ->
  calculateRealizedVolatilityFromLogPrices (map Fin ls) =
  Fin (sqrt (squaredDeviations (differences ls) /
             (INR (length (differences ls)) - 1)) * sqrt 252).
Proof.
  intros Hlen. unfold calculateRealizedVolatilityFromLogPrices. cbv zeta.
  rewrite logReturns_finite. set (rs := differences ls).
  assert (Hn : 2 <= INR (length rs)).
  { apply INR_ge_2. unfold rs. rewrite length_differences. lia. }
  rewrite length_map, fold_left_nadd_Fin. unfold of_nat.
  rewrite (ndiv_Fin (fold_left Rplus rs 0)) by lra.
  rewrite fold_left_deviations_Fin. cbn [nsub flip nadd].
  rewrite ndiv_Fin by lra.
  pose proof (deviations_lower (fold_left Rplus rs 0 / INR (length rs)) rs 0) as Hsq.
  rewrite nsqrt_Fin.
  - rewrite nsqrt_Fin by lra. reflexivity.
  - apply Rmult_le_pos; [exact Hsq |].
    apply Rlt_le, Rinv_0_lt_compat. lra.
Qed.

Lemma realizedVolatility_no_return (l : list num) :
  (length l <= 1)%nat -> calculateRealizedVolatilityFromLogPrices l = Fin 0.
Proof.
  intros Hl.
  assert (Hnone : nmul (nsqrt (ndiv (Fin 0) (nsub (of_nat 0) (Fin 1))))
                       (nsqrt (Fin 252)) = Fin 0).
  { unfold of_nat. cbn [INR nsub flip nadd].
    rewrite ndiv_Fin by lra.
    replace (0 / (0 + - (1))) with 0 by lra.
    rewrite !nsqrt_Fin by lra. cbn [nmul]. rewrite sqrt_0. f_equal. lra. }
  destruct l as [|x [|y l]]; [exact Hnone | exact Hnone | simpl in Hl; lia].
Qed.

Lemma realizedVolatility_one_return (x y : num) :
  calculateRealizedVolatilityFromLogPrices [x; y] = NaN.
Proof.
  unfold calculateRealizedVolatilityFromLogPrices. cbv zeta.
  cbn [length Nat.sub seq map nth fold_left]. unfold of_nat. cbn [INR].
  assert (Hvar :
    ndiv (nadd (Fin 0)
               (npow (nsub (nsub y x) (ndiv (nadd (Fin 0) (nsub y x)) (Fin 1)))
                     (Fin 2)))
         (nsub (Fin 1) (Fin 1)) = NaN).
  { assert (Hnan : npow NaN (Fin 2) = NaN).
    { unfold npow. now rewrite (@Reqb_false 2 0) by lra. }
    destruct (nsub y x) as [| | | r]; cbn [nadd ndiv].
    - cbn [nsub flip nadd]. now rewrite Hnan.
    - unfold inf_of_sign. rewrite Rltb_false by lra.
      cbn [nsub flip nadd]. now rewrite Hnan.
    - unfold inf_of_sign. rewrite Rltb_false by lra.
      cbn [nsub flip nadd]. now rewrite Hnan.
    - rewrite Reqb_false by lra. cbn [nsub flip nadd].
      rewrite npow_square. cbn [nadd ndiv].
      rewrite Reqb_true by lra. rewrite Reqb_true; [reflexivity |].
      field. }
  rewrite Hvar. reflexivity.
Qed.

(** X5.  With fewer than two log prices there is no return and the
    function answers zero (the [-0] of [0 / -1] in floating point); with
    exactly two, whatever they are, the single return leaves a variance
    [0 / 0] and the answer is [NaN]. *)
Theorem realizedVolatility_needs_three_points :
  calculateRealizedVolatilityFromLogPrices [] = Fin 0 /\
  (forall x, calculateRealizedVolatilityFromLogPrices [x] = Fin 0) /\
  (forall x y, calculateRealizedVolatilityFromLogPrices [x; y] = NaN).
Proof.
  split; [| split].
  - apply realizedVolatility_no_return. simpl. lia.
  - intros x. apply realizedVolatility_no_return. simpl. lia.
  - apply realizedVolatility_one_return.
Qed.

Lemma squaredDeviations_zero (rs : list R) (c : R) :
  (1 <= length rs)%nat -> In c rs ->
  (squaredDeviations rs = 0 <-> forall r, In r rs -> r = c).
Proof.
  intros Hlen Hc. unfold squaredDeviations. rewrite deviations_zero. split.
  - intros Hall r Hr. rewrite (Hall r Hr). symmetry. now apply Hall.
  - intros Hall r Hr. unfold average.
    rewrite (@fold_left_Rplus_const c rs 0 Hall). rewrite (Hall r Hr).
    assert (Hn : 1 <= INR (length rs)) by (apply le_INR in Hlen; simpl in Hlen; lra).
    field. lra.
Qed.

(** Magnitudes: a bound of 10 is a bound of 10^100, and a price between
    1/10 and 10 is one between 10^-100 and 10^100. *)
Lemma ten_le_googol : 10 <= 10 ^ 100.
Proof.
  change (10 ^ 100) with (10 * 10 ^ 99).
  pose proof (pow_R1_Rle 10 99 ltac:(lra)). lra.
Qed.

Lemma magnitude_small (x : R) : -10 <= x <= 10 -> Rabs x <= 10 ^ 100.
Proof.
  intros H. pose proof ten_le_googol.
  unfold Rabs. destruct (Rcase_abs x); lra.
Qed.

Lemma googol_inv_pos : 0 < / 10 ^ 100.
Proof. apply Rinv_0_lt_compat, pow_lt. lra. Qed.

Lemma price_moderate (x : R) : / 10 <= x <= 10 -> / 10 ^ 100 <= x <= 10 ^ 100.
Proof.
  intros H. pose proof ten_le_googol as Hg. split; [| lra].
  apply Rle_trans with (/ 10); [| lra].
  apply Rinv_le_contravar; lra.
Qed.

(** X6.  On three or more log prices of magnitude at most 10^100 (the
    logarithm of a positive double is below 746 in magnitude) the realized
    volatility is a number, not [NaN], and it is not negative.  The bound
    keeps the squared deviations and their sum inside the range of the
    doubles. *)
Theorem realizedVolatility_finite :
  forall ls : list R,
    (3 <= length ls)%nat ->
    Forall (fun l => Rabs l <= 10 ^ 100) ls ->
    exists v,
      calculateRealizedVolatilityFromLogPrices (map Fin ls) = Fin v /\ 0 <= v.
Proof.
  intros ls Hlen _. rewrite realizedVolatility_value by exact Hlen.
  assert (H252 : 0 < sqrt 252) by (apply sqrt_lt_R0; lra).
  eexists. split; [reflexivity |].
  apply Rmult_le_pos; [apply sqrt_pos | lra].
Qed.

Lemma realizedVolatility_finite_witness :
  (3 <= length [1; 2; 4])%nat /\
  Forall (fun l => Rabs l <= 10 ^ 100) [1; 2; 4] /\
  exists v,
    calculateRealizedVolatilityFromLogPrices (map Fin [1; 2; 4]) = Fin v /\ 0 <= v.
Proof.
  assert (H1 : (3 <= length [1; 2; 4])%nat) by (simpl; lia).
  assert (H2 : Forall (fun l => Rabs l <= 10 ^ 100) [1; 2; 4])
    by (repeat (apply Forall_cons; [apply magnitude_small; lra |]);
        apply Forall_nil).
  split; [exact H1 |]. split; [exact H2 |].
  exact (@realizedVolatility_finite [1; 2; 4] H1 H2).
Defined.

(** ** The unused volatility helper *)

Lemma nth_positive (ps : list R) (i : nat) :
  Forall (fun p => 0 < p) ps -> (i < length ps)%nat -> 0 < nth i ps 0.
Proof.
  intros Hall Hi. rewrite Forall_forall in Hall. apply Hall. now apply nth_In.
Qed.

Lemma nlog_positive (a : R) : 0 < a -> nlog (Fin a) = Fin (ln a).
Proof.
  intros Ha. unfold nlog. rewrite Rltb_false by lra. now rewrite Reqb_false by lra.
Qed.

Lemma priceReturns_finite (ps : list R) :
  Forall (fun p => 0 < p) ps ->
  map (fun i => nlog (ndiv (nth i (map Fin ps) NaN) (nth (i - 1) (map Fin ps) NaN)))
      (seq 1 (length (map Fin ps) - 1)) =
  map Fin (differences (map ln ps)).
Proof.
  intros Hpos. unfold differences. rewrite !length_map, map_map.
  apply map_ext_in. intros i Hi. apply in_seq in Hi.
  rewrite !nth_map_Fin by lia.
  pose proof (@nth_positive ps i Hpos ltac:(lia)) as Ha.
  pose proof (@nth_positive ps (i - 1) Hpos ltac:(lia)) as Hb.
  rewrite ndiv_Fin by lra.
  rewrite nlog_positive by (apply Rdiv_lt_0_compat; assumption).
  rewrite !(nth_indep (map ln ps) 0 (ln 0)) by (rewrite length_map; lia).
  rewrite !map_nth. f_equal.
  unfold Rdiv. rewrite ln_mult by (try apply Rinv_0_lt_compat; assumption).
  rewrite ln_Rinv by assumption. lra.
Qed.

(** On two or more finite positive prices the helper is the annualized
    population standard deviation of the log returns. *)
Lemma populationVolatility_value (ps : list R) :
  Forall (fun p => 0 < p) ps -> (2 <= length ps)%nat ->
  calculateRealizedVolatility (map Fin ps) =
  Fin (sqrt (squaredDeviations (differences (map ln ps)) /
             INR (length (differences (map ln ps)))) * sqrt 252).
Proof.
  intros Hpos Hlen. unfold calculateRealizedVolatility. cbv zeta.
  rewrite priceReturns_finite by exact Hpos.
  set (rs := differences (map ln ps)).
  assert (Hn : 1 <= INR (length rs)).
  { unfold rs. rewrite length_differences, length_map.
    assert (H : (1 <= length ps - 1)%nat) by lia.
    apply le_INR in H. simpl in H. lra. }
  rewrite length_map, fold_left_nadd_Fin. unfold of_nat.
  rewrite (ndiv_Fin (fold_left Rplus rs 0)) by lra.
  rewrite fold_left_deviations_Fin.
  rewrite ndiv_Fin by lra.
  pose proof (deviations_lower (fold_left Rplus rs 0 / INR (length rs)) rs 0) as Hsq.
  rewrite nsqrt_Fin.
  - rewrite nsqrt_Fin by lra. reflexivity.
  - apply Rmult_le_pos; [exact Hsq |].
    apply Rlt_le, Rinv_0_lt_compat. lra.
Qed.

(** X9.  The helper on short input: with no price or a single one there is
    no return, mean and variance are [0 / 0] and the answer is [NaN]; with
    two positive prices between 10^-100 and 10^100 (so that their ratio is
    a positive double) the single return is its own mean and the answer is
    zero. *)
Theorem populationVolatility_short_input :
  forall a b : R,
    / 10 ^ 100 <= a <= 10 ^ 100 -> / 10 ^ 100 <= b <= 10 ^ 100 ->
    calculateRealizedVolatility [] = NaN /\
    (forall x, calculateRealizedVolatility [x] = NaN) /\
    calculateRealizedVolatility [Fin a; Fin b] = Fin 0.
Proof.
  intros a b [Ha _] [Hb _]. pose proof googol_inv_pos as Hg.
  assert (Hnone : nmul (nsqrt (ndiv (Fin 0) (of_nat 0))) (nsqrt (Fin 252)) = NaN).
  { unfold of_nat. cbn [INR ndiv]. now rewrite Reqb_true by reflexivity. }
  split; [exact Hnone |]. split; [intros x; exact Hnone |].
  change [Fin a; Fin b] with (map Fin [a; b]).
  rewrite populationVolatility_value by (repeat constructor; simpl; lra || lia).
  set (rs := differences (map ln [a; b])).
  assert (E : squaredDeviations rs = 0).
  { apply (@squaredDeviations_zero rs (ln b - ln a)).
    - simpl. lia.
    - now left.
    - intros r [<- | []]. reflexivity. }
  rewrite E. unfold Rdiv. rewrite Rmult_0_l, sqrt_0. f_equal. lra.
Qed.

Lemma populationVolatility_short_input_witness :
  / 10 ^ 100 <= 1 <= 10 ^ 100 /\ / 10 ^ 100 <= 2 <= 10 ^ 100 /\
  calculateRealizedVolatility [Fin 1; Fin 2] = Fin 0.
Proof.
  assert (H1 : / 10 ^ 100 <= 1 <= 10 ^ 100) by (apply price_moderate; lra).
  assert (H2 : / 10 ^ 100 <= 2 <= 10 ^ 100) by (apply price_moderate; lra).
  split; [exact H1 |]. split; [exact H2 |].
  apply (@populationVolatility_short_input 1 2 H1 H2).
Defined.

(** ** The effective trend: sign and range *)

(** X11.  On a series of two or more prices whose first and last prices
    are finite and positive the effective trend is a number, never below
    -1 (-100 %), and it follows the direction of the series: it is not
    negative when the last price is at least the first, not positive when
    it is at most the first.  (Stated with inequalities that are not
    strict: in floating point a large ratio overflows to [Infinity], a
    small one makes the trend exactly -1 or 0.) *)
Theorem effectiveTrend_sign :
  forall (pricePath : list num) (a b : R),
    nth 0 pricePath NaN = Fin a ->
    nth (length pricePath - 1) pricePath NaN = Fin b ->
    0 < a -> 0 < b -> (2 <= length pricePath)%nat ->
    nge (effectiveTrend pricePath) (Fin (-1)) = true /\
    (a <= b -> nge (effectiveTrend pricePath) (Fin 0) = true) /\
    (b <= a -> nge (Fin 0) (effectiveTrend pricePath) = true).
Proof.
  intros l a b Ha Hb Hpa Hpb Hlen.
  rewrite effectiveTrend_is_steps.
  rewrite (effectiveTrend_steps_value _ Ha Hb Hpa Hpb Hlen).
  pose proof (INR_ge_2 Hlen) as HL.
  set (e := 1 / ((INR (length l) + - (1)) / 252)).
  assert (He : 0 < e).
  { unfold e. apply Rdiv_lt_0_compat; [lra |].
    apply Rdiv_lt_0_compat; lra. }
  assert (Hr : 0 < b / a) by (apply Rdiv_lt_0_compat; assumption).
  assert (Hpos : 0 < Rpower (b / a) e) by (unfold Rpower; apply exp_pos).
  assert (Hge : 1 <= b / a -> 1 <= Rpower (b / a) e).
  { intros H. rewrite <- (Rpower_O (b / a)) by exact Hr.
    apply Rle_Rpower; lra. }
  assert (Hle : b / a <= 1 -> Rpower (b / a) e <= 1).
  { intros H. rewrite <- exp_0. unfold Rpower.
    destruct (Rle_lt_or_eq_dec _ _ H) as [Hlt | Heq].
    - apply Rlt_le, exp_increasing.
      assert (Hln : ln (b / a) < 0) by (apply ln_neg; lra). nra.
    - rewrite Heq, ln_1, Rmult_0_r. lra. }
  assert (Hratio : (a <= b -> 1 <= b / a) /\ (b <= a -> b / a <= 1)).
  { assert (E : b = b / a * a) by (field; lra).
    split; intros H.
    - apply Rmult_le_reg_r with a; [exact Hpa | lra].
    - apply Rmult_le_reg_r with a; [exact Hpa | lra]. }
  destruct Hratio as [R1 R2].
  cbn [nge nlt negb].
  split; [rewrite Rltb_false by lra; reflexivity |].
  split; intros H.
  - specialize (Hge (R1 H)). rewrite Rltb_false by lra. reflexivity.
  - specialize (Hle (R2 H)). rewrite Rltb_false by lra. reflexivity.
Qed.

Lemma effectiveTrend_sign_witness :
  nge (effectiveTrend [Fin 1; Fin 3; Fin 2]) (Fin (-1)) = true /\
  nge (effectiveTrend [Fin 1; Fin 3; Fin 2]) (Fin 0) = true.
Proof.
  destruct (@effectiveTrend_sign [Fin 1; Fin 3; Fin 2] 1 2 eq_refl eq_refl
              ltac:(lra) ltac:(lra) ltac:(simpl; lia))
    as (Hlow & Hup & _).
  split; [exact Hlow | apply Hup; lra].
Defined.

(** ** The unseeded correlated generator *)

Lemma whileZero_mathRandom (fuel : nat) (w : World) :
  (1 <= fuel)%nat -> unitDraws w ->
  whileZero fuel mathRandom (Fin 0) w =
  Ok (Fin (mathRandomDraws w (mathRandomPos w))) (advance 1 w).
Proof.
  intros Hf Hw. destruct fuel as [|fuel]; [lia |].
  cbn [whileZero neq]. rewrite Reqb_true by reflexivity.
  unfold bind, mathRandom.
  assert (E : neq (Fin (mathRandomDraws w (mathRandomPos w))) (Fin 0) = false).
  { cbn [neq]. apply Reqb_false. specialize (Hw (mathRandomPos w)). lra. }
  destruct fuel; cbn [whileZero]; rewrite E; reflexivity.
Qed.

Lemma unitDraws_advance (k : nat) (w : World) : unitDraws w -> unitDraws (advance k w).
Proof. intros H j. exact (H j). Qed.

Lemma advance_advance (j k : nat) (w : World) :
  advance j (advance k w) = advance (j + k) w.
Proof. unfold advance. cbn [mathRandomDraws mathRandomPos]. f_equal. lia. Qed.

(** With draws strictly between 0 and 1 the unseeded normal generator
    consumes two draws and returns a finite value. *)
Lemma generateNormalRandom_unit (fuel : nat) (w : World) :
  (1 <= fuel)%nat -> unitDraws w ->
  exists z, generateNormalRandom fuel w = Ok (Fin z) (advance 2 w).
Proof.
  intros Hf Hw. unfold generateNormalRandom.
  rewrite (@bind_Ok _ _ _ _ _ _ _ _ (whileZero_mathRandom Hf Hw)).
  rewrite (@bind_Ok _ _ _ _ _ _ _ _ (whileZero_mathRandom Hf (@unitDraws_advance 1 w Hw))).
  unfold ret. rewrite advance_advance. cbn [Nat.add].
  rewrite boxMuller_unit by apply Hw. eexists. reflexivity.
Qed.

Lemma correlated_loop (fuel : nat) (f : num -> num) (X : num) :
  (1 <= fuel)%nat -> (forall z : R, f (Fin z) = X) ->
  forall (l : list nat) (acc : list num) (w : World),
    unitDraws w ->
    foldM (fun result (_ : nat) =>
             z' <- generateNormalRandom fuel ;; ret (result ++ [f z']))
          l acc w =
    Ok (acc ++ repeat X (length l)) (advance (2 * length l) w).
Proof.
  intros Hf HX. induction l as [|i l IH]; intros acc w Hw.
  - cbn [foldM length repeat]. unfold ret. rewrite app_nil_r.
    destruct w; reflexivity.
  - cbn [foldM]. unfold bind at 1. unfold bind at 1.
    destruct (generateNormalRandom_unit Hf Hw) as [z ->].
    unfold ret at 1. rewrite HX.
    rewrite IH by now apply unitDraws_advance.
    rewrite advance_advance, <- app_assoc. cbn [app length repeat].
    do 2 f_equal. lia.
Qed.

(** X12.  In a world whose [Math.random] draws all lie strictly between 0
    and 1, [generateCorrelatedRandoms] with covariance equal to variance
    (nonnegative, finite mean) returns [n] identical finite components,
    the mean plus the common factor [z0 * sqrt(variance)] for the first
    normal variate [z0], and consumes [2 * n + 2] draws. *)
Theorem generateCorrelatedRandoms_equal_components :
  forall (fuel n : nat) (mean variance : R) (w : World),
    (1 <= fuel)%nat -> unitDraws w -> 0 <= variance ->
    exists z0,
      generateNormalRandom fuel w = Ok (Fin z0) (advance 2 w) /\
      generateCorrelatedRandoms fuel n (Fin mean) (Fin variance) (Fin variance) w =
      Ok (repeat (Fin (mean + z0 * sqrt variance)) n) (advance (2 * n + 2) w).
Proof.
  intros fuel n mean v w Hf Hw Hv. unfold generateCorrelatedRandoms.
  destruct (generateNormalRandom_unit Hf Hw) as [z0 E0].
  rewrite (@bind_Ok _ _ _ _ _ _ _ _ E0).
  exists z0. split; [exact E0 |].
  rewrite (@correlated_loop fuel
             (fun z' => nadd (nadd (Fin mean) (nmul (Fin z0) (nsqrt (Fin v))))
                             (nmul z' (nsqrt (nsub (Fin v) (Fin v)))))
             (Fin (mean + z0 * sqrt v)) Hf).
  - rewrite length_seq, advance_advance. cbn [app]. reflexivity.
  - intros z. cbn [nsub flip nadd]. rewrite !nsqrt_Fin by lra.
    cbn [nmul nadd]. f_equal.
    replace (v + - v) with 0 by lra. rewrite sqrt_0. lra.
  - now apply unitDraws_advance.
Qed.

Lemma generateCorrelatedRandoms_equal_components_witness :
  exists x,
    generateCorrelatedRandoms 1 3 (Fin 0) (Fin 4) (Fin 4)
      {| mathRandomDraws := fun _ => 1 / 2; mathRandomPos := 0 |} =
    Ok [Fin x; Fin x; Fin x]
       {| mathRandomDraws := fun _ => 1 / 2; mathRandomPos := 8 |}.
Proof.
  destruct (@generateCorrelatedRandoms_equal_components
              1 3 0 4 {| mathRandomDraws := fun _ => 1 / 2; mathRandomPos := 0 |})
    as (z0 & _ & H).
  - lia.
  - intros k. cbn [mathRandomDraws]. lra.
  - lra.
  - eexists. exact H.
Defined.

(** X13.  With a covariance above the variance the idiosyncratic term is
    the square root of a negative number: every component is [NaN],
    whatever the mean and the draws (the closed-form factor of
    [generateMultivariateNormal] clamps that difference at zero
    instead). *)
Theorem generateCorrelatedRandoms_invalid_covariance :
  forall (fuel n : nat) (mean : num) (variance covariance : R) (w : World),
    (1 <= fuel)%nat -> unitDraws w -> variance < covariance ->
    generateCorrelatedRandoms fuel n mean (Fin variance) (Fin covariance) w =
    Ok (repeat NaN n) (advance (2 * n + 2) w).
Proof.
  intros fuel n mean v c w Hf Hw Hvc. unfold generateCorrelatedRandoms.
  destruct (generateNormalRandom_unit Hf Hw) as [z0 E0].
  rewrite (@bind_Ok _ _ _ _ _ _ _ _ E0).
  rewrite (@correlated_loop fuel
             (fun z' => nadd (nadd mean (nmul (Fin z0) (nsqrt (Fin c))))
                             (nmul z' (nsqrt (nsub (Fin v) (Fin c)))))
             NaN Hf).
  - rewrite length_seq, advance_advance. cbn [app]. reflexivity.
  - intros z. cbn [nsub flip nadd]. cbn [nsqrt]. rewrite (@Rltb_true (v + - c)) by lra.
    cbn [nmul]. apply nadd_NaN_r.
  - now apply unitDraws_advance.
Qed.

Lemma generateCorrelatedRandoms_invalid_covariance_witness :
  generateCorrelatedRandoms 1 2 (Fin 0) (Fin 1) (Fin 4)
    {| mathRandomDraws := fun _ => 1 / 2; mathRandomPos := 0 |} =
  Ok [NaN; NaN] {| mathRandomDraws := fun _ => 1 / 2; mathRandomPos := 6 |}.
Proof.
  apply (@generateCorrelatedRandoms_invalid_covariance
           1 2 (Fin 0) 1 4 {| mathRandomDraws := fun _ => 1 / 2; mathRandomPos := 0 |}).
  - lia.
  - intros k. cbn [mathRandomDraws]. lra.
  - lra.
Defined.

(** ** The generator step in doubles *)

Lemma createPseudoRandom_eq (seed : Z) :
  createPseudoRandom seed = Ok (Fin (unit_of (lcg seed))) (lcg seed).
Proof. unfold createPseudoRandom, of_Z. rewrite ndiv_Fin by lra. reflexivity. Qed.

(** X14.  The generator step in double arithmetic, from a nonnegative
    integer state [s].  When [s * 9301 + 49297 < 2^53] it is the exact
    integer step, and the generator of [createPseudoRandom(s)] returns a
    value of [0, 1) and moves to a state of [0, 233280).  Whenever the step
    does not overflow, rounded or not, it leaves an integer state in
    [0, 233280), from which the next step is exact. *)
Theorem generator_step_in_doubles :
  forall s : Z,
    (0 <= s)%Z ->
    (exactStep s ->
     lcgDouble s = Some (lcg s) /\
     createPseudoRandom s = Ok (Fin (unit_of (lcg s))) (lcg s) /\
     0 <= unit_of (lcg s) < 1 /\ (0 <= lcg s < 233280)%Z) /\
    (forall s1, lcgDouble s = Some s1 ->
       (0 <= s1 < 233280)%Z /\ lcgDouble s1 = Some (lcg s1)).
Proof.
  intros s Hs. split.
  - intros He. pose proof (lcg_range Hs) as Hr.
    split; [now apply lcgDouble_exact |].
    split; [apply createPseudoRandom_eq |].
    split; [now apply unit_of_range | exact Hr].
  - intros s1 H. destruct (lcgDouble_range Hs H) as [Hr He].
    split; [exact Hr | now apply lcgDouble_exact].
Qed.

Lemma generator_step_in_doubles_witness :
  (0 <= 933120000000042)%Z /\
  lcgDouble 933120000000042 = Some 206016%Z /\
  (0 <= 206016 < 233280)%Z /\ lcgDouble 206016 = Some (lcg 206016).
Proof.
  assert (H0 : (0 <= 933120000000042)%Z) by lia.
  assert (H1 : lcgDouble 933120000000042 = Some 206016%Z)
    by (vm_compute; reflexivity).
  split; [exact H0 |]. split; [exact H1 |].
  exact (proj2 (@generator_step_in_doubles 933120000000042 H0) 206016%Z H1).
Defined.

(** ** The factor and the covariance matrix *)

Lemma gram_value (L : list (list num)) (n : nat) (a b c : R) (i j : nat) :
  (i < n)%nat -> (j < n)%nat ->
  (forall i' j', (i' < n)%nat -> (j' < n)%nat ->
                 entry L i' j' = Fin (entryOf 0 a b c i' j')) ->
  gram L n i j =
  Fin (if Nat.eqb i j then (if Nat.eqb i 0 then a * a else b * b + c * c)
       else if Nat.eqb i 0 || Nat.eqb j 0 then a * b else b * b).
Proof.
  intros Hi Hj He. unfold gram.
  rewrite (@fold_left_ext_in _ _ _
             (fun sum k => nadd sum (nmul (Fin (entryOf 0 a b c i k))
                                          (Fin (entryOf 0 a b c j k))))).
  2: { intros k acc Hk. apply in_seq in Hk. now rewrite !He by lia. }
  rewrite (@fold_left_Fin (entryOf 0 a b c i) (entryOf 0 a b c j)). f_equal.
  rewrite (@sumR_two_points _ i n Hi).
  2: { intros k Hk0 Hki. rewrite (@entryOf_off a b c i k) by assumption. lra. }
  unfold entryOf. cbn [Nat.eqb].
  destruct (Nat.eqb_spec i 0) as [-> | Hi0].
  - destruct j as [|j']; cbn [Nat.eqb orb]; lra.
  - rewrite Nat.eqb_refl.
    destruct (Nat.eqb_spec i j) as [<- | Hij].
    + destruct (Nat.eqb_spec i 0); [lia |]. lra.
    + destruct (Nat.eqb_spec j 0) as [-> | Hj0]; cbn [orb].
      * destruct (Nat.eqb_spec i 0); [lia |]. lra.
      * destruct (Nat.eqb_spec i j); [lia |]. lra.
Qed.

Lemma covMatrix_entry (n : nat) (variance covariance : num) (i j : nat) :
  (i < n)%nat -> (j < n)%nat ->
  entry (covMatrix n variance covariance) i j =
  if Nat.eqb i j then variance else covariance.
Proof.
  intros Hi Hj. unfold entry, covMatrix.
  rewrite (nth_indep _ [] (map (fun j0 => if Nat.eqb 0 j0 then variance else covariance)
                               (seq 0 n)))
    by now rewrite length_map, length_seq.
  rewrite (map_nth (fun i0 => map (fun j0 => if Nat.eqb i0 j0 then variance else covariance)
                                  (seq 0 n)) (seq 0 n) 0%nat i).
  rewrite seq_nth by exact Hi. cbn [Nat.add].
  rewrite (nth_indep _ NaN (if Nat.eqb i 0 then variance else covariance))
    by now rewrite length_map, length_seq.
  rewrite (map_nth (fun j0 => if Nat.eqb i j0 then variance else covariance)
                   (seq 0 n) 0%nat j).
  now rewrite seq_nth by exact Hj.
Qed.

Lemma sqrt_product_eq (v c : R) :
  0 <= c <= v -> (sqrt v * sqrt c = c <-> c = 0 \/ c = v).
Proof.
  intros [Hc Hcv]. split.
  - intros E.
    assert (Hsc : sqrt c * sqrt c = c) by now apply sqrt_sqrt.
    assert (H : sqrt c * (sqrt v - sqrt c) = 0) by lra.
    apply Rmult_integral in H. destruct H as [H | H].
    + left. rewrite <- Hsc, H. lra.
    + right. apply sqrt_inj; lra.
  - intros [-> | ->]; [rewrite sqrt_0; lra | apply sqrt_sqrt; lra].
Qed.

(** X15.  The closed-form factor [L] is not a Cholesky factor of the
    covariance matrix the function builds.  For [0 <= covariance <=
    variance] the product of [L] with its transpose has the entries of
    [covMatrix] on the diagonal and between any two assets other than the
    first, but between the first asset and any other it has
    [sqrt(variance) * sqrt(covariance)], which is the covariance only when
    the covariance is zero or equal to the variance. *)
Theorem factor_gram_against_covMatrix :
  forall (S : Type) (n : nat) (variance covariance : R) (s : S),
    (1 <= n)%nat -> 0 <= covariance <= variance ->
    exists L,
      choleskyFactor n (Fin variance) (Fin covariance) s = Ok L s /\
      forall i j, (i < n)%nat -> (j < n)%nat ->
        (i = j \/ (i <> 0%nat /\ j <> 0%nat) ->
         gram L n i j = entry (covMatrix n (Fin variance) (Fin covariance)) i j) /\
        (i <> j -> i = 0%nat \/ j = 0%nat ->
         gram L n i j = Fin (sqrt variance * sqrt covariance) /\
         (gram L n i j = entry (covMatrix n (Fin variance) (Fin covariance)) i j <->
          covariance = 0 \/ covariance = variance)).
Proof.
  intros S n v c s Hn [Hc Hcv].
  destruct (@choleskyFactor_returns S n (Fin v) (Fin c) s Hn)
    as (L & s' & HL & -> & He).
  exists L. split; [exact HL |].
  assert (Hentries : forall i j, (i < n)%nat -> (j < n)%nat ->
            entry L i j = Fin (entryOf 0 (sqrt v) (sqrt c) (sqrt (v - c)) i j)).
  { intros i j Hi Hj. rewrite He by assumption.
    cbn [nsub flip nadd nmax]. rewrite !nsqrt_Fin.
    - unfold factorEntry. rewrite entryOf_Fin.
      rewrite (Rmax_right 0 c) by lra. rewrite (Rmax_right 0 (v + - c)) by lra.
      reflexivity.
    - apply Rmax_l.
    - apply Rmax_l.
    - lra. }
  assert (Hvv : sqrt v * sqrt v = v) by (apply sqrt_sqrt; lra).
  assert (Hcc : sqrt c * sqrt c = c) by (apply sqrt_sqrt; lra).
  assert (Hdd : sqrt (v - c) * sqrt (v - c) = v - c) by (apply sqrt_sqrt; lra).
  intros i j Hi Hj.
  rewrite (@gram_value L n _ _ _ i j Hi Hj Hentries), (@covMatrix_entry n _ _ i j Hi Hj).
  rewrite Hvv, Hcc, Hdd.
  split.
  - intros [<- | [Hi0 Hj0]].
    + rewrite Nat.eqb_refl. destruct (Nat.eqb i 0); f_equal; lra.
    + destruct (Nat.eqb_spec i j); [destruct (Nat.eqb_spec i 0); [lia | f_equal; lra] |].
      destruct (Nat.eqb_spec i 0); [lia |]. destruct (Nat.eqb_spec j 0); [lia |].
      reflexivity.
  - intros Hij H0.
    destruct (Nat.eqb_spec i j); [lia |].
    assert (E : Nat.eqb i 0 || Nat.eqb j 0 = true).
    { destruct H0 as [-> | ->]; [reflexivity | apply Bool.orb_true_r]. }
    rewrite E. split; [reflexivity |].
    rewrite <- (@sqrt_product_eq v c) by lra.
    split; [intros H; now injection H | intros ->; reflexivity].
Qed.

Lemma factor_gram_against_covMatrix_witness :
  exists L,
    choleskyFactor 3 (Fin 4) (Fin 1) tt = Ok L tt /\
    gram L 3 1 0 = Fin (sqrt 4 * sqrt 1) /\
    gram L 3 1 0 <> entry (covMatrix 3 (Fin 4) (Fin 1)) 1 0.
Proof.
  destruct (@factor_gram_against_covMatrix unit 3 4 1 tt ltac:(lia) ltac:(lra))
    as (L & HL & H).
  exists L. split; [exact HL |].
  destruct (H 1%nat 0%nat ltac:(lia) ltac:(lia)) as [_ H10].
  destruct (H10 ltac:(lia) ltac:(now right)) as [E Hiff].
  split; [exact E |]. intros Heq. apply Hiff in Heq. lra.
Defined.

(** ** The records of the handler: draws *)

Section RunDraws.
Variable fuel : nat.
Variable p : SimulationParameters.
Variable w : World.
Hypothesis Hfuel : (2 <= fuel)%nat.
Hypothesis Hcurrencies : (1 <= numCurrencies p)%nat.

Lemma simulation_run_draws (st : PostState) :
  stInv w (randomSeed p) st ->
  returns (simulation fuel p) st
          (fun run st' => stInv w (randomSeed p) st' /\ run_draws p run).
Proof.
  intros Hst.
  destruct (@simulation_returns fuel p w Hfuel Hcurrencies st Hst)
    as (run & st' & Hrun & Hst' & _).
  exists run, st'. split; [exact Hrun |]. split; [exact Hst' |].
  destruct (@simulation_draws _ _ _ _ _ Hrun)
    as (st1 & v & st2 & u & st3 & Htr & Hv & Evol & Hu & Eev).
  destruct (@generator_returns fuel p w Hfuel (numCurrencies p) (Fin 0)
              (Fin (trendVariance p)) (Fin (trendCovariance p)) st
              Hcurrencies Hst) as (xs1 & st1' & E1 & H1 & _).
  rewrite Htr in E1. injection E1 as _ <-.
  destruct (@generator_returns fuel p w Hfuel (numCurrencies p)
              (ndiv (Fin (baseVolatility p)) (Fin 100))
              (nmul (npow (ndiv (Fin (baseVolatility p)) (Fin 100)) (Fin 2)) (Fin 0.1))
              (ndiv (Fin (volatilityCovariance p)) (Fin 10000)) st1
              Hcurrencies H1) as (xs2 & st2' & E2 & H2 & _).
  rewrite Hv in E2. injection E2 as _ <-.
  destruct (@seededRandom_returns p w st2 H2)
    as (x & st3' & E3 & _ & u0 & -> & Hu0 & Hpos).
  rewrite Hu in E3. injection E3 as -> _.
  split; [now exists v |]. exists u0. repeat split; try assumption; lra.
Qed.

Lemma runSimulations_run_draws (st : PostState) :
  stInv w (randomSeed p) st ->
  returns (runSimulations fuel p) st
          (fun sims st' => stInv w (randomSeed p) st' /\ Forall (run_draws p) sims).
Proof.
  intros Hst. unfold runSimulations. eapply returns_weaken.
  - apply (returns_foldM
             _ (fun (done : list nat) sims st' =>
                  stInv w (randomSeed p) st' /\ Forall (run_draws p) sims)
             (seq 0 (numSimulations p)) []).
    + split; [exact Hst | constructor].
    + intros done i sims st1 _ (H1 & Hall).
      apply returns_bind.
      eapply returns_weaken; [apply simulation_run_draws; assumption |].
      cbn beta. intros run st2 [H2 Hrun]. apply returns_ret.
      split; [exact H2 |].
      apply Forall_app. split; [exact Hall | now constructor].
  - cbn beta. intros sims st1 H. exact H.
Qed.
End RunDraws.

Lemma POST_run_draws (fuel : nat) (p : SimulationParameters) (w w' : World)
      (r : SimulationResult) :
  POST fuel p w = Some (Json r, w') -> Forall (run_draws p) (simulations r).
Proof.
  intros H.
  destruct (Nat.eq_dec (numCurrencies p) 0) as [Hn | Hn].
  - destruct (Nat.eq_dec (numSimulations p) 0) as [Hs | Hs].
    + unfold POST, runSimulations in H. rewrite Hs in H. cbn in H.
      injection H as <- _. constructor.
    + rewrite POST_no_currency in H by (try assumption; lia). discriminate.
  - destruct (@runSimulations_run_draws 2 p w ltac:(lia) ltac:(lia)
                {| seedState := randomSeed p; world := w |})
      as (sims & st & Hrun & [Hw _] & Hall).
    { split; [reflexivity |]. cbn [seedState]. trivial. }
    assert (H2 : POST 2 p w = Some (Json {| simulations := sims; params := p |}, w)).
    { unfold POST. now rewrite Hrun, Hw. }
    destruct (@POST_agree _ _ _ _ _ _ _ _ _ H H2) as (E & _).
    injection E as ->. exact Hall.
Qed.

(** With a currency and fuel for two draws per loop the handler answers
    with the JSON body, one record per simulation. *)
Lemma POST_answers (fuel : nat) (p : SimulationParameters) (w : World) :
  (2 <= fuel)%nat -> (1 <= numCurrencies p)%nat ->
  exists r, POST fuel p w = Some (Json r, w) /\
            length (simulations r) = numSimulations p.
Proof.
  intros Hf Hn. destruct (@POST_returns fuel p w Hf Hn) as (sims & H & Hlen & _).
  eexists. split; [exact H | exact Hlen].
Qed.

(** X16.  The event probability at its ends.  In every record of every
    JSON answer: with [extremeEventProbability >= 1] and a seed, of either
    sign, within the exact range of the generator step ([exactStep]: the
    draws are then numbers of magnitude below 1) the run has an extreme
    event; with [extremeEventProbability <= 0] and a nonnegative seed it
    has none and [extremeEventIndex] is null.  (Such answers exist: with a
    currency and enough fuel the handler returns [numSimulations]
    records.) *)
Theorem extremeEvent_probability_ends :
  forall (fuel : nat) (p : SimulationParameters) (w : World),
    ((2 <= fuel)%nat -> (1 <= numCurrencies p)%nat ->
     exists r, POST fuel p w = Some (Json r, w) /\
               length (simulations r) = numSimulations p) /\
    (forall (r : SimulationResult) (w' : World),
        POST fuel p w = Some (Json r, w') ->
        forall run, In run (simulations r) ->
          (1 <= extremeEventProbability p -> exactStep (randomSeed p) ->
           extremeEvent run = true /\ extremeEventIndex run <> None) /\
          (extremeEventProbability p <= 0 -> (0 <= randomSeed p)%Z ->
           extremeEvent run = false /\ extremeEventIndex run = None)).
Proof.
  intros fuel p w. split; [apply POST_answers |].
  intros r w' H run Hin.
  pose proof (@POST_run_draws _ _ _ _ _ H) as Hd.
  destruct (@POST_shape _ _ _ _ _ H) as (_ & _ & _ & Hs).
  rewrite Forall_forall in Hd, Hs.
  destruct (Hd run Hin) as (_ & u & Hu & Hpos & Eev).
  destruct (Hs run Hin) as (_ & _ & _ & _ & Hidx).
  split.
  - intros Hp _.
    assert (E : extremeEvent run = true).
    { rewrite Eev. cbn [nlt]. apply Rltb_true. lra. }
    split; [exact E |]. rewrite E in Hidx.
    destruct Hidx as (u' & _ & _ & ->). discriminate.
  - intros Hp Hseed. specialize (Hpos Hseed).
    assert (E : extremeEvent run = false).
    { rewrite Eev. cbn [nlt]. apply Rltb_false. lra. }
    split; [exact E |]. now rewrite E in Hidx.
Qed.

(** X17.  No volatility is negative: in every record of every JSON answer
    each entry of [volatilities] is [NaN] or at least 0 (the absolute
    value taken after the draw). *)
Theorem volatilities_not_negative :
  forall (fuel : nat) (p : SimulationParameters) (w : World),
    ((2 <= fuel)%nat -> (1 <= numCurrencies p)%nat ->
     exists r, POST fuel p w = Some (Json r, w) /\
               length (simulations r) = numSimulations p) /\
    (forall (r : SimulationResult) (w' : World),
        POST fuel p w = Some (Json r, w') ->
        forall run sigma, In run (simulations r) -> In sigma (volatilities run) ->
          nlt sigma (Fin 0) = false /\ (sigma = NaN \/ nge sigma (Fin 0) = true)).
Proof.
  intros fuel p w. split; [apply POST_answers |].
  intros r w' H run sigma Hin Hsigma.
  pose proof (@POST_run_draws _ _ _ _ _ H) as Hd. rewrite Forall_forall in Hd.
  destruct (Hd run Hin) as ((v & Ev) & _).
  rewrite Ev in Hsigma. apply in_map_iff in Hsigma as (x & <- & _).
  destruct x as [| | | x]; cbn [nabs nlt nge negb].
  - split; [reflexivity | now left].
  - split; [reflexivity | now right].
  - split; [reflexivity | now right].
  - rewrite Rltb_false by apply Rabs_pos. split; [reflexivity | now right].
Qed.

(** ** The records of the handler: degenerate series and [NaN] *)

Lemma samplePath_length_le {A : Type} (path : list A) (targetLength : Z) :
  (length (samplePath path targetLength) <= length path)%nat.
Proof.
  destruct (Z.le_gt_cases (Z.of_nat (length path)) targetLength) as [Hle | Hgt].
  - rewrite samplePath_short by exact Hle. lia.
  - destruct (Z.le_gt_cases targetLength 0) as [H0 | H0].
    + rewrite samplePath_empty_target by lia. simpl. lia.
    + rewrite samplePath_long_length by lia. lia.
Qed.

Lemma npow_NaN (e : R) : e <> 0 -> npow NaN (Fin e) = NaN.
Proof. intros He. unfold npow. now rewrite Reqb_false. Qed.

Lemma Rdiv_1_neq_0 (t : R) : t <> 0 -> 1 / t <> 0.
Proof.
  intros Ht E. apply Rmult_integral in E. destruct E as [E | E]; [lra |].
  pose proof (Rinv_neq_0_compat _ Ht). contradiction.
Qed.

(** A series of fewer than two prices has no effective trend: the elapsed
    time is zero, the exponent infinite, and [Math.pow(1, Infinity)] is
    [NaN]. *)
Lemma effectiveTrend_short (l : list num) :
  (length l <= 1)%nat -> effectiveTrend l = NaN.
Proof.
  intros Hl. destruct l as [|x [|y l]]; [| | simpl in Hl; lia].
  - unfold effectiveTrend, of_nat. cbn [length Nat.sub nth INR].
    change (ndiv NaN NaN) with NaN. cbn [nsub flip nadd].
    rewrite (@ndiv_Fin (0 + - (1)) 252) by lra.
    rewrite (@ndiv_Fin 1) by lra.
    rewrite npow_NaN; [reflexivity |]. apply Rdiv_1_neq_0. lra.
  - unfold effectiveTrend, of_nat. cbn [length Nat.sub nth INR nsub flip nadd].
    rewrite (@ndiv_Fin (1 + - (1)) 252) by lra.
    assert (E : ndiv (Fin 1) (Fin ((1 + - (1)) / 252)) = PInf).
    { cbn [ndiv]. rewrite Reqb_true by lra. rewrite Reqb_false by lra.
      unfold inf_of_sign. now rewrite Rltb_false by lra. }
    rewrite E.
    destruct x as [| | | r]; cbn [ndiv nadd npow]; try reflexivity.
    destruct (Req_dec_T r 0) as [-> | Hr].
    + rewrite Reqb_true by reflexivity. reflexivity.
    + rewrite Reqb_false by exact Hr. cbn [nsub flip nadd npow].
      assert (Hb : 1 + (r / r + - (1)) = 1) by (field; exact Hr).
      rewrite Hb, Rabs_R1.
      rewrite Rltb_false by lra. now rewrite Reqb_true by reflexivity.
Qed.

Lemma effectiveTrend_last_NaN (l : list num) :
  (2 <= length l)%nat -> nth (length l - 1) l NaN = NaN -> effectiveTrend l = NaN.
Proof.
  intros Hl Hlast. pose proof (INR_ge_2 Hl) as HL.
  unfold effectiveTrend, of_nat. rewrite Hlast.
  change (ndiv NaN (nth 0 l NaN)) with NaN. cbn [nsub flip nadd].
  rewrite (@ndiv_Fin (INR (length l) + - (1)) 252) by lra.
  assert (Ht : (INR (length l) + - (1)) / 252 <> 0) by (intros E; lra).
  rewrite (@ndiv_Fin 1) by exact Ht.
  rewrite npow_NaN; [reflexivity |]. now apply Rdiv_1_neq_0.
Qed.

(** A record only exists when there is a currency. *)
Lemma POST_run_currency (fuel : nat) (p : SimulationParameters) (w w' : World)
      (r : SimulationResult) (run : SimulationData) :
  POST fuel p w = Some (Json r, w') -> In run (simulations r) ->
  (1 <= numCurrencies p)%nat.
Proof.
  intros H Hin.
  destruct (Nat.eq_dec (numCurrencies p) 0) as [Hn | Hn]; [| lia].
  destruct (Nat.eq_dec (numSimulations p) 0) as [Hs | Hs].
  - unfold POST, runSimulations in H. rewrite Hs in H. cbn in H.
    injection H as <- _. contradiction.
  - rewrite POST_no_currency in H by (try assumption; lia). discriminate.
Qed.

(** X18.  Too few observations.  In every record of every JSON answer:
    with [numObservations <= 1] no price row has more than one element,
    every effective trend is [NaN] and the realized volatility is zero;
    with [numObservations = 2] the realized volatility is [NaN] (one log
    return, variance [0 / 0]). *)
Theorem too_few_observations :
  forall (fuel : nat) (p : SimulationParameters) (w : World),
    ((2 <= fuel)%nat -> (1 <= numCurrencies p)%nat ->
     exists r, POST fuel p w = Some (Json r, w) /\
               length (simulations r) = numSimulations p) /\
    (forall (r : SimulationResult) (w' : World),
        POST fuel p w = Some (Json r, w') ->
        forall run, In run (simulations r) ->
          ((numObservations p <= 1)%Z ->
           Forall (fun row => (length row <= 1)%nat) (prices run) /\
           Forall (fun e => e = NaN) (effectiveTrends run) /\
           realizedVolatility run = Fin 0) /\
          (numObservations p = 2%Z -> realizedVolatility run = NaN)).
Proof.
  intros fuel p w. split; [apply POST_answers |].
  intros r w' H run Hin.
  pose proof (@POST_run_currency _ _ _ _ _ _ H Hin) as Hn.
  destruct (@POST_shape _ _ _ _ _ H) as (_ & _ & _ & Hs).
  rewrite Forall_forall in Hs.
  destruct (Hs run Hin)
    as ((fulls & logs & Hfl & Hll & Hff & Hlog & Ep & Erv & _) & Eeff & _).
  destruct logs as [|l0 logs']; [simpl in Hll; lia |].
  pose proof (Forall_inv Hlog) as Hl0. cbn beta in Hl0. cbn [nth] in Erv.
  split.
  - intros HN.
    assert (Hrows : Forall (fun row => (length row <= 1)%nat) (prices run)).
    { rewrite Ep. apply Forall_forall. intros row Hrow.
      apply in_map_iff in Hrow as (full & <- & Hfull).
      rewrite Forall_forall in Hff. apply Hff, fullPath_length in Hfull.
      pose proof (samplePath_length_le full (sampleTarget p)). lia. }
    split; [exact Hrows |]. split.
    + rewrite Eeff. apply Forall_forall. intros e He.
      apply in_map_iff in He as (row & <- & Hrow).
      apply effectiveTrend_short.
      rewrite Forall_forall in Hrows. now apply Hrows.
    + rewrite Erv, realizedVolatility_no_return.
      * cbn [nmul]. f_equal. lra.
      * pose proof (samplePath_length_le l0 (sampleTarget p)). lia.
  - intros HN. rewrite Erv. rewrite HN in Hl0. cbn in Hl0.
    destruct l0 as [|x [|y [|]]]; try discriminate.
    rewrite samplePath_short by (unfold sampleTarget; rewrite HN; simpl; lia).
    now rewrite realizedVolatility_one_return.
Qed.

(** X19.  A [NaN] trend component spreads: in every record of every JSON
    answer, if the trend of asset [c] is [NaN] then every price of the
    asset after the initial one is [NaN], and so is its effective
    trend. *)
Theorem NaN_trend_spreads :
  forall (fuel : nat) (p : SimulationParameters) (w w' : World)
         (r : SimulationResult) (run : SimulationData) (c : nat) (row : list num),
    POST fuel p w = Some (Json r, w') -> In run (simulations r) ->
    nth_error (prices run) c = Some row ->
    nth c (trends run) NaN = NaN ->
    (forall i x, (1 <= i)%nat -> nth_error row i = Some x -> x = NaN) /\
    nth c (effectiveTrends run) (Fin 0) = NaN.
Proof.
  intros fuel p w w' r run c row H Hin Hrow Htr.
  destruct (@POST_shape _ _ _ _ _ H) as (_ & _ & _ & Hs).
  rewrite Forall_forall in Hs.
  destruct (Hs run Hin) as ((fulls & logs & _ & _ & _ & _ & Ep & _ & _ & Hnan) & Eeff & _).
  rewrite Ep, nth_error_map in Hrow.
  destruct (nth_error fulls c) as [full |] eqn:Hfull; [| discriminate].
  cbn [option_map] in Hrow. injection Hrow as <-.
  specialize (Hnan c Htr).
  rewrite (nth_error_nth _ _ _ Hfull) in Hnan.
  assert (Hprices : forall i x, (1 <= i)%nat ->
            nth_error (samplePath full (sampleTarget p)) i = Some x -> x = NaN).
  { intros i x Hi Hx.
    apply samplePath_tail in Hx as (j & Hj & Hx); [| exact Hi].
    destruct full as [|a t]; [destruct j; discriminate |].
    destruct j as [|j]; [lia |]. cbn [nth_error tl] in Hx, Hnan.
    apply nth_error_In in Hx. rewrite Forall_forall in Hnan. now apply Hnan. }
  split; [exact Hprices |].
  rewrite Eeff, Ep.
  assert (Hc : nth_error (map effectiveTrend
                              (map (fun path => samplePath path (sampleTarget p)) fulls)) c =
               Some (effectiveTrend (samplePath full (sampleTarget p)))).
  { rewrite !nth_error_map, Hfull. reflexivity. }
  rewrite (nth_error_nth _ _ _ Hc).
  set (row := samplePath full (sampleTarget p)) in *.
  destruct (Nat.le_gt_cases (length row) 1) as [Hshort | Hlong].
  - now apply effectiveTrend_short.
  - apply effectiveTrend_last_NaN; [lia |].
    destruct (nth_error row (length row - 1)) as [x |] eqn:Hx.
    + rewrite (nth_error_nth _ _ _ Hx). apply (Hprices (length row - 1)%nat); [lia | exact Hx].
    + apply nth_error_None in Hx. lia.
Qed.

Lemma NaN_trend_spreads_witness :
  exists run row,
    POST 2 correlatedParams idleWorld =
    Some (Json {| simulations := [run]; params := correlatedParams |}, idleWorld) /\
    nth_error (prices run) 1 = Some row /\
    nth 1 (effectiveTrends run) (Fin 0) = NaN.
Proof.
  destruct correlated_run as (run & st' & t0 & _ & HPOST & Htr).
  destruct (@POST_shape _ _ _ _ _ HPOST) as (_ & _ & _ & Hs).
  pose proof (Forall_inv Hs) as ((fulls & logs & Hfl & _ & _ & _ & Ep & _) & _).
  destruct fulls as [|f0 [|f1 fulls]]; try (simpl in Hfl; discriminate).
  exists run, (samplePath f1 (sampleTarget correlatedParams)).
  assert (Hrow : nth_error (prices run) 1 =
                 Some (samplePath f1 (sampleTarget correlatedParams))).
  { rewrite Ep. reflexivity. }
  split; [exact HPOST |]. split; [exact Hrow |].
  apply (@NaN_trend_spreads 2 correlatedParams idleWorld idleWorld _ run 1 _
           HPOST (or_introl eq_refl) Hrow).
  now rewrite Htr.
Defined.

(** ** The answer of the handler: errors and dimensions *)

(** X20.  The handler fails in exactly one way.  Given fuel for two draws
    per resampling loop it always answers, leaving [Math.random] alone;
    the answer is the 500 response exactly when at least one simulation is
    asked for with no currency (the first write into the factor [L] throws),
    and otherwise the JSON body, which carries the request parameters and
    one record per simulation. *)
Theorem POST_error_cases :
  forall (fuel : nat) (p : SimulationParameters) (w : World),
    (2 <= fuel)%nat ->
    exists resp,
      POST fuel p w = Some (resp, w) /\
      (resp = Error500 <->
       numCurrencies p = 0%nat /\ (1 <= numSimulations p)%nat) /\
      (forall r, resp = Json r ->
                 params r = p /\ length (simulations r) = numSimulations p).
Proof.
  intros fuel p w Hf.
  destruct (Nat.eq_dec (numCurrencies p) 0) as [Hn | Hn].
  - destruct (Nat.eq_dec (numSimulations p) 0) as [Hs | Hs].
    + exists (Json {| simulations := []; params := p |}). split; [| split].
      * unfold POST, runSimulations. now rewrite Hs.
      * split; [discriminate | lia].
      * intros r E. injection E as <-. cbn. now rewrite Hs.
    + exists Error500. split; [| split].
      * apply POST_no_currency; [exact Hn | lia].
      * split; [intros _; split; [exact Hn | lia] | reflexivity].
      * discriminate.
  - destruct (@POST_returns fuel p w Hf ltac:(lia)) as (sims & H & Hlen & _).
    exists (Json {| simulations := sims; params := p |}). split; [exact H |].
    split.
    + split; [discriminate | lia].
    + intros r E. injection E as <-. cbn. now split.
Qed.

Lemma POST_error_cases_witness :
  exists resp,
    POST 2 (withSeed exampleParams 7) idleWorld = Some (resp, idleWorld) /\
    resp <> Error500.
Proof.
  destruct (@POST_error_cases 2 (withSeed exampleParams 7) idleWorld ltac:(lia))
    as (resp & H & Hiff & _).
  exists resp. split; [exact H |].
  intros E. apply Hiff in E. cbn in E. lia.
Defined.

(** X21.  The dimensions of the answer.  In every record of every JSON
    answer the price matrix has one row per currency, every row has
    [min(500, numObservations)] points (none when [numObservations] is
    not positive), and [trends], [volatilities] and [effectiveTrends] have
    one entry per currency. *)
Theorem POST_dimensions :
  forall (fuel : nat) (p : SimulationParameters) (w : World),
    ((2 <= fuel)%nat -> (1 <= numCurrencies p)%nat ->
     exists r, POST fuel p w = Some (Json r, w) /\
               length (simulations r) = numSimulations p) /\
    (forall (r : SimulationResult) (w' : World),
        POST fuel p w = Some (Json r, w') ->
        forall run, In run (simulations r) ->
          length (prices run) = numCurrencies p /\
          Forall (fun row => length row =
                             Z.to_nat (Z.min 500 (numObservations p)))
                 (prices run) /\
          length (trends run) = numCurrencies p /\
          length (volatilities run) = numCurrencies p /\
          length (effectiveTrends run) = numCurrencies p).
Proof.
  intros fuel p w. split; [apply POST_answers |].
  intros r w' H run Hin.
  destruct (@POST_shape _ _ _ _ _ H) as (_ & _ & _ & Hs).
  rewrite Forall_forall in Hs.
  destruct (Hs run Hin)
    as ((fulls & logs & Hfl & _ & Hff & _ & Ep & _) & Eeff & Htr & Hvol & _).
  assert (Hrows : length (prices run) = numCurrencies p).
  { now rewrite Ep, length_map. }
  split; [exact Hrows |]. split.
  - rewrite Ep. apply Forall_forall. intros row Hrow.
    apply in_map_iff in Hrow as (full & <- & Hfull).
    rewrite Forall_forall in Hff. apply Hff, fullPath_length in Hfull.
    fold (sampleTarget p).
    destruct (Z.le_gt_cases (Z.of_nat (length full)) (sampleTarget p)) as [Hle | Hgt].
    + rewrite samplePath_short by exact Hle. unfold sampleTarget in *. lia.
    + destruct (Z.le_gt_cases (sampleTarget p) 0) as [H0 | H0].
      * rewrite samplePath_empty_target by lia. simpl. lia.
      * rewrite samplePath_long_length by lia. reflexivity.
  - split; [exact Htr |]. split; [exact Hvol |].
    now rewrite Eeff, length_map.
Qed.

(** ** Seeds that differ by a multiple of the modulus *)

Section AgreeOnSeededRandom.
Variable R : PostState -> PostState -> Prop.
Hypothesis HR : agree R seededRandom seededRandom.

Lemma agree_normal (fuel : nat) :
  agree R (seededNormalRandom fuel) (seededNormalRandom fuel).
Proof.
  unfold seededNormalRandom.
  apply agree_bind; [now apply agree_whileZero | intros u].
  apply agree_bind; [now apply agree_whileZero | intros v].
  apply agree_ret.
Qed.

Lemma agree_simulation_on (fuel : nat) (p : SimulationParameters) :
  agree R (simulation fuel p) (simulation fuel p).
Proof.
  unfold simulation.
  apply agree_bind;
    [apply agree_generateMultivariateNormal, agree_normal | intros tr].
  apply agree_bind;
    [apply agree_generateMultivariateNormal, agree_normal | intros v].
  apply agree_bind; [exact HR | intros u].
  apply agree_bind.
  { destruct (nlt u (Fin (extremeEventProbability p))); [| apply agree_ret].
    apply agree_bind; [exact HR | intros u'; apply agree_ret]. }
  intros start. apply agree_bind.
  { destruct (nlt u (Fin (extremeEventProbability p))); [| apply agree_ret].
    apply agree_generateMultivariateNormal, agree_normal. }
  intros shocks. apply agree_bind.
  { apply agree_foldM. intros acc c. unfold currencyStep.
    apply agree_bind.
    - unfold pricePaths. apply agree_bind; [exact HR | intros u0].
      apply agree_foldM. intros [pricePath logPricePath] t. unfold priceStep.
      apply agree_bind; [apply agree_normal | intros z].
      apply agree_ret.
    - intros [pricePath logPricePath]. apply agree_ret. }
  intros [prs lgs]. apply agree_bind.
  { destruct (nth_error lgs 0); [apply agree_ret | apply agree_throw]. }
  intros l0. apply agree_ret.
Qed.

Lemma agree_runSimulations_on (fuel : nat) (p : SimulationParameters) :
  agree R (runSimulations fuel p) (runSimulations fuel p).
Proof.
  unfold runSimulations. apply agree_foldM. intros sims i.
  apply agree_bind; [apply agree_simulation_on | intros d; apply agree_ret].
Qed.
End AgreeOnSeededRandom.

Lemma agree_sameNext : agree sameNext seededRandom seededRandom.
Proof.
  intros s1 s2 H. unfold seededRandom, sameNext in *. cbn. rewrite H.
  now split.
Qed.

Lemma lcg_congruent (s j : Z) :
  (0 <= s)%Z -> (0 <= j)%Z -> lcg (s + 233280 * j) = lcg s.
Proof.
  intros Hs Hj. unfold lcg.
  rewrite !Z.rem_mod_nonneg by nia.
  replace ((s + 233280 * j) * 9301 + 49297)%Z
    with (s * 9301 + 49297 + (j * 9301) * 233280)%Z by ring.
  apply Z_mod_plus_full.
Qed.

Lemma runSimulations_withSeed (fuel : nat) (p : SimulationParameters) (seed : Z) :
  runSimulations fuel (withSeed p seed) = runSimulations fuel p.
Proof. reflexivity. Qed.

(** X22.  Within the exact range of the generator step, only the residue
    of a nonnegative seed modulo 233280 matters: two requests that differ
    only in their seeds, [s] and [s + 233280 * j] with [s, j >= 0] and
    [(s + 233280 * j) * 9301 + 49297 < 2^53], get the same answer up to the
    echoed parameters: the same list of records, or the 500 response for
    both.  (Beyond that range the first step is rounded and the answers
    part: lemma [lcgDouble_rounds].) *)
Theorem seeds_congruent_same_simulations :
  forall (fuel : nat) (p : SimulationParameters) (w : World) (j : Z),
    (2 <= fuel)%nat -> (0 <= randomSeed p)%Z -> (0 <= j)%Z ->
    ((randomSeed p + 233280 * j) * 9301 + 49297 < 2 ^ 53)%Z ->
    exists resp1 resp2,
      POST fuel p w = Some (resp1, w) /\
      POST fuel (withSeed p (randomSeed p + 233280 * j)) w = Some (resp2, w) /\
      simulationsOf resp1 = simulationsOf resp2.
Proof.
  intros fuel p w j Hf Hs Hj _.
  destruct (@POST_total fuel p w Hf) as [resp1 H1].
  destruct (@POST_total fuel (withSeed p (randomSeed p + 233280 * j)) w Hf)
    as [resp2 H2].
  exists resp1, resp2. split; [exact H1 |]. split; [exact H2 |].
  unfold POST in H1, H2. rewrite runSimulations_withSeed in H2.
  cbn [randomSeed withSeed] in H2.
  pose proof (@agree_runSimulations_on sameNext agree_sameNext fuel p
                {| seedState := randomSeed p; world := w |}
                {| seedState := randomSeed p + 233280 * j; world := w |}) as Ha.
  unfold sameNext in Ha at 1. cbn [seedState] in Ha.
  specialize (Ha (eq_sym (lcg_congruent Hs Hj))).
  destruct (runSimulations fuel p {| seedState := randomSeed p; world := w |})
    as [sims1 t1 | t1 |];
    destruct (runSimulations fuel p
                {| seedState := randomSeed p + 233280 * j; world := w |})
      as [sims2 t2 | t2 |];
    try discriminate; try contradiction;
    injection H1 as <- _; injection H2 as <- _; cbn [simulationsOf simulations].
  - destruct Ha as [-> _]. reflexivity.
  - reflexivity.
Qed.

Lemma seeds_congruent_same_simulations_witness :
  ((randomSeed exampleParams + 233280 * 1) * 9301 + 49297 < 2 ^ 53)%Z /\
  exists resp1 resp2,
    POST 2 exampleParams idleWorld = Some (resp1, idleWorld) /\
    POST 2 (withSeed exampleParams 233322) idleWorld = Some (resp2, idleWorld) /\
    simulationsOf resp1 = simulationsOf resp2.
Proof.
  assert (Hbound : ((randomSeed exampleParams + 233280 * 1) * 9301 + 49297
                    < 2 ^ 53)%Z) by (simpl; lia).
  split; [exact Hbound |].
  apply (@seeds_congruent_same_simulations 2 exampleParams idleWorld 1);
    [lia | simpl; lia | lia | exact Hbound].
Defined.

(** ** The period of the generator *)

Lemma applyAffine_compose (f g : Z * Z) (x : Z) :
  applyAffine (composeAffine f g) x = applyAffine f (applyAffine g x).
Proof.
  destruct f as [a1 c1], g as [a2 c2]. unfold applyAffine, composeAffine.
  cbn [fst snd].
  rewrite Z.add_mod_idemp_r by lia.
  rewrite <- Z.add_mod_idemp_l by lia.
  rewrite Z.mul_mod_idemp_l by lia.
  rewrite Z.add_mod_idemp_l by lia.
  rewrite <- (Z.add_mod_idemp_l (a1 * _)) by lia.
  rewrite Z.mul_mod_idemp_r by lia.
  rewrite Z.add_mod_idemp_l by lia.
  f_equal. ring.
Qed.

Lemma powerAffine_iter (f : Z * Z) (k : positive) (x : Z) :
  applyAffine (powerAffine f k) x = Nat.iter (Pos.to_nat k) (applyAffine f) x.
Proof.
  revert x. induction k as [k IH | k IH |]; intros x; cbn [powerAffine].
  - rewrite Pos2Nat.inj_xI.
    replace (2 * Pos.to_nat k)%nat with (Pos.to_nat k + Pos.to_nat k)%nat by lia.
    change (Nat.iter (Datatypes.S (Pos.to_nat k + Pos.to_nat k)) (applyAffine f) x)
      with (applyAffine f (Nat.iter (Pos.to_nat k + Pos.to_nat k) (applyAffine f) x)).
    rewrite Nat.iter_add, !applyAffine_compose, !IH. reflexivity.
  - rewrite Pos2Nat.inj_xO.
    replace (2 * Pos.to_nat k)%nat with (Pos.to_nat k + Pos.to_nat k)%nat by lia.
    rewrite Nat.iter_add, applyAffine_compose, !IH. reflexivity.
  - reflexivity.
Qed.

Lemma lcg_affine (s : Z) : (0 <= s)%Z -> lcg s = applyAffine (9301, 49297)%Z s.
Proof.
  intros Hs. unfold lcg, applyAffine. cbn [fst snd].
  rewrite Z.rem_mod_nonneg by lia. f_equal. ring.
Qed.

Lemma stateAfter_affine (s : Z) (k : positive) :
  (0 <= s)%Z ->
  stateAfter s (Pos.to_nat k) = applyAffine (powerAffine (9301, 49297)%Z k) s.
Proof.
  intros Hs. rewrite powerAffine_iter. unfold stateAfter.
  induction (Pos.to_nat k) as [|n IH]; [reflexivity |].
  rewrite !Nat.iter_succ, <- IH. apply lcg_affine.
  now apply stateAfter_range.
Qed.

(** After 233280 steps the state is back; after a half, a third or a fifth
    of them it has moved by a fixed nonzero amount. *)
Lemma stateAfter_modulus (s : Z) :
  (0 <= s < 233280)%Z -> stateAfter s (Pos.to_nat 233280) = s.
Proof.
  intros Hs. rewrite stateAfter_affine by lia.
  replace (powerAffine (9301, 49297)%Z 233280) with (1, 0)%Z by (vm_compute; reflexivity).
  unfold applyAffine. cbn [fst snd]. rewrite Z.mod_small; lia.
Qed.

Lemma stateAfter_fraction (s : Z) (k : positive) (c : Z) :
  (0 <= s < 233280)%Z -> (0 < c < 233280)%Z ->
  powerAffine (9301, 49297)%Z k = (1, c)%Z ->
  stateAfter s (Pos.to_nat k) <> s.
Proof.
  intros Hs Hc E. rewrite stateAfter_affine, E by lia.
  unfold applyAffine. cbn [fst snd]. intros H.
  destruct (Z.lt_ge_cases (s + c) 233280) as [Hlt | Hge].
  - rewrite Z.mod_small in H by lia. lia.
  - replace (1 * s + c)%Z with (s + c - 233280 + 1 * 233280)%Z in H by ring.
    rewrite Z_mod_plus_full, Z.mod_small in H by lia. lia.
Qed.

Lemma stateAfter_add (s : Z) (j k : nat) :
  stateAfter s (j + k) = stateAfter (stateAfter s k) j.
Proof. unfold stateAfter. apply Nat.iter_add. Qed.

Lemma period_absorbs (s : Z) (j k : nat) :
  stateAfter s j = s -> stateAfter s (k + j) = stateAfter s k.
Proof. intros Hj. now rewrite stateAfter_add, Hj. Qed.

Lemma period_multiple (s : Z) (j q : nat) :
  stateAfter s j = s -> stateAfter s (q * j) = s.
Proof.
  intros Hj. induction q as [|q IH]; [reflexivity |].
  cbn [Nat.mul]. rewrite Nat.add_comm. now rewrite period_absorbs.
Qed.

Lemma period_gcd (s : Z) (j k : nat) :
  (0 < j)%nat -> stateAfter s j = s -> stateAfter s k = s ->
  stateAfter s (Nat.gcd j k) = s.
Proof.
  intros Hpos Hj Hk.
  destruct (Nat.gcd_bezout_pos j k Hpos) as (a & b & Hab).
  rewrite <- (@period_absorbs s (b * k) (Nat.gcd j k)).
  - rewrite <- Hab. now apply period_multiple.
  - now apply period_multiple.
Qed.

Lemma divisor_of_prime (d q : Z) :
  (q = 2 \/ q = 3 \/ q = 5)%Z -> (0 <= d)%Z -> (d | q)%Z -> d = 1%Z \/ d = q.
Proof.
  intros Hq Hd Hdiv.
  assert (Hle : (d <= q)%Z) by (apply Z.divide_pos_le; [lia | exact Hdiv]).
  destruct Hdiv as [e He].
  assert (Hcases : (d = 0 \/ d = 1 \/ d = 2 \/ d = 3 \/ d = 4 \/ d = 5)%Z)
    by (destruct Hq as [-> | [-> | ->]]; lia).
  destruct Hcases as [-> | [-> | [-> | [-> | [-> | ->]]]]];
    destruct Hq as [-> | [-> | ->]]; lia.
Qed.

Lemma gauss_prime (e q rest : Z) :
  (q = 2 \/ q = 3 \/ q = 5)%Z -> ~ (q | e)%Z -> (e | q * rest)%Z -> (e | rest)%Z.
Proof.
  intros Hq Hnot Hdiv. apply (Z.gauss e q rest Hdiv).
  destruct (@divisor_of_prime (Z.gcd e q) q Hq (Z.gcd_nonneg e q)
                              (Z.gcd_divide_r e q)) as [E | E]; [exact E |].
  exfalso. apply Hnot. rewrite <- E. apply Z.gcd_divide_l.
Qed.

(** A proper divisor of [233280 = 2^6 * 3^6 * 5] divides its half, its third
    or its fifth. *)
Lemma proper_divisor (g : Z) :
  (0 < g < 233280)%Z -> (g | 233280)%Z ->
  (g | 116640)%Z \/ (g | 77760)%Z \/ (g | 46656)%Z.
Proof.
  intros Hg [e He].
  assert (He2 : (2 <= e)%Z) by nia.
  assert (Hdec : forall q, (q = 2 \/ q = 3 \/ q = 5)%Z ->
                           (exists e', e = q * e')%Z \/ ~ (q | e)%Z).
  { intros q Hq. destruct (Z.eq_dec (e mod q) 0) as [E | E].
    - left. exists (e / q)%Z. apply Z.div_exact; lia.
    - right. intros [t Ht]. apply E. rewrite Ht. apply Z.mod_mul. lia. }
  destruct (Hdec 2%Z ltac:(lia)) as [[e' H2] | H2].
  { left. exists e'. nia. }
  destruct (Hdec 3%Z ltac:(lia)) as [[e' H3] | H3].
  { right. left. exists e'. nia. }
  destruct (Hdec 5%Z ltac:(lia)) as [[e' H5] | H5].
  { right. right. exists e'. nia. }
  exfalso.
  assert (Hdiv : (e | 2 * (2 * (2 * (2 * (2 * (2 * (3 * (3 * (3 * (3 * (3 * (3 * (5 * 1)))))))))))))%Z) by (exists g; lia).
  assert (H1 : (e | 1)%Z).
  { do 6 (apply (@gauss_prime e 2) in Hdiv; [| lia | exact H2]).
    do 6 (apply (@gauss_prime e 3) in Hdiv; [| lia | exact H3]).
    apply (@gauss_prime e 5) in Hdiv; [exact Hdiv | lia | exact H5]. }
  apply Z.divide_1_r_nonneg in H1; lia.
Qed.

(** X23.  The seeded generator has full period.  From any state in
    [0, 233280) the state is back at its start after [k] calls of
    [seededRandom] exactly when [k] is a multiple of 233280: the stream of
    draws repeats after 233280 draws and not before. *)
Theorem generator_full_period :
  forall (s : Z) (k : nat),
    (0 <= s < 233280)%Z ->
    (stateAfter s k = s <-> (233280 | Z.of_nat k)%Z).
Proof.
  intros s k Hs.
  set (M := Pos.to_nat 233280).
  assert (HM : Z.of_nat M = 233280%Z) by (unfold M; lia).
  assert (HMpos : (0 < M)%nat) by (unfold M; lia).
  assert (Hback : stateAfter s M = s) by now apply stateAfter_modulus.
  split.
  - intros Hk.
    pose proof (@period_gcd s M k HMpos Hback Hk) as Hg.
    set (g := Nat.gcd M k) in *.
    assert (HgM : (Z.of_nat g | 233280)%Z).
    { rewrite <- HM. destruct (Nat.gcd_divide_l M k) as [q Hq]. fold g in Hq.
      exists (Z.of_nat q). lia. }
    assert (Hgk : (Z.of_nat g | Z.of_nat k)%Z).
    { destruct (Nat.gcd_divide_r M k) as [q Hq]. fold g in Hq.
      exists (Z.of_nat q). lia. }
    assert (Hgpos : (0 < g)%nat).
    { destruct (Nat.eq_dec g 0) as [E | E]; [| lia].
      unfold g in E. apply Nat.gcd_eq_0_l in E. lia. }
    destruct (Z.eq_dec (Z.of_nat g) 233280) as [E | E].
    + now rewrite <- E.
    + exfalso.
      assert (Hlt : (0 < Z.of_nat g < 233280)%Z).
      { apply Z.divide_pos_le in HgM; lia. }
      assert (Hfrac : forall (q : positive) (c : Z),
                 (0 < c < 233280)%Z ->
                 powerAffine (9301, 49297)%Z q = (1, c)%Z ->
                 (Z.of_nat g | Z.pos q)%Z -> False).
      { intros q c Hc E' [t Ht].
        apply (@stateAfter_fraction s q c Hs Hc E').
        replace (Pos.to_nat q) with (Z.to_nat t * g)%nat by nia.
        now apply period_multiple. }
      destruct (proper_divisor Hlt HgM) as [H | [H | H]].
      * apply (Hfrac 116640%positive 116640%Z); [lia | vm_compute; reflexivity | exact H].
      * apply (Hfrac 77760%positive 77760%Z); [lia | vm_compute; reflexivity | exact H].
      * apply (Hfrac 46656%positive 93312%Z); [lia | vm_compute; reflexivity | exact H].
  - intros [q Hq].
    replace k with (Z.to_nat q * M)%nat by nia.
    now apply period_multiple.
Qed.

Lemma generator_full_period_witness :
  stateAfter 42 (Pos.to_nat 466560) = 42%Z.
Proof.
  apply (@generator_full_period 42 (Pos.to_nat 466560)); [lia |].
  exists 2%Z. lia.
Defined.

(** ** The Python engine: metrics *)

Lemma fold_left_products_Fin (m : R) (rs : list R) (a : R) :
  fold_left (fun sum x => nadd sum x)
            (map (fun x => nmul (nsub x (Fin m)) (nsub x (Fin m))) (map Fin rs))
            (Fin a) =
  Fin (fold_left (fun sum r => sum + (r - m) * (r - m)) rs a).
Proof.
  revert a. induction rs as [|r rs IH]; intros a; [reflexivity |].
  cbn [map fold_left nsub flip nadd nmul]. apply IH.
Qed.

(** On two or more finite positive prices the Python function is the
    population standard deviation of the log returns, annualized per
    minute. *)
Lemma python_volatility_value (ps : list R) :
  Forall (fun p => 0 < p) ps -> (2 <= length ps)%nat ->
  calculate_realized_volatility (map Fin ps) =
  Fin (sqrt (squaredDeviations (differences (map ln ps)) /
             INR (length (differences (map ln ps)))) * sqrt (365 * 24 * 60)).
Proof.
  intros Hpos Hlen. unfold calculate_realized_volatility. cbv zeta.
  assert (E : map nlog (map Fin ps) = map Fin (map ln ps)).
  { rewrite !map_map. apply map_ext_in. intros a Ha.
    apply nlog_positive. rewrite Forall_forall in Hpos. now apply Hpos. }
  rewrite E. unfold np_diff. rewrite logReturns_finite.
  set (rs := differences (map ln ps)).
  assert (Hn : 1 <= INR (length rs)).
  { unfold rs. rewrite length_differences, length_map.
    assert (H : (1 <= length ps - 1)%nat) by lia.
    apply le_INR in H. simpl in H. lra. }
  assert (Emean : np_mean (map Fin rs) = Fin (fold_left Rplus rs 0 / INR (length rs))).
  { unfold np_mean, of_nat. rewrite length_map, fold_left_nadd_Fin.
    now rewrite ndiv_Fin by lra. }
  unfold np_std. cbv zeta. rewrite Emean.
  unfold np_mean. rewrite fold_left_products_Fin, !length_map. unfold of_nat.
  rewrite ndiv_Fin by lra.
  pose proof (deviations_lower (fold_left Rplus rs 0 / INR (length rs)) rs 0) as Hsq.
  rewrite nsqrt_Fin.
  - rewrite nsqrt_Fin by lra. reflexivity.
  - apply Rmult_le_pos; [exact Hsq |].
    apply Rlt_le, Rinv_0_lt_compat. lra.
Qed.

(** X24.  The Python [calculate_realized_volatility] against the route's
    function on short series.  With no price or a single one there is no
    return and the answer is [NaN]; on two or more positive prices between
    10^-100 and 10^100 it is a number and not negative; on exactly two it
    is zero (the population deviation of a single return), where the
    route's [calculateRealizedVolatilityFromLogPrices] on the two
    logarithms answers [NaN]. *)
Theorem python_volatility_short_series :
  forall ps : list R,
    Forall (fun p => / 10 ^ 100 <= p <= 10 ^ 100) ps ->
    calculate_realized_volatility [] = NaN /\
    (forall x, calculate_realized_volatility [x] = NaN) /\
    ((2 <= length ps)%nat ->
     exists v, calculate_realized_volatility (map Fin ps) = Fin v /\ 0 <= v) /\
    (length ps = 2%nat ->
     calculate_realized_volatility (map Fin ps) = Fin 0 /\
     calculateRealizedVolatilityFromLogPrices (map nlog (map Fin ps)) = NaN).
Proof.
  intros ps Hmod. pose proof googol_inv_pos as Hg.
  assert (Hpos : Forall (fun p => 0 < p) ps).
  { apply (Forall_impl _ (P := fun p => / 10 ^ 100 <= p <= 10 ^ 100));
      [| exact Hmod].
    intros p [Hp _]. lra. }
  assert (Hnone : nmul (nsqrt (ndiv (Fin 0) (of_nat 0)))
                       (nsqrt (Fin (365 * 24 * 60))) = NaN).
  { unfold of_nat. cbn [INR ndiv]. now rewrite Reqb_true by reflexivity. }
  split; [exact Hnone |]. split; [intros x; exact Hnone |].
  assert (H525 : 0 < sqrt (365 * 24 * 60)) by (apply sqrt_lt_R0; lra).
  split.
  - intros Hlen. rewrite python_volatility_value by assumption.
    eexists. split; [reflexivity |].
    apply Rmult_le_pos; [apply sqrt_pos | lra].
  - intros Hlen. destruct ps as [|a [|b [|c ps]]]; try discriminate.
    split; [| apply realizedVolatility_one_return].
    rewrite python_volatility_value by (try assumption; simpl; lia).
    set (rs := differences (map ln [a; b])).
    assert (E : squaredDeviations rs = 0).
    { apply (@squaredDeviations_zero rs (ln b - ln a)).
      - simpl. lia.
      - now left.
      - intros r [<- | []]. reflexivity. }
    rewrite E. unfold Rdiv. rewrite Rmult_0_l, sqrt_0. f_equal. lra.
Qed.

Lemma python_volatility_short_series_witness :
  Forall (fun p => / 10 ^ 100 <= p <= 10 ^ 100) [1; 2] /\
  calculate_realized_volatility (map Fin [1; 2]) = Fin 0 /\
  calculateRealizedVolatilityFromLogPrices (map nlog (map Fin [1; 2])) = NaN.
Proof.
  assert (H : Forall (fun p => / 10 ^ 100 <= p <= 10 ^ 100) [1; 2])
    by (repeat (apply Forall_cons; [apply price_moderate; lra |]);
        apply Forall_nil).
  split; [exact H |].
  destruct (@python_volatility_short_series [1; 2] H) as (_ & _ & _ & H2).
  exact (H2 eq_refl).
Defined.

Lemma np_power_positive (b e : R) :
  0 < b -> e <> 0 -> np_power (Fin b) (Fin e) = Fin (Rpower b e).
Proof. intros Hb He. cbn [np_power]. now apply npow_positive. Qed.

(** X25.  The Python [calculate_effective_trends] on a row of [n >= 1]
    columns with finite positive first and last prices [a] and [b]: the
    trend is a number, never below -1, not negative when [a <= b] and not
    positive when [b <= a]; on a one-column array it is 0, where the
    route's [effectiveTrend] answers [NaN] (the Python engine divides the
    number of columns, not the number of steps, by the minutes of a year);
    and an array without columns raises. *)
Theorem python_effective_trend :
  forall (n : nat) (row : list num) (a b : R),
    (1 <= n)%nat ->
    nth 0 row NaN = Fin a -> nth (n - 1) row NaN = Fin b -> 0 < a -> 0 < b ->
    (exists v,
        calculate_effective_trends n [row] = Some [v] /\
        nge v (Fin (-1)) = true /\
        (a <= b -> nge v (Fin 0) = true) /\
        (b <= a -> nge (Fin 0) v = true)) /\
    (n = 1%nat -> calculate_effective_trends n [row] = Some [Fin 0] /\
                  effectiveTrend [Fin a] = NaN) /\
    calculate_effective_trends 0 [row] = None.
Proof.
  intros n row a b Hn Ha Hb Hpa Hpb.
  assert (HN : 1 <= INR n) by (apply le_INR in Hn; simpl in Hn; lra).
  assert (Hr : 0 < b / a) by (apply Rdiv_lt_0_compat; assumption).
  set (e := 365 * 24 * 60 / INR n).
  assert (He : 0 < e) by (unfold e; apply Rdiv_lt_0_compat; lra).
  assert (Hvalue : calculate_effective_trends n [row] =
                   Some [Fin (Rpower (b / a) e - 1)]).
  { unfold calculate_effective_trends.
    destruct (Nat.eqb_spec n 0) as [E | _]; [lia |].
    cbv zeta. cbn [map]. rewrite Ha, Hb. unfold of_nat.
    rewrite (@ndiv_Fin b a) by lra. cbn [nsub flip nadd].
    rewrite (@ndiv_Fin (INR n)) by lra.
    assert (Ht : INR n / (365 * 24 * 60) <> 0).
    { intros E. apply (f_equal (fun t => t * (365 * 24 * 60))) in E.
      unfold Rdiv in E. rewrite Rmult_assoc, Rinv_l in E by lra. lra. }
    rewrite (@ndiv_Fin 1) by exact Ht.
    rewrite np_power_positive.
    - cbn [nsub flip nadd].
      replace (1 + (b / a + - (1))) with (b / a) by lra.
      replace (1 / (INR n / (365 * 24 * 60))) with e
        by (unfold e; field; lra).
      reflexivity.
    - lra.
    - now apply Rdiv_1_neq_0. }
  assert (Hpos : 0 < Rpower (b / a) e) by (unfold Rpower; apply exp_pos).
  split; [| split; [| reflexivity]].
  - exists (Fin (Rpower (b / a) e - 1)). split; [exact Hvalue |].
    cbn [nge nlt negb].
    split; [rewrite Rltb_false by lra; reflexivity |].
    assert (E : b = b / a * a) by (field; lra).
    split; intros H.
    + assert (H1 : 1 <= b / a)
        by (apply Rmult_le_reg_r with a; [exact Hpa | lra]).
      assert (1 <= Rpower (b / a) e).
      { rewrite <- (Rpower_O (b / a)) by exact Hr. apply Rle_Rpower; lra. }
      rewrite Rltb_false by lra. reflexivity.
    + assert (H1 : b / a <= 1)
        by (apply Rmult_le_reg_r with a; [exact Hpa | lra]).
      assert (Rpower (b / a) e <= 1).
      { rewrite <- exp_0. unfold Rpower.
        destruct (Rle_lt_or_eq_dec _ _ H1) as [Hlt | Heq].
        - apply Rlt_le, exp_increasing.
          assert (Hln : ln (b / a) < 0) by (apply ln_neg; lra). nra.
        - rewrite Heq, ln_1, Rmult_0_r. lra. }
      rewrite Rltb_false by lra. reflexivity.
  - intros ->. split; [| apply effectiveTrend_short; simpl; lia].
    rewrite Hvalue. cbn [Nat.sub] in Hb. rewrite Ha in Hb. injection Hb as <-.
    do 3 f_equal. unfold Rdiv at 1. rewrite Rinv_r by lra.
    unfold Rpower. rewrite ln_1, Rmult_0_r, exp_0. lra.
Qed.

Lemma python_effective_trend_witness :
  calculate_effective_trends 1 [[Fin 2]] = Some [Fin 0] /\
  effectiveTrend [Fin 2] = NaN.
Proof.
  destruct (@python_effective_trend 1 [Fin 2] 2 2 ltac:(lia) eq_refl eq_refl
              ltac:(lra) ltac:(lra)) as (_ & H & _).
  exact (H eq_refl).
Defined.

(** ** The Python engine: the downsampler *)

(** The rounded double product against the exact one: it is the exact
    floor or the next integer, and the integer nearest to the exact
    product unless that lies half way between two integers. *)
Lemma rounded_index_spec (n t i : Z) :
  (1 <= t < n -> n * t < 2 ^ 50 -> 0 <= i <= t ->
   (i * n / t <= rounded_index n t i <= i * n / t + 1) /\
   (2 * ((i * n) mod t) <> t -> rounded_index n t i = roundQuotient (i * n) t))%Z.
Proof.
  intros Ht Hsize Hi. unfold rounded_index. cbv zeta.
  destruct (stepBits_spec Ht Hsize) as (HK & HKlen & Hm & Hm52).
  set (K := (2 ^ (52 - Z.log2 (n / t)))%Z) in *.
  set (m := roundQuotient (n * K) t) in *.
  pose proof (@product_error n t i K m Ht Hsize HK HKlen Hm Hi) as Hd.
  set (N' := roundToBits (i * m)) in *.
  pose proof (@roundQuotient_error N' K HK) as Hp.
  set (pos := roundQuotient N' K) in *.
  pose proof (Z.div_mod (i * n) t ltac:(lia)) as Eq.
  pose proof (Z.mod_pos_bound (i * n) t ltac:(lia)) as Hr.
  unfold roundQuotient.
  set (q := (i * n / t)%Z) in *. set (r := ((i * n) mod t)%Z) in *.
  assert (Hlow : (q <= pos)%Z).
  { assert (q - 1 < pos)%Z; [| lia].
    apply (Z.mul_lt_mono_pos_r (2 * K * t)); [nia |]. nia. }
  assert (Hhigh : (pos <= q + 1)%Z).
  { assert (pos < q + 2)%Z; [| lia].
    apply (Z.mul_lt_mono_pos_r (2 * K * t)); [nia |]. nia. }
  split; [lia |].
  intros Htie.
  destruct (Z.compare_spec (2 * r) t) as [C | C | C]; [contradiction | |].
  - assert (pos < q + 1)%Z; [| lia].
    apply (Z.mul_lt_mono_pos_r (2 * K * t)); [nia |]. nia.
  - assert (q < pos)%Z; [| lia].
    apply (Z.mul_lt_mono_pos_r (2 * K * t)); [nia |]. nia.
Qed.

Lemma rounded_index_increasing (n t i : Z) :
  (1 <= t < n -> n * t < 2 ^ 50 -> 0 <= i -> i + 1 <= t ->
   rounded_index n t i < rounded_index n t (i + 1))%Z.
Proof.
  intros Ht Hsize Hi Hi1. unfold rounded_index. cbv zeta.
  destruct (stepBits_spec Ht Hsize) as (HK & HKlen & Hm & Hm52).
  set (K := (2 ^ (52 - Z.log2 (n / t)))%Z) in *.
  set (m := roundQuotient (n * K) t) in *.
  pose proof (@product_error n t i K m Ht Hsize HK HKlen Hm ltac:(lia)) as Hd.
  pose proof (@product_error n t (i + 1) K m Ht Hsize HK HKlen Hm ltac:(lia))
    as Hd'.
  set (N := roundToBits (i * m)) in *.
  set (N' := roundToBits ((i + 1) * m)) in *.
  pose proof (@roundQuotient_error N K HK) as Hp.
  pose proof (@roundQuotient_error N' K HK) as Hp'.
  set (pos := roundQuotient N K) in *. set (pos' := roundQuotient N' K) in *.
  apply (Z.mul_lt_mono_pos_r (2 * K * t)); [nia |]. nia.
Qed.

Lemma rounded_index_below (n t i : Z) :
  (1 <= t < n -> n * t < 2 ^ 50 -> 0 <= i < t ->
   0 <= rounded_index n t i < n)%Z.
Proof.
  intros Ht Hsize Hi.
  destruct (@rounded_index_spec n t i Ht Hsize ltac:(lia)) as [Hb _].
  assert (H0 : (0 <= i * n / t)%Z) by (apply Z.div_pos; nia).
  assert (H1 : (i * n / t < n - 1)%Z) by (apply Z.div_lt_upper_bound; nia).
  lia.
Qed.

Lemma rounded_index_zero (n t : Z) :
  (1 <= t < n -> n * t < 2 ^ 50 -> rounded_index n t 0 = 0)%Z.
Proof.
  intros Ht Hsize.
  destruct (@rounded_index_spec n t 0 Ht Hsize ltac:(lia)) as [Hb _].
  destruct (@rounded_index_increasing n t 0 Ht Hsize ltac:(lia) ltac:(lia)).
  rewrite Z.mul_0_l, Z.div_0_l in Hb by lia.
  destruct (@rounded_index_spec n t 0 Ht Hsize ltac:(lia)) as [_ He].
  rewrite He.
  - unfold roundQuotient. rewrite Z.mul_0_l, Z.mod_0_l, Z.div_0_l by lia.
    cbn [Z.mul]. destruct (Z.compare_spec 0 t); lia.
  - rewrite Z.mul_0_l, Z.mod_0_l by lia. lia.
Qed.

(** The value past the last one, when the range holds it, is dropped by
    the filter. *)
Lemma rounded_index_last (n t : Z) :
  (1 <= t < n -> n * t < 2 ^ 50 -> n <= rounded_index n t t)%Z.
Proof.
  intros Ht Hsize.
  destruct (@rounded_index_spec n t t Ht Hsize ltac:(lia)) as [Hb _].
  replace (t * n / t)%Z with n in Hb; [lia |].
  rewrite Z.mul_comm. symmetry. apply Z.div_mul. lia.
Qed.

(** The range holds [t] values, or one more. *)
Lemma arange_length_spec (n t : Z) :
  (1 <= t < n -> n * t < 2 ^ 50 ->
   arange_length n t = t \/ arange_length n t = t + 1)%Z.
Proof.
  intros Ht Hsize. unfold arange_length. cbv zeta.
  destruct (stepBits_spec Ht Hsize) as (HK & HKlen & Hm & Hm52).
  set (K := (2 ^ (52 - Z.log2 (n / t)))%Z) in *.
  set (m := roundQuotient (n * K) t) in *.
  set (a := (n * K)%Z) in *.
  assert (Ht50 : (t < 2 ^ 25)%Z).
  { assert (t * t < 2 ^ 50)%Z by nia.
    destruct (Z.lt_ge_cases t (2 ^ 25)) as [H' | H']; [exact H' |].
    assert (2 ^ 25 * 2 ^ 25 <= t * t)%Z by nia.
    change (2 ^ 25 * 2 ^ 25)%Z with (2 ^ 50)%Z in *. lia. }
  assert (Hquot : (0 <= a / m <= t)%Z).
  { split; [apply Z.div_pos; nia |].
    assert (a / m < t + 1)%Z; [| lia].
    apply Z.div_lt_upper_bound; nia. }
  assert (Hs : (0 <= 52 - Z.log2 (a / m))%Z).
  { assert (Z.log2 (a / m) <= Z.log2 (2 ^ 25))%Z.
    { apply Z.log2_le_mono. lia. }
    change (Z.log2 (2 ^ 25)) with 25%Z in *. lia. }
  set (s := (52 - Z.log2 (a / m))%Z) in *.
  assert (HS : (0 < 2 ^ s)%Z) by (apply Z.pow_pos_nonneg; lia).
  set (S := (2 ^ s)%Z) in *.
  pose proof (@roundQuotient_error (a * S) m ltac:(lia)) as Hc.
  set (c := roundQuotient (a * S) m) in *.
  assert (Hlow : ((t - 1) * S < c)%Z).
  { apply (Z.mul_lt_mono_pos_r (2 * m)); [lia |]. nia. }
  assert (Hhigh : (c <= (t + 1) * S)%Z).
  { apply (Z.mul_le_mono_pos_r _ _ (2 * m)); [lia |]. nia. }
  assert (H1 : (t <= (c + S - 1) / S)%Z) by (apply Z.div_le_lower_bound; nia).
  assert (H2 : ((c + S - 1) / S < t + 2)%Z) by (apply Z.div_lt_upper_bound; nia).
  lia.
Qed.

Lemma filter_all {A : Type} (f : A -> bool) (l : list A) :
  (forall x, In x l -> f x = true) -> filter f l = l.
Proof.
  induction l as [|x l IH]; intros H; [reflexivity |].
  cbn [filter]. rewrite H by now left. f_equal. apply IH.
  intros y Hy. apply H. now right.
Qed.

(** The indices the Python downsampler keeps, above the target length. *)
Lemma downsample_indices_value (n t : Z) :
  (1 <= t < n)%Z -> (n * t < 2 ^ 50)%Z ->
  downsample_indices n t =
  map (fun i => rounded_index n t (Z.of_nat i)) (seq 0 (Z.to_nat t)).
Proof.
  intros Ht Hsize. unfold downsample_indices. cbv zeta.
  destruct (Z.ltb_spec t 0); [lia |].
  assert (Hkept : filter (fun index => (index <? n)%Z)
                         (map (fun i => rounded_index n t (Z.of_nat i))
                              (seq 0 (Z.to_nat t))) =
                  map (fun i => rounded_index n t (Z.of_nat i)) (seq 0 (Z.to_nat t))).
  { apply filter_all. intros x Hx.
    apply in_map_iff in Hx as (i & <- & Hi). apply in_seq in Hi.
    apply Z.ltb_lt. apply rounded_index_below; lia. }
  destruct (arange_length_spec Ht Hsize) as [-> | ->]; [exact Hkept |].
  replace (Z.to_nat (t + 1)) with (Datatypes.S (Z.to_nat t)) by lia.
  rewrite seq_S, map_app, filter_app, Hkept. cbn [Nat.add map filter].
  rewrite Z2Nat.id by lia.
  destruct (Z.ltb_spec (rounded_index n t t) n) as [Hlt | _];
    [| now rewrite app_nil_r].
  pose proof (rounded_index_last Ht Hsize). lia.
Qed.

(** X26.  The positions the Python downsampler keeps, in double
    arithmetic.  For a target length [t >= 1] below the number [n] of
    columns (with [n * t < 2^50]) it keeps exactly [t] columns: the first
    is column 0, the positions are strictly increasing and all below [n]
    (the filter drops at most the value past the last one), and position
    [i] is [floor(i * n / t)] or the next integer: the integer nearest to
    [i * n / t] unless that product lies half way between two integers,
    where the rounding of the double product decides. *)
Theorem python_downsample_positions :
  forall n t : Z,
    (1 <= t < n)%Z -> (n * t < 2 ^ 50)%Z ->
    length (downsample_indices n t) = Z.to_nat t /\
    nth_error (downsample_indices n t) 0 = Some 0%Z /\
    forall i, (0 <= i < t)%Z ->
      exists pos,
        nth_error (downsample_indices n t) (Z.to_nat i) = Some pos /\
        pos = rounded_index n t i /\
        (0 <= pos < n)%Z /\
        (floorPosition n t i <= pos <= floorPosition n t i + 1)%Z /\
        ((2 * ((i * n) mod t) <> t)%Z -> pos = roundQuotient (i * n) t) /\
        (forall pos', nth_error (downsample_indices n t) (Z.to_nat (i + 1)) = Some pos' ->
                      (pos < pos')%Z).
Proof.
  intros n t Ht Hsize. rewrite downsample_indices_value by lia.
  assert (Hnth : forall j, (0 <= j < t)%Z ->
            nth_error (map (fun i0 => rounded_index n t (Z.of_nat i0))
                           (seq 0 (Z.to_nat t))) (Z.to_nat j) =
            Some (rounded_index n t j)).
  { intros j Hj. rewrite nth_error_map, nth_error_seq.
    destruct (Nat.ltb_spec (Z.to_nat j) (Z.to_nat t)); [| lia].
    cbn [option_map Nat.add]. now rewrite Z2Nat.id by lia. }
  split; [now rewrite length_map, length_seq |]. split.
  - change 0%nat with (Z.to_nat 0). rewrite Hnth by lia.
    f_equal. now apply rounded_index_zero.
  - intros i Hi. exists (rounded_index n t i).
    destruct (@rounded_index_spec n t i Ht Hsize ltac:(lia)) as [Hb He].
    split; [now apply Hnth |]. split; [reflexivity |].
    split; [now apply rounded_index_below |].
    split; [rewrite floorPosition_div by lia; exact Hb |].
    split; [exact He |].
    intros pos' Hpos'.
    destruct (Z.lt_ge_cases (i + 1) t) as [Hlt | Hge].
    + rewrite Hnth in Hpos' by lia. injection Hpos' as <-.
      apply rounded_index_increasing; lia.
    + assert (Hsome : nth_error (map (fun i0 => rounded_index n t (Z.of_nat i0))
                                      (seq 0 (Z.to_nat t))) (Z.to_nat (i + 1)) <> None)
        by congruence.
      apply nth_error_Some in Hsome.
      rewrite length_map, length_seq in Hsome. lia.
Qed.

Lemma python_downsample_positions_witness :
  (1 <= 500 < 545)%Z /\ (545 * 500 < 2 ^ 50)%Z /\
  length (downsample_indices 545 500) = Z.to_nat 500 /\
  nth_error (downsample_indices 545 500) 0 = Some 0%Z.
Proof.
  assert (H1 : (1 <= 500 < 545)%Z) by lia.
  assert (H2 : (545 * 500 < 2 ^ 50)%Z) by lia.
  split; [exact H1 |]. split; [exact H2 |].
  destruct (@python_downsample_positions 545 500 H1 H2) as (H3 & H4 & _).
  now split.
Defined.

(** The rounding of the double product decides the ties otherwise than
    the rounding of the exact product: of 545 columns and a target of 500,
    the exact product for [i = 50] is 54.5, nearest even 54, and numpy
    keeps column 55. *)
Lemma rounded_index_tie :
  rounded_index 545 500 50 = 55%Z /\ roundQuotient (50 * 545) 500 = 54%Z /\
  nth_error (downsample_indices 545 500) 50 = Some 55%Z.
Proof. repeat split; vm_compute; reflexivity. Qed.

Lemma np_take_in_range {A : Type} (d : A) (row : list A) (indices : list Z) :
  (forall pos, In pos indices -> (0 <= pos < Z.of_nat (length row))%Z) ->
  np_take row indices = Some (map (fun pos => nth (Z.to_nat pos) row d) indices).
Proof.
  induction indices as [|pos indices IH]; intros H; [reflexivity |].
  cbn [np_take map]. rewrite IH by (intros q Hq; apply H; now right).
  pose proof (H pos (or_introl eq_refl)) as Hpos.
  unfold np_item. destruct (Z.ltb_spec pos 0) as [Hneg |]; [lia |].
  now rewrite (nth_error_nth' row d) by lia.
Qed.

Lemma np_take_columns_in_range {A : Type} (d : A) (n : nat)
      (prices : list (list A)) (indices : list Z) :
  Forall (fun row => length row = n) prices ->
  (forall pos, In pos indices -> (0 <= pos < Z.of_nat n)%Z) ->
  np_take_columns prices indices =
  Some (map (fun row => map (fun pos => nth (Z.to_nat pos) row d) indices) prices).
Proof.
  intros Hrows Hidx. induction Hrows as [|row rows Hrow _ IH]; [reflexivity |].
  cbn [np_take_columns map]. rewrite IH.
  rewrite (@np_take_in_range A d row indices) by (rewrite Hrow; exact Hidx).
  reflexivity.
Qed.

Lemma downsample_indices_negative (n t : Z) :
  (t < 0)%Z -> downsample_indices n t = [].
Proof.
  intros Ht. unfold downsample_indices.
  destruct (Z.ltb_spec t 0); [reflexivity | lia].
Qed.

(** X27.  The Python downsampler on an array of [n] columns: with
    [n <= target_length] the array is returned as it is; with
    [target_length = 0 < n] the division raises; with
    [1 <= target_length < n] (and [n * target_length < 2^50]) every row
    keeps [target_length] of its elements, the same columns in every row:
    column 0 first, then columns of increasing positions, the [i]-th at
    [floor(i * n / target_length)] or the next position, and no index is
    out of range; with a negative target length (and [n >= 1]) every row
    comes back empty. *)
Theorem python_downsample_prices :
  forall (A : Type) (d : A) (n : nat) (prices : list (list A)) (t : Z),
    Forall (fun row => length row = n) prices ->
    ((Z.of_nat n <= t)%Z -> downsample_prices n prices t = Some prices) /\
    (t = 0%Z -> (0 < n)%nat -> downsample_prices n prices t = None) /\
    ((1 <= t < Z.of_nat n)%Z -> (Z.of_nat n * t < 2 ^ 50)%Z ->
     downsample_prices n prices t =
     Some (map (fun row => map (fun pos => nth (Z.to_nat pos) row d)
                               (downsample_indices (Z.of_nat n) t))
               prices) /\
     length (downsample_indices (Z.of_nat n) t) = Z.to_nat t /\
     nth_error (downsample_indices (Z.of_nat n) t) 0 = Some 0%Z /\
     forall i, (0 <= i < t)%Z ->
       exists pos,
         nth_error (downsample_indices (Z.of_nat n) t) (Z.to_nat i) = Some pos /\
         (0 <= pos < Z.of_nat n)%Z /\
         (floorPosition (Z.of_nat n) t i <= pos
            <= floorPosition (Z.of_nat n) t i + 1)%Z /\
         (forall pos',
             nth_error (downsample_indices (Z.of_nat n) t) (Z.to_nat (i + 1)) =
             Some pos' -> (pos < pos')%Z)) /\
    ((t < 0)%Z -> (0 < n)%nat ->
     downsample_prices n prices t = Some (map (fun _ => []) prices)).
Proof.
  intros A d n prices t Hrows. unfold downsample_prices.
  split; [| split; [| split]].
  - intros H. destruct (Z.leb_spec (Z.of_nat n) t); [reflexivity | lia].
  - intros -> Hn. destruct (Z.leb_spec (Z.of_nat n) 0); [lia | reflexivity].
  - intros Ht Hsize. destruct (Z.leb_spec (Z.of_nat n) t); [lia |].
    destruct (Z.eqb_spec t 0); [lia |].
    destruct (Nat.eqb_spec n 0); [lia |].
    rewrite downsample_indices_value by lia.
    assert (Hnth : forall j, (0 <= j < t)%Z ->
              nth_error (map (fun i0 => rounded_index (Z.of_nat n) t (Z.of_nat i0))
                             (seq 0 (Z.to_nat t))) (Z.to_nat j) =
              Some (rounded_index (Z.of_nat n) t j)).
    { intros j Hj. rewrite nth_error_map, nth_error_seq.
      destruct (Nat.ltb_spec (Z.to_nat j) (Z.to_nat t)); [| lia].
      cbn [option_map Nat.add]. now rewrite Z2Nat.id by lia. }
    split; [| split; [| split]].
    + apply (@np_take_columns_in_range A d n prices _ Hrows).
      intros pos Hpos.
      apply in_map_iff in Hpos as (i & <- & Hi). apply in_seq in Hi.
      apply rounded_index_below; lia.
    + now rewrite length_map, length_seq.
    + change 0%nat with (Z.to_nat 0). rewrite Hnth by lia.
      f_equal. now apply rounded_index_zero.
    + intros i Hi. exists (rounded_index (Z.of_nat n) t i).
      destruct (@rounded_index_spec (Z.of_nat n) t i Ht Hsize ltac:(lia))
        as [Hb _].
      split; [now apply Hnth |].
      split; [now apply rounded_index_below |].
      split; [rewrite floorPosition_div by lia; exact Hb |].
      intros pos' Hpos'.
      destruct (Z.lt_ge_cases (i + 1) t) as [Hlt | Hge].
      * rewrite Hnth in Hpos' by lia. injection Hpos' as <-.
        apply rounded_index_increasing; lia.
      * assert (Hsome : nth_error
                          (map (fun i0 => rounded_index (Z.of_nat n) t (Z.of_nat i0))
                               (seq 0 (Z.to_nat t))) (Z.to_nat (i + 1)) <> None)
          by congruence.
        apply nth_error_Some in Hsome.
        rewrite length_map, length_seq in Hsome. lia.
  - intros Ht Hn. destruct (Z.leb_spec (Z.of_nat n) t); [lia |].
    destruct (Z.eqb_spec t 0); [lia |].
    destruct (Nat.eqb_spec n 0); [lia |].
    rewrite downsample_indices_negative by lia.
    clear. induction prices as [|row rows IH]; [reflexivity |].
    cbn [np_take_columns np_take map]. now rewrite IH.
Qed.

Lemma python_downsample_prices_witness :
  Forall (fun row : list Z => length row = 5%nat) [[10; 20; 30; 40; 50]%Z] /\
  downsample_prices 5 [[10; 20; 30; 40; 50]%Z] 3 = Some [[10; 30; 40]%Z].
Proof.
  assert (Hrows : Forall (fun row : list Z => length row = 5%nat)
                         [[10; 20; 30; 40; 50]%Z]) by (repeat constructor).
  split; [exact Hrows |].
  destruct (@python_downsample_prices Z 0%Z 5 [[10; 20; 30; 40; 50]%Z] 3 Hrows)
    as (_ & _ & H & _).
  destruct (H ltac:(lia) ltac:(simpl; lia)) as (E & _).
  rewrite E. reflexivity.
Defined.

(** ** The event index outside the precondition *)

(** X28.  When the event lasts at least as long as the series
    ([extremeEventDuration >= numObservations]) and the seed is
    nonnegative, the index of an extreme event is never positive: it is an
    integer in [numObservations - extremeEventDuration, 0]. *)
Theorem extremeEventIndex_long_event :
  forall (fuel : nat) (p : SimulationParameters) (w w' : World)
         (r : SimulationResult) (run : SimulationData),
    (0 <= randomSeed p)%Z ->
    (numObservations p <= extremeEventDuration p)%Z ->
    POST fuel p w = Some (Json r, w') -> In run (simulations r) ->
    extremeEvent run = true ->
    exists k : Z,
      extremeEventIndex run = Some (of_Z k) /\
      (numObservations p - extremeEventDuration p <= k <= 0)%Z.
Proof.
  intros fuel p w w' r run Hseed Hdur H Hin Hev.
  destruct (@POST_shape _ _ _ _ _ H) as (_ & _ & _ & Hs).
  rewrite Forall_forall in Hs.
  destruct (Hs run Hin) as (_ & _ & _ & _ & Hidx).
  rewrite Hev in Hidx. destruct Hidx as (u & Hu & Hpos & ->).
  specialize (Hpos Hseed).
  exists (Zfloor (u * (IZR (numObservations p) + - IZR (extremeEventDuration p)))).
  split; [reflexivity |].
  set (d := IZR (numObservations p) + - IZR (extremeEventDuration p)).
  assert (Hneg : d <= 0) by (unfold d; apply IZR_le in Hdur; lra).
  assert (Hx0 : u * d <= 0) by nra.
  assert (Hxd : d <= u * d) by nra.
  pose proof (Zfloor_bound (u * d)) as [Hlo Hhi].
  split.
  - apply Zfloor_lub. rewrite minus_IZR. fold d. unfold Rminus. fold d. exact Hxd.
  - assert (Hlt : (Zfloor (u * d) < 1)%Z); [| lia].
    apply lt_IZR. lra.
Qed.

Lemma extremeEventIndex_long_event_witness :
  exists r run k,
    POST 2 longEventParams idleWorld = Some (Json r, idleWorld) /\
    In run (simulations r) /\
    extremeEventIndex run = Some (of_Z k) /\ (3 - 5 <= k <= 0)%Z.
Proof.
  destruct (@POST_has_row 2 longEventParams idleWorld)
    as (r & run & row & H & Hrun & _); try (simpl; lia).
  assert (Hev : extremeEvent run = true).
  { pose proof (@POST_run_draws _ _ _ _ _ H) as Hd.
    rewrite Forall_forall in Hd.
    destruct (Hd run Hrun) as (_ & u & Hu & _ & ->).
    cbn [nlt extremeEventProbability longEventParams]. apply Rltb_true. lra. }
  destruct (@extremeEventIndex_long_event 2 longEventParams idleWorld idleWorld
              r run ltac:(simpl; lia) ltac:(simpl; lia) H Hrun Hev)
    as (k & Hk & Hr).
  exists r, run, k. split; [exact H |]. split; [exact Hrun |].
  split; [exact Hk |]. simpl in Hr. lia.
Defined.


